(** * pg_hibernator: the snapshot writer, the replayer and the restore scheduler

    A shallow embedding of [pg_hibernate.c]:

    - [SavedBufferCmp] and [SaveBuffers]   (module [Saver]),
    - [GetRelOid] and [ReadBlocks]         (module [Reader]),
    - [addPendingWorker], [RegisterWorker] and [processOnePendingWorker]
      (module [Scheduler]),
    - [_PG_init], [CreateDirectory], [RegisterBlockReaders],
      [BlockReaderMain] and [BufferSaverMain] (module [Lifecycle]).

    The signal handlers and [WorkerCommon] only set the flags [got_sigterm]
    and [got_sighup] and the latch; the flags appear where the loops test
    them.

    Integers are [Z]; the C types are 32 bits wide and every addition that the
    C code performs on them is followed by the wrap-around of its type.  A
    save-file is its header (the database name) and its record stream, a list
    of bytes in the byte order of the host (little-endian here). *)

From Stdlib Require Import String Ascii ZArith List Lia Bool Arith.
From Stdlib Require Import Sorting.Sorted Sorting.Permutation.
From coqutil Require Import Byte Word.LittleEndianList.
Import ListNotations.
Local Open Scope Z_scope.

(** ** PostgreSQL types and constants used by the file *)

Definition Oid := Z.             (* unsigned int *)
Definition ForkNumber := Z.      (* enum, an int *)
Definition BlockNumber := Z.     (* uint32 *)

Definition InvalidOid : Oid := 0.
Definition InvalidForkNumber : ForkNumber := -1.
Definition InvalidBlockNumber : BlockNumber := 0xFFFFFFFF.
Definition MaxBlockNumber : BlockNumber := 0xFFFFFFFE.

(** Wrap-around of [uint32] and of [int]. *)
Definition to_uint32 (z : Z) : Z := z mod 2 ^ 32.
Definition to_int32 (z : Z) : Z := (z + 2 ^ 31) mod 2 ^ 32 - 2 ^ 31.

Definition is_uint32 (z : Z) : Prop := 0 <= z < 2 ^ 32.
Definition is_int32 (z : Z) : Prop := - 2 ^ 31 <= z < 2 ^ 31.

(** [typedef struct SavedBuffer] *)
Record SavedBuffer := mkSavedBuffer {
  database : Oid;
  filenode : Oid;          (* On-disk marker: 'r' *)
  forknum  : ForkNumber;   (* On-disk marker: 'f' *)
  blocknum : BlockNumber   (* On-disk marker: 'b'; 'N' for a range *)
}.

(** ** Save-files

    The helpers of [pg_hibernator.h] ([fileOpen], [fileClose], [fileRead],
    [fileWrite], [readDBName], [writeDBName], [getSavefileName]) are not part
    of the C file. *)

(** Modelled from the spec: the layout of a save-file, which [writeDBName]
    and [readDBName] of [pg_hibernator.h] fix.  A file is a header, the
    display name of its database (empty for the file of the global objects),
    followed by the record stream; it is kept as that name and the bytes
    written after the header.  Its path is the number [getSavefileName] turns
    into a file name. *)
Record SaveFile := mkSaveFile {
  sf_dbname : string;
  sf_data   : list byte
}.

(** The four markers. *)
Definition marker_r : byte := Byte.x72.   (* 'r' *)
Definition marker_f : byte := Byte.x66.   (* 'f' *)
Definition marker_b : byte := Byte.x62.   (* 'b' *)
Definition marker_N : byte := Byte.x4e.   (* 'N' *)

(** [sizeof(Oid)], [sizeof(ForkNumber)], [sizeof(BlockNumber)], [sizeof(int)] *)
Definition sizeof_word : nat := 4.

(** The bytes of a 4-byte object holding [z], as [fileWrite(&x, sizeof(x),
    ...)] puts them in the file. *)
Definition object_bytes (z : Z) : list byte := le_split sizeof_word z.
Arguments object_bytes : simpl never.

(** Result of [fileRead]: the bytes read and the rest of the file; [false]
    at the end of the file; an [ERROR]. *)
Inductive ReadOutcome :=
| ReadOk (got rest : list byte)
| ReadEof
| ReadError.

(** Modelled from the spec: [fileRead(dest, size, file, eof_ok, path)] of
    [pg_hibernator.h], a scoped read with error-on-failure semantics.  It
    reads [size] bytes; when the file ends before, it answers [false] if
    [eof_ok] and raises an [ERROR] otherwise. *)
Definition fileRead (size : nat) (file : list byte) (eof_ok : bool) : ReadOutcome :=
  if (length file <? size)%nat
  then (if eof_ok then ReadEof else ReadError)
  else ReadOk (firstn size file) (skipn size file).

(** ** The comparator: [SavedBufferCmp] *)

(** The macro [svdbfrcmp(fld)]: decide on this field or go on with [k]. *)
Definition svdbfrcmp (x y : Z) (k : Z) : Z :=
  if x <? y then -1
  else if x >? y then 1
  else k.

Definition SavedBufferCmp (a b : SavedBuffer) : Z :=
  svdbfrcmp (database a) (database b)
 (svdbfrcmp (filenode a) (filenode b)
 (svdbfrcmp (forknum a) (forknum b)
 (svdbfrcmp (blocknum a) (blocknum b)
   0))).   (* Assert(false); return 0; *)

(** Modelled from the spec: [pg_qsort] of PostgreSQL, the sort of step 1 of
    the writer.  It orders the array by the comparator; an insertion sort
    stands for it.  The sorted array does not depend on the algorithm
    ([sorted_permutation_unique] below). *)
Fixpoint qsort_insert (cmp : SavedBuffer -> SavedBuffer -> Z)
         (x : SavedBuffer) (l : list SavedBuffer) : list SavedBuffer :=
  match l with
  | [] => [x]
  | y :: l' => if cmp x y <=? 0 then x :: l else y :: qsort_insert cmp x l'
  end.

Definition pg_qsort (cmp : SavedBuffer -> SavedBuffer -> Z)
           (l : list SavedBuffer) : list SavedBuffer :=
  fold_right (qsort_insert cmp) [] l.

(** ** The writer: [SaveBuffers] *)

Module Saver.

(** The [Assert]s of the function.  They are compiled out of a production
    build: a violated assertion is recorded and the run goes on. *)
Inductive Assertion :=
| first_buffer_is_global    (* Assert(buf->database == InvalidOid) *)
| file_not_null.            (* Assert(file != NULL) *)

(** The local variables that live across iterations, and the files. *)
Record State := mkState {
  file : option (nat * SaveFile);  (* FILE *file, with savefile_path *)
  closed : list (nat * SaveFile);  (* files closed so far, oldest first *)
  database_counter : nat;
  prev_database : Oid;
  prev_filenode : Oid;
  prev_forknum  : ForkNumber;
  prev_blocknum : BlockNumber;
  range_counter : BlockNumber;
  violated : list Assertion
}.

Definition initial : State :=
  {| file := None; closed := [];
     database_counter := 0;
     prev_database := InvalidOid;
     prev_filenode := InvalidOid;
     prev_forknum  := InvalidForkNumber;
     prev_blocknum := InvalidBlockNumber;
     range_counter := 0;
     violated := [] |}.

Definition Assert (cond : bool) (a : Assertion) (st : State) : State :=
  if cond then st
  else mkState (file st) (closed st) (database_counter st) (prev_database st)
               (prev_filenode st) (prev_forknum st) (prev_blocknum st)
               (range_counter st) (violated st ++ [a]).

(** Modelled from the spec: [fileClose(file, savefile_path)] of
    [pg_hibernator.h].  The file joins the closed ones; on a [NULL] handle
    nothing is closed. *)
Definition fileClose (st : State) : State :=
  match file st with
  | Some f =>
      mkState None (closed st ++ [f]) (database_counter st) (prev_database st)
              (prev_filenode st) (prev_forknum st) (prev_blocknum st)
              (range_counter st) (violated st)
  | None => st
  end.

(** Modelled from the spec: [fileOpen] and [writeDBName] of
    [pg_hibernator.h], as used in
    [savefile_path = getSavefileName(database_counter);
     file = fileOpen(savefile_path, PG_BINARY_W); writeDBName(dbname, ...)]:
    a new file with the name in its header and no record. *)
Definition fileOpen (dbname : string) (st : State) : State :=
  mkState (Some (database_counter st, mkSaveFile dbname []))
          (closed st) (database_counter st) (prev_database st)
          (prev_filenode st) (prev_forknum st) (prev_blocknum st)
          (range_counter st) (violated st).

(** Modelled from the spec: [fileWrite(src, size, file, savefile_path)] of
    [pg_hibernator.h]: the bytes go to the end of the open file. *)
Definition fileWrite (bytes : list byte) (st : State) : State :=
  match file st with
  | Some (path, f) =>
      mkState (Some (path, mkSaveFile (sf_dbname f) (sf_data f ++ bytes)))
              (closed st) (database_counter st) (prev_database st)
              (prev_filenode st) (prev_forknum st) (prev_blocknum st)
              (range_counter st) (violated st)
  | None => st
  end.

Definition set_database_counter (n : nat) (st : State) : State :=
  mkState (file st) (closed st) n (prev_database st)
          (prev_filenode st) (prev_forknum st) (prev_blocknum st)
          (range_counter st) (violated st).

(** Assignment to the four trackers and to [range_counter]. *)
Definition set_trackers (d f : Oid) (k : ForkNumber) (b c : BlockNumber)
           (st : State) : State :=
  mkState (file st) (closed st) (database_counter st) d f k b c (violated st).

(** A buffer header as the scan reads it: the state word [LockBufHdr]
    returns and the tag. *)
Record BufferDesc := mkBufferDesc {
  buf_state : Z;
  tag_dbNode : Oid;
  tag_relNode : Oid;
  tag_forkNum : ForkNumber;
  tag_blockNum : BlockNumber
}.

(** [for (num_buffers = 0, i = 0; i < NBuffers; ++i)]: the valid buffers of
    the cache, in the order of the descriptors.  The two flags belong to
    PostgreSQL's [buf_internals.h]. *)
Fixpoint scan_buffers (BM_VALID BM_TAG_VALID : Z)
         (BufferDescriptors : list BufferDesc) : list SavedBuffer :=
  match BufferDescriptors with
  | [] => []
  | bufHdr :: others =>
      if negb (Z.land (buf_state bufHdr) BM_VALID =? 0)
         && negb (Z.land (buf_state bufHdr) BM_TAG_VALID =? 0)
      then mkSavedBuffer (tag_dbNode bufHdr) (tag_relNode bufHdr)
                         (tag_forkNum bufHdr) (tag_blockNum bufHdr)
           :: scan_buffers BM_VALID BM_TAG_VALID others
      else scan_buffers BM_VALID BM_TAG_VALID others
  end.

Section WithCatalog.

(** [get_database_name] of PostgreSQL. *)
Variable get_database_name : Oid -> string.

(** [if (i == 0) { ... }] *)
Definition first_buffer (buf : SavedBuffer) (st : State) : State :=
  let st := Assert (database buf =? InvalidOid) first_buffer_is_global st in
  let st := set_database_counter 1 st in
  let st := fileOpen EmptyString st in
  set_trackers (database buf) (prev_filenode st) (prev_forknum st)
               (prev_blocknum st) (range_counter st) st.

(** [if (buf->database != prev_database) { ... }] *)
Definition next_database (buf : SavedBuffer) (st : State) : State :=
  let st := set_database_counter (S (database_counter st)) st in
  let dbname := get_database_name (database buf) in
  let st := fileClose st in              (* if (file != NULL) *)
  let st := fileOpen dbname st in
  set_trackers (database buf) InvalidOid InvalidForkNumber
               InvalidBlockNumber 0 st.

(** [if (buf->filenode != prev_filenode) { ... }] *)
Definition next_filenode (buf : SavedBuffer) (st : State) : State :=
  let st := fileWrite [marker_r] st in
  let st := fileWrite (object_bytes (filenode buf)) st in
  set_trackers (prev_database st) (filenode buf) InvalidForkNumber
               InvalidBlockNumber 0 st.

(** [if (buf->forknum != prev_forknum) { ... }] *)
Definition next_forknum (buf : SavedBuffer) (st : State) : State :=
  let st := fileWrite [marker_f] st in
  let st := fileWrite (object_bytes (forknum buf)) st in
  set_trackers (prev_database st) (prev_filenode st) (forknum buf)
               InvalidBlockNumber 0 st.

(** The block record, [prev_blocknum = buf->blocknum; range_counter = 0]. *)
Definition write_block (buf : SavedBuffer) (st : State) : State :=
  let st := fileWrite [marker_b] st in
  let st := fileWrite (object_bytes (blocknum buf)) st in
  set_trackers (prev_database st) (prev_filenode st) (prev_forknum st)
               (blocknum buf) 0 st.

(** [for (j = i+1; j < num_buffers; ++j)]: [rest] is the array from index
    [i+1] on; the result is [range_counter] when the loop is left. *)
Fixpoint look_ahead (st : State) (counter : BlockNumber)
         (rest : list SavedBuffer) : BlockNumber :=
  match rest with
  | [] => counter
  | tmp :: rest' =>
      if (database tmp =? prev_database st)
         && (filenode tmp =? prev_filenode st)
         && (forknum tmp =? prev_forknum st)
         && (blocknum tmp =? to_uint32 (prev_blocknum st + counter + 1))
      then look_ahead st (to_uint32 (counter + 1)) rest'
      else counter
  end.

(** [if (range_counter != 0) { ... }], the write part. *)
Definition write_range (st : State) : State :=
  let st := fileWrite [marker_N] st in
  fileWrite (object_bytes (range_counter st)) st.

(** The head of the body of the main loop: [if (i == 0)] and
    [if (buf->database != prev_database)]. *)
Definition open_save_file (i : nat) (buf : SavedBuffer) (st : State) : State :=
  let st := if (i =? 0)%nat then first_buffer buf st else st in
  if negb (database buf =? prev_database st)
  then next_database buf st else st.

(** [if (buf->filenode != prev_filenode)] and
    [if (buf->forknum != prev_forknum)]. *)
Definition mark_relation_and_fork (buf : SavedBuffer) (st : State) : State :=
  let st := if negb (filenode buf =? prev_filenode st)
            then next_filenode buf st else st in
  if negb (forknum buf =? prev_forknum st)
  then next_forknum buf st else st.

(** The rest of the body: the relation and fork records, the block record,
    the look-ahead and the range record. *)
Definition write_entry (buf : SavedBuffer) (rest : list SavedBuffer)
           (st : State) : State :=
  let st := mark_relation_and_fork buf st in
  let st := write_block buf st in
  let st := set_trackers (prev_database st) (prev_filenode st)
              (prev_forknum st) (prev_blocknum st)
              (look_ahead st 0 rest) st in
  if negb (range_counter st =? 0) then write_range st else st.

(** One pass of the body of the main loop; [i += range_counter] is left to
    the loop. *)
Definition loop_body (i : nat) (buf : SavedBuffer) (rest : list SavedBuffer)
           (st : State) : State :=
  write_entry buf rest (open_save_file i buf st).

(** [for (i = 0; i < num_buffers; ++i)], with [i += range_counter] at the
    end of the body.  [bufs] is the array from index [i] on.  Every pass
    moves [i] forward, so [num_buffers] passes are enough
    ([save_loop_fuel]). *)
Fixpoint save_loop (fuel : nat) (i : nat) (bufs : list SavedBuffer)
         (st : State) : State :=
  match fuel, bufs with
  | S fuel', buf :: rest =>
      let st := loop_body i buf rest st in
      let skip := Z.to_nat (range_counter st) in
      save_loop fuel' (S (i + skip)) (skipn skip rest) st
  | _, _ => st
  end.

(** [SaveBuffers], from the scanned array on: sort, write, close. *)
Definition SaveBuffers (scanned : list SavedBuffer) : State :=
  let saved_buffers := pg_qsort SavedBufferCmp scanned in
  let st := save_loop (length saved_buffers) 0 saved_buffers initial in
  let st := Assert (match file st with Some _ => true | None => false end)
                   file_not_null st in
  fileClose st.     (* on a NULL handle nothing is closed *)

(** The files the run leaves behind. *)
Definition save_files (scanned : list SavedBuffer) : list (nat * SaveFile) :=
  closed (SaveBuffers scanned).

End WithCatalog.

End Saver.

(** ** The replayer: [GetRelOid] and [ReadBlocks] *)

Module Reader.

(** What a block reader meets outside of the C file: the server it is
    connected to, the signal flag, and the values its uninitialised local
    variables happen to hold. *)
Record World := mkWorld {
  guc_default_database : string;
  (* rows of "select oid from pg_class where pg_relation_filenode(oid) = $1"
     in the database connected to; a NULL datum is [None] *)
  SPI_execute_plan : string -> Oid -> list (option Oid);
  smgrexists : string -> Oid -> ForkNumber -> bool;
  RelationGetNumberOfBlocksInFork : string -> Oid -> ForkNumber -> Z;
  (* value of the flag at the check of the n-th pass of the loop *)
  got_sigterm : nat -> bool;
  (* remove(filepath) == 0 *)
  remove_succeeds : bool;
  (* [record_filenode], [record_forknum] and [record_blocknum] are declared
     without an initialiser *)
  uninitialised_filenode : Oid;
  uninitialised_forknum  : ForkNumber;
  uninitialised_blocknum : BlockNumber
}.

(** [ReadBufferExtended(rel, forknum, blocknum, RBM_NORMAL, NULL)] followed
    by [ReleaseBuffer]: one page fetch.  [rel] is the pointer handed over,
    [None] for [NULL]. *)
Record Fetch := mkFetch {
  fetch_rel      : option Oid;
  fetch_forknum  : ForkNumber;
  fetch_blocknum : BlockNumber
}.

(** The [ereport(ERROR, ...)] of the function and of [fileRead]. *)
Inductive Error :=
| fork_without_relation
| block_without_fork
| range_without_block
| unexpected_marker (record_type : byte)
| read_past_end
| remove_failed.

(** The local variables of [ReadBlocks] that live across records.  The
    three [Assert]s of the function are not kept apart: two are about
    [filenum] and the name in the header, the third has the condition of the
    [ERROR] raised on the next line. *)
Record State := mkState {
  record_filenode : Oid;
  record_forknum  : ForkNumber;
  record_blocknum : BlockNumber;
  rel           : option Oid;      (* Relation rel, [None] for NULL *)
  skip_relation : bool;
  skip_fork     : bool;
  skip_block    : bool;
  nblocks       : BlockNumber;
  blocks_restored : BlockNumber;
  fetched       : list Fetch       (* the fetches so far, oldest first *)
}.

Definition set_filenode (v : Oid) (st : State) : State :=
  mkState v (record_forknum st) (record_blocknum st) (rel st)
          (skip_relation st) (skip_fork st) (skip_block st) (nblocks st)
          (blocks_restored st) (fetched st).
Definition set_forknum (v : ForkNumber) (st : State) : State :=
  mkState (record_filenode st) v (record_blocknum st) (rel st)
          (skip_relation st) (skip_fork st) (skip_block st) (nblocks st)
          (blocks_restored st) (fetched st).
Definition set_blocknum (v : BlockNumber) (st : State) : State :=
  mkState (record_filenode st) (record_forknum st) v (rel st)
          (skip_relation st) (skip_fork st) (skip_block st) (nblocks st)
          (blocks_restored st) (fetched st).
Definition set_rel (v : option Oid) (st : State) : State :=
  mkState (record_filenode st) (record_forknum st) (record_blocknum st) v
          (skip_relation st) (skip_fork st) (skip_block st) (nblocks st)
          (blocks_restored st) (fetched st).
Definition set_skip_relation (v : bool) (st : State) : State :=
  mkState (record_filenode st) (record_forknum st) (record_blocknum st)
          (rel st) v (skip_fork st) (skip_block st) (nblocks st)
          (blocks_restored st) (fetched st).
Definition set_skip_fork (v : bool) (st : State) : State :=
  mkState (record_filenode st) (record_forknum st) (record_blocknum st)
          (rel st) (skip_relation st) v (skip_block st) (nblocks st)
          (blocks_restored st) (fetched st).
Definition set_skip_block (v : bool) (st : State) : State :=
  mkState (record_filenode st) (record_forknum st) (record_blocknum st)
          (rel st) (skip_relation st) (skip_fork st) v (nblocks st)
          (blocks_restored st) (fetched st).
Definition set_nblocks (v : BlockNumber) (st : State) : State :=
  mkState (record_filenode st) (record_forknum st) (record_blocknum st)
          (rel st) (skip_relation st) (skip_fork st) (skip_block st) v
          (blocks_restored st) (fetched st).

(** [buf = ReadBufferExtended(rel, record_forknum, block, ...);
     ReleaseBuffer(buf); ++blocks_restored;] *)
Definition fetch_block (block : BlockNumber) (st : State) : State :=
  mkState (record_filenode st) (record_forknum st) (record_blocknum st)
          (rel st) (skip_relation st) (skip_fork st) (skip_block st)
          (nblocks st) (to_uint32 (blocks_restored st + 1))
          (fetched st ++ [mkFetch (rel st) (record_forknum st) block]).

(** How one pass of the loop body ends. *)
Inductive Control :=
| Continue (st : State) (file : list byte)    (* [break] of the switch, or [continue] *)
| Raise (e : Error) (st : State).             (* [ereport(ERROR, ...)] *)

(** [fileRead(&x, 4, file, false, filepath)] *)
Definition read_object (file : list byte) (st : State)
           (k : Z -> list byte -> Control) : Control :=
  match fileRead sizeof_word file false with
  | ReadOk got rest => k (le_combine got) rest
  | _ => Raise read_past_end st
  end.

Section WithWorld.

Variable world : World.
Variable conn : string.      (* the database connected to *)

(** [GetRelOid(filenode)] *)
Definition GetRelOid (fnode : Oid) : Oid :=
  match SPI_execute_plan world conn fnode with
  | [] => InvalidOid                  (* SPI_processed < 1 *)
  | None :: _ => InvalidOid           (* isnull *)
  | Some relid :: _ => relid
  end.

(** [case 'r':] *)
Definition relation_record (st : State) (file : list byte) : Control :=
  let st := set_rel None st in         (* relation_close, if any *)
  let st := set_forknum InvalidForkNumber st in
  let st := set_blocknum InvalidBlockNumber st in
  let st := set_nblocks 0 st in
  read_object file st (fun v rest =>
    let st := set_filenode v st in
    let relOid := GetRelOid (record_filenode st) in
    if relOid =? InvalidOid
    then Continue (set_skip_relation true st) rest
    else Continue (set_rel (Some relOid) (set_skip_relation false st)) rest).

(** [case 'f':] *)
Definition fork_record (st : State) (file : list byte) : Control :=
  let st := set_blocknum InvalidBlockNumber st in
  let st := set_nblocks 0 st in
  read_object file st (fun v rest =>
    let st := set_forknum (to_int32 v) st in
    if skip_relation st then Continue st rest
    else match rel st with
         | None => Raise fork_without_relation st
         | Some r =>
             if negb (smgrexists world conn r (record_forknum st))
             then Continue (set_skip_fork true st) rest
             else
               let st := set_skip_fork false st in
               Continue (set_nblocks
                 (to_uint32 (RelationGetNumberOfBlocksInFork world conn r
                               (record_forknum st))) st) rest
         end).

(** [case 'b':] *)
Definition block_record (st : State) (file : list byte) : Control :=
  if record_forknum st =? InvalidForkNumber
  then Raise block_without_fork st
  else
    read_object file st (fun v rest =>
      let st := set_blocknum v st in
      if skip_relation st || skip_fork st then Continue st rest
      else if record_blocknum st >=? nblocks st
      then Continue (set_skip_block true st) rest
      else
        let st := set_skip_block false st in
        Continue (fetch_block (record_blocknum st) st) rest).

(** [for (block = record_blocknum + 1;
          block <= (record_blocknum + record_range); ++block)].
    [last] is the right-hand side of the test. *)
Fixpoint range_loop (fuel : nat) (block last : BlockNumber) (st : State)
  : option State :=
  match fuel with
  | O => None
  | S fuel' =>
      if block <=? last then
        if block >=? nblocks st then Some st            (* break *)
        else range_loop fuel' (to_uint32 (block + 1)) last
                        (fetch_block block st)
      else Some st
  end.

(** [case 'N':]; [None] when the fuel of the inner loop runs out. *)
Definition range_record (st : State) (file : list byte) : option Control :=
  if record_blocknum st =? InvalidBlockNumber
  then Some (Raise range_without_block st)
  else
    match fileRead sizeof_word file false with
    | ReadOk got rest =>
        let record_range := le_combine got in
        if skip_relation st || skip_fork st || skip_block st
        then Some (Continue st rest)
        else
          match range_loop (S (Z.to_nat record_range))
                  (to_uint32 (record_blocknum st + 1))
                  (to_uint32 (record_blocknum st + record_range)) st with
          | Some st' => Some (Continue st' rest)
          | None => None
          end
    | _ => Some (Raise read_past_end st)
    end.

(** [switch (record_type)] *)
Definition record_switch (record_type : byte) (st : State)
           (file : list byte) : option Control :=
  if Byte.eqb record_type marker_r then Some (relation_record st file)
  else if Byte.eqb record_type marker_f then Some (fork_record st file)
  else if Byte.eqb record_type marker_b then Some (block_record st file)
  else if Byte.eqb record_type marker_N then range_record st file
  else Some (Raise (unexpected_marker record_type) st).

(** How the [while] loop is left. *)
Inductive LoopEnd :=
| EndOfFile (st : State)       (* fileRead returned false *)
| Terminated (st : State)      (* if (got_sigterm) break; *)
| Error_ (e : Error) (st : State)
| OutOfFuel.

(** [while (fileRead(&record_type, 1, file, true, filepath))], at its
    [n]-th pass. *)
Fixpoint read_loop (fuel : nat) (n : nat) (st : State) (file : list byte)
  : LoopEnd :=
  match fuel with
  | O => OutOfFuel
  | S fuel' =>
      match fileRead 1 file true with
      | ReadOk got rest =>
          if got_sigterm world n then Terminated st
          else
            match record_switch (hd Byte.x00 got) st rest with
            | Some (Continue st' file') => read_loop fuel' (S n) st' file'
            | Some (Raise e st') => Error_ e st'
            | None => OutOfFuel
            end
      | _ => EndOfFile st
      end
  end.

End WithWorld.

(** How the worker ends. *)
Inductive Exit :=
| Completed          (* ReadBlocks returns; "all blocks read successfully" *)
| Failed (e : Error) (* ereport(ERROR): the worker exits on the error *)
| Diverged.          (* the model ran out of fuel; excluded by [ReadBlocks_total] *)

Record Result := mkResult {
  exit : Exit;
  connected_to : string;
  fetches : list Fetch;
  file_removed : bool
}.

Definition initial (world : World) : State :=
  {| record_filenode := to_uint32 (uninitialised_filenode world);
     record_forknum  := to_int32 (uninitialised_forknum world);
     record_blocknum := to_uint32 (uninitialised_blocknum world);
     rel := None;
     skip_relation := false;
     skip_fork := false;
     skip_block := false;
     nblocks := 0;
     blocks_restored := 0;
     fetched := [] |}.

(** What follows the loop: close the relation, commit, close the file and
    remove it. *)
Definition after_loop (world : World) (conn : string) (st : State) : Result :=
  if remove_succeeds world
  then mkResult Completed conn (fetched st) true
  else mkResult (Failed remove_failed) conn (fetched st) false.

(** [ReadBlocks(filenum)], on the save-file [filenum] names. *)
Definition ReadBlocks (world : World) (filenum : nat) (f : SaveFile) : Result :=
  let dbname := sf_dbname f in
  let conn := if (filenum =? 1)%nat then guc_default_database world else dbname in
  match read_loop world conn (S (length (sf_data f))) 0 (initial world) (sf_data f) with
  | EndOfFile st => after_loop world conn st
  | Terminated st => after_loop world conn st
  | Error_ e st => mkResult (Failed e) conn (fetched st) false
  | OutOfFuel => mkResult Diverged conn [] false
  end.

End Reader.


(** ** The restore scheduler: [RegisterWorker] and [processOnePendingWorker] *)

Module Scheduler.

(** [BgwHandleStatus] of PostgreSQL's [bgworker.h]. *)
Inductive BgwHandleStatus :=
| BGWH_STARTED
| BGWH_NOT_YET_STARTED
| BGWH_STOPPED
| BGWH_POSTMASTER_DIED.

(** A [BackgroundWorkerHandle *] that is not [NULL]. *)
Definition BackgroundWorkerHandle := nat.

(** What the postmaster answers during one call of
    [processOnePendingWorker]. *)
Record Postmaster := mkPostmaster {
  GetBackgroundWorkerPid : BackgroundWorkerHandle -> BgwHandleStatus;
  RegisterDynamicBackgroundWorker : Z -> option BackgroundWorkerHandle
}.

(** A worker handed to the postmaster. *)
Inductive Worker :=
| BufferSaver               (* RegisterBackgroundWorker, "Buffer Saver" *)
| BlockReader (id : Z).     (* RegisterDynamicBackgroundWorker, "Block Reader %d" *)

(** The global [pendingWorkers] and the static local [last_worker]. *)
Record State := mkState {
  pendingWorkers : list Z;
  last_worker : option BackgroundWorkerHandle
}.

(** What one call did besides changing the state. *)
Record Tick := mkTick {
  dispatched : option Worker;     (* the worker registered by this call *)
  assert_false : bool;            (* the [default:] branch, Assert(false) *)
  logged_failure : bool           (* "registration of background worker failed" *)
}.

(** [addPendingWorker(filenum)] *)
Definition addPendingWorker (filenum : Z) (st : State) : State :=
  mkState (pendingWorkers st ++ [filenum]) (last_worker st).

(** [RegisterWorker(id, handle)]: the return value, [*handle] after the call
    and the worker registered. *)
Definition RegisterWorker (pm : Postmaster) (id : Z)
           (handle : option BackgroundWorkerHandle)
  : bool * option BackgroundWorkerHandle * option Worker :=
  if id =? 0 then (true, handle, Some BufferSaver)
  else match RegisterDynamicBackgroundWorker pm id with
       | Some h => (true, Some h, Some (BlockReader id))
       | None => (false, handle, None)
       end.

(** The part of [processOnePendingWorker] after the switch. *)
Definition register_first (pm : Postmaster) (failed_assert : bool)
           (st : State) : State * Tick :=
  match pendingWorkers st with
  | [] => (st, mkTick None failed_assert false)
  | id :: rest =>
      match RegisterWorker pm id (last_worker st) with
      | (false, h, w) => (mkState (pendingWorkers st) h, mkTick w failed_assert true)
      | (true, h, w) => (mkState rest h, mkTick w failed_assert false)
      end
  end.

(** [processOnePendingWorker()]: one scheduling tick. *)
Definition processOnePendingWorker (guc_parallel_enabled : bool)
           (pm : Postmaster) (st : State) : State * Tick :=
  if (length (pendingWorkers st) =? 0)%nat
  then (st, mkTick None false false)
  else
    match last_worker st with
    | Some h =>
        match GetBackgroundWorkerPid pm h with
        | BGWH_STARTED | BGWH_NOT_YET_STARTED =>
            if negb guc_parallel_enabled
            then (st, mkTick None false false)
            else register_first pm false (mkState (pendingWorkers st) None)
        | BGWH_STOPPED =>
            register_first pm false (mkState (pendingWorkers st) None)
        | BGWH_POSTMASTER_DIED =>
            register_first pm true st
        end
    | None => register_first pm false st
    end.

End Scheduler.

(** ** The workers and their start: [_PG_init], [CreateDirectory],
    [RegisterBlockReaders], [BlockReaderMain], [BufferSaverMain] *)

Module Lifecycle.

(** The two parameters a reload can change; [guc_default_database] is set at
    server start only. *)
Record GUCs := mkGUCs {
  guc_enabled : bool;
  guc_parallel_enabled : bool
}.

(** What [stat(hibernate_dir, &st)] answers. *)
Inductive StatResult :=
| StatOk (is_dir : bool)        (* 0, with S_ISDIR(st.st_mode) *)
| StatFails (errno : Z).        (* not 0, with errno *)

Definition ENOENT : Z := 2.     (* errno.h *)

(** The save location as [CreateDirectory] meets it: the answer of [stat]
    and the return value of [mkdir(hibernate_dir, S_IRWXU)]. *)
Record SaveLocation := mkSaveLocation {
  stat : StatResult;
  mkdir : Z
}.

(** The [ereport(ERROR, ...)] of the functions of this part. *)
Inductive Error :=
| not_a_directory               (* "exists but is not a directory" *)
| could_not_create_directory
| could_not_stat_directory
| could_not_open_directory
| readdir_error                 (* "error encountered during readdir" *)
| could_not_find_save_file.     (* "could not find its save-file" *)

(** [CreateDirectory()]: the error raised, if any, and whether [mkdir] was
    called. *)
Definition CreateDirectory (loc : SaveLocation) : option Error * bool :=
  match stat loc with
  | StatOk is_dir =>
      if negb is_dir then (Some not_a_directory, false) else (None, false)
  | StatFails errno =>
      if errno =? ENOENT
      then if mkdir loc <? 0 then (Some could_not_create_directory, true)
           else (None, true)
      else (Some could_not_stat_directory, false)
  end.

(** What loading the library did. *)
Record Loaded := mkLoaded {
  init_error : option Error;
  made_directory : bool;                      (* mkdir was called *)
  registered : option Scheduler.Worker
}.

(** [_PG_init()]; [DefineGUCs] declares the parameters. *)
Definition _PG_init (loc : SaveLocation) (pm : Scheduler.Postmaster) : Loaded :=
  match CreateDirectory loc with
  | (Some e, made) => mkLoaded (Some e) made None
  | (None, made) =>
      match Scheduler.RegisterWorker pm 0 None with
      | (_, _, w) => mkLoaded None made w
      end
  end.

(** The save location as [opendir] and the loop over [readdir] meet it: the
    names [readdir] yields before it answers [NULL], and whether [errno] is
    set then. *)
Record Listing := mkListing {
  opendir_ok : bool;
  d_names : list string;
  readdir_failed : bool
}.

Section WithNames.

(** [parseSavefileName(d_name, &filenum)] of [pg_hibernator.h]: the number a
    file name carries, when it is the name of a save-file. *)
Variable parseSavefileName : string -> option Z.

(** The body of the loop of [RegisterBlockReaders]. *)
Definition add_save_file (st : Scheduler.State) (d_name : string)
  : Scheduler.State :=
  match parseSavefileName d_name with
  | None => st                                   (* continue *)
  | Some filenum => Scheduler.addPendingWorker filenum st
  end.

(** [RegisterBlockReaders()] *)
Definition RegisterBlockReaders (gucs : GUCs) (dir : Listing)
           (st : Scheduler.State) : option Error * Scheduler.State :=
  if negb (guc_enabled gucs) then (None, st)
  else if negb (opendir_ok dir) then (Some could_not_open_directory, st)
  else
    let st := fold_left add_save_file (d_names dir) st in
    if readdir_failed dir then (Some readdir_error, st) else (None, st).

(** The loop of [BlockReaderMain] over the directory: the number it leaves
    the loop with at [break], [None] when [readdir] answers [NULL] first. *)
Fixpoint find_save_file (id : Z) (names : list string) : option Z :=
  match names with
  | [] => None
  | d_name :: rest =>
      match parseSavefileName d_name with
      | None => find_save_file id rest           (* continue *)
      | Some filenum =>
          if filenum =? id then Some filenum else find_save_file id rest
      end
  end.

(** How a block reader ends: on an [ERROR] of its own, or after
    [ReadBlocks(filenum)]. *)
Inductive ReaderRun :=
| ReaderError (e : Error)
| Replayed (filenum : Z) (r : Reader.Result).

(** [BlockReaderMain(main_arg)], with [id = DatumGetInt32(main_arg)];
    [savefile] is what [getSavefileName] and [fileOpen] find for a number. *)
Definition BlockReaderMain (world : Reader.World) (savefile : Z -> SaveFile)
           (dir : Listing) (id : Z) : ReaderRun :=
  if negb (opendir_ok dir) then ReaderError could_not_open_directory
  else
    match find_save_file id (d_names dir) with
    | None =>
        if readdir_failed dir then ReaderError readdir_error
        else ReaderError could_not_find_save_file
    | Some filenum =>
        Replayed filenum
          (Reader.ReadBlocks world (Z.to_nat filenum) (savefile filenum))
    end.

(** One pass of the main loop of the buffer saver, as the process meets it:
    the answers of the postmaster during [processOnePendingWorker], the
    postmaster-death bit of [WaitLatch], the flag [got_sighup] with the values
    [ProcessConfigFile(PGC_SIGHUP)] then loads, and the flag [got_sigterm] at
    the next test of the loop. *)
Record Pass := mkPass {
  pass_postmaster : Scheduler.Postmaster;
  pass_postmaster_death : bool;
  pass_sighup : option GUCs;
  pass_sigterm : bool
}.

(** How the main loop is left. *)
Inductive LoopExit :=
| Shutdown            (* the test [!got_sigterm] failed *)
| PostmasterDeath     (* proc_exit(1) *)
| InLoop.             (* the passes given end with the worker in its loop *)

Record LoopRun := mkLoopRun {
  loop_exit : LoopExit;
  loop_gucs : GUCs;
  loop_state : Scheduler.State;
  loop_ticks : list Scheduler.Tick      (* one for each pass, in order *)
}.

(** [while (!got_sigterm) { ... }] of [BufferSaverMain]. *)
Fixpoint main_loop (gucs : GUCs) (st : Scheduler.State) (got_sigterm : bool)
         (passes : list Pass) : LoopRun :=
  if got_sigterm then mkLoopRun Shutdown gucs st []
  else
    match passes with
    | [] => mkLoopRun InLoop gucs st []
    | p :: rest =>
        let (st, tick) :=
          Scheduler.processOnePendingWorker (guc_parallel_enabled gucs)
            (pass_postmaster p) st in
        if pass_postmaster_death p
        then mkLoopRun PostmasterDeath gucs st [tick]
        else
          let gucs := match pass_sighup p with
                      | Some reloaded => reloaded
                      | None => gucs
                      end in
          let run := main_loop gucs st (pass_sigterm p) rest in
          mkLoopRun (loop_exit run) (loop_gucs run) (loop_state run)
                    (tick :: loop_ticks run)
    end.

(** How the buffer saver ends. *)
Inductive SaverExit :=
| SaverError (e : Error)                   (* ERROR in RegisterBlockReaders *)
| PostmasterDied                           (* proc_exit(1) *)
| Returned (saved : option Saver.State)    (* the run of SaveBuffers, if any *)
| Waiting.                                 (* still in the main loop *)

Record SaverRun := mkSaverRun {
  saver_exit : SaverExit;
  saver_gucs : GUCs;
  saver_state : Scheduler.State;
  saver_ticks : list Scheduler.Tick
}.

Variable get_database_name : Oid -> string.
Variable BM_VALID : Z.
Variable BM_TAG_VALID : Z.

(** [BufferSaverMain(main_arg)]: [got_sigterm] is the flag at the first test
    of the loop, [BufferDescriptors] the buffer pool at shutdown. *)
Definition BufferSaverMain (gucs : GUCs) (dir : Listing) (got_sigterm : bool)
           (passes : list Pass) (BufferDescriptors : list Saver.BufferDesc)
  : SaverRun :=
  match RegisterBlockReaders gucs dir (Scheduler.mkState [] None) with
  | (Some e, st) => mkSaverRun (SaverError e) gucs st []
  | (None, st) =>
      let run := main_loop gucs st got_sigterm passes in
      mkSaverRun
        match loop_exit run with
        | Shutdown =>
            Returned
              (if guc_enabled (loop_gucs run)
               then Some (Saver.SaveBuffers get_database_name
                            (Saver.scan_buffers BM_VALID BM_TAG_VALID
                               BufferDescriptors))
               else None)
        | PostmasterDeath => PostmasterDied
        | InLoop => Waiting
        end
        (loop_gucs run) (loop_state run) (loop_ticks run)
  end.

End WithNames.

End Lifecycle.

(** * Vocabulary of the properties *)

(** The order of the keys, spelled out. *)
Definition key_lt (a b : SavedBuffer) : Prop :=
  database a < database b
  \/ (database a = database b
      /\ (filenode a < filenode b
          \/ (filenode a = filenode b
              /\ (forknum a < forknum b
                  \/ (forknum a = forknum b /\ blocknum a < blocknum b))))).

Definition cmp_le (a b : SavedBuffer) : Prop := SavedBufferCmp a b <= 0.
Definition cmp_lt (a b : SavedBuffer) : Prop := SavedBufferCmp a b < 0.

Ltac cmp_cases :=
  unfold SavedBufferCmp, svdbfrcmp in *;
  repeat match goal with
  | |- context [?x <? ?y] => destruct (Z.ltb_spec x y)
  | |- context [?x >? ?y] => rewrite (Z.gtb_ltb x y)
  | H : context [?x <? ?y] |- _ => destruct (Z.ltb_spec x y)
  | H : context [?x >? ?y] |- _ => rewrite (Z.gtb_ltb x y) in H
  end.

(** The draining rule as the design text words it: a tick that finds the
    worker of the slot stopped empties the slot and registers nothing. *)
Definition draining_is_a_tick_of_its_own : Prop :=
  forall (parallel : bool) (pm : Scheduler.Postmaster) (st : Scheduler.State)
         (h : Scheduler.BackgroundWorkerHandle),
    Scheduler.pendingWorkers st <> [] ->
    Scheduler.last_worker st = Some h ->
    Scheduler.GetBackgroundWorkerPid pm h = Scheduler.BGWH_STOPPED ->
    let (st', tick) := Scheduler.processOnePendingWorker parallel pm st in
    Scheduler.last_worker st' = None /\ Scheduler.dispatched tick = None.

(** The records of a save-file and their bytes. *)
Inductive SaveRecord :=
| RelRec (v : Oid)
| ForkRec (v : ForkNumber)
| BlockRec (v : BlockNumber)
| RangeRec (v : BlockNumber).

Definition encode_record (r : SaveRecord) : list byte :=
  match r with
  | RelRec v => marker_r :: object_bytes v
  | ForkRec v => marker_f :: object_bytes v
  | BlockRec v => marker_b :: object_bytes v
  | RangeRec v => marker_N :: object_bytes v
  end.

Definition encode (l : list SaveRecord) : list byte := flat_map encode_record l.

(** [count] block numbers from [start] on, ascending. *)
Definition zseq (start count : Z) : list Z :=
  map (fun k => start + Z.of_nat k) (seq 0 (Z.to_nat count)).

(** The fetches of the blocks [blocks], in this order. *)
Definition fetch_blocks (blocks : list Z) (st : Reader.State) : Reader.State :=
  fold_left (fun s b => Reader.fetch_block b s) blocks st.

(** What the replayer keeps true of its cursors: they are [uint32]. *)
Definition cursors_in_range (st : Reader.State) : Prop :=
  is_uint32 (Reader.record_blocknum st) /\ is_uint32 (Reader.nblocks st).

(** C4 as the design text words it: a worker that leaves the loop on the
    shutdown request leaves its save-file in place. *)
Definition stopped_worker_keeps_its_file : Prop :=
  forall (world : Reader.World) (filenum : nat) (f : SaveFile) (st : Reader.State),
    Reader.read_loop world
      (if (filenum =? 1)%nat then Reader.guc_default_database world else sf_dbname f)
      (S (length (sf_data f))) 0 (Reader.initial world) (sf_data f)
    = Reader.Terminated st ->
    Reader.file_removed (Reader.ReadBlocks world filenum f) = false.

(** The fields of an entry as C stores them. *)
Definition page_in_range (b : SavedBuffer) : Prop :=
  is_uint32 (database b) /\ is_uint32 (filenode b)
  /\ is_int32 (forknum b) /\ is_uint32 (blocknum b).

(** The tag of a valid buffer: in range, and neither the relation nor the
    fork is the sentinel the writer starts its trackers with. *)
Definition valid_page (b : SavedBuffer) : Prop :=
  page_in_range b
  /\ filenode b <> InvalidOid /\ forknum b <> InvalidForkNumber.

(** [b] is the block after [a] in the same fork of the same relation. *)
Definition next_page (a b : SavedBuffer) : bool :=
  (database b =? database a) && (filenode b =? filenode a)
  && (forknum b =? forknum a) && (blocknum b =? blocknum a + 1).

(** How many entries at the head of [rest] go on from [cur] block by block. *)
Fixpoint run_length (cur : SavedBuffer) (rest : list SavedBuffer) : nat :=
  match rest with
  | [] => O
  | tmp :: rest' => if next_page cur tmp then S (run_length tmp rest') else O
  end.

(** The records one pass of the writer's loop adds, when the relation and fork
    trackers hold [pf] and [pk] and [run] entries follow block by block. *)
Definition entry_records (pf : Oid) (pk : ForkNumber) (buf : SavedBuffer)
           (run : nat) : list SaveRecord :=
  (if filenode buf =? pf then [] else [RelRec (filenode buf)])
  ++ (if forknum buf =? (if filenode buf =? pf then pk else InvalidForkNumber)
      then [] else [ForkRec (forknum buf)])
  ++ [BlockRec (blocknum buf)]
  ++ (match run with O => [] | S _ => [RangeRec (Z.of_nat run)] end).

(** The records that list the pages [bufs] of one database, by recursion on
    the array: [covered] entries at its head are covered by the range record
    written last. *)
Fixpoint records_from (pf : Oid) (pk : ForkNumber) (covered : nat)
         (bufs : list SavedBuffer) : list SaveRecord :=
  match bufs with
  | [] => []
  | buf :: rest =>
      match covered with
      | S c => records_from pf pk c rest
      | O =>
          let run := run_length buf rest in
          entry_records pf pk buf run
          ++ records_from (filenode buf) (forknum buf) run rest
      end
  end.

(** The record stream of a save-file that lists the pages [bufs]. *)
Definition records_of (bufs : list SavedBuffer) : list SaveRecord :=
  records_from InvalidOid InvalidForkNumber 0 bufs.

(** The array cut where the database changes. *)
Fixpoint by_database (l : list SavedBuffer) : list (list SavedBuffer) :=
  match l with
  | [] => []
  | e :: l' =>
      match by_database l' with
      | (e' :: g) :: gs =>
          if database e =? database e' then (e :: e' :: g) :: gs
          else [e] :: (e' :: g) :: gs
      | _ => [[e]]
      end
  end.

(** The entries at the head of [l] that belong to database [d], and the
    others. *)
Fixpoint of_database (d : Oid) (l : list SavedBuffer) : list SavedBuffer :=
  match l with
  | e :: l' => if database e =? d then e :: of_database d l' else []
  | [] => []
  end.

Fixpoint after_database (d : Oid) (l : list SavedBuffer) : list SavedBuffer :=
  match l with
  | e :: l' => if database e =? d then after_database d l' else l
  | [] => []
  end.

(** The main loop of the writer once more, by recursion on the array: the
    entries a range record covers are passed over one by one. *)
Fixpoint save_fold (get_database_name : Oid -> string) (i covered : nat)
         (bufs : list SavedBuffer) (st : Saver.State) : Saver.State :=
  match bufs with
  | [] => st
  | buf :: rest =>
      match covered with
      | S c => save_fold get_database_name (S i) c rest st
      | O =>
          let st := Saver.loop_body get_database_name i buf rest st in
          save_fold get_database_name (S i)
                    (Z.to_nat (Saver.range_counter st)) rest st
      end
  end.

(** The save-files that list the groups [gs], numbered from [n] on; the one
    with number 1 has the empty name in its header. *)
Fixpoint files_of (get_database_name : Oid -> string) (n : nat)
         (gs : list (list SavedBuffer)) : list (nat * SaveFile) :=
  match gs with
  | [] => []
  | g :: gs' =>
      (n, mkSaveFile
            (if (n =? 1)%nat then EmptyString
             else get_database_name (database (hd (mkSavedBuffer 0 0 0 0) g)))
            (encode (records_of g)))
        :: files_of get_database_name (S n) gs'
  end.

(** A page is live in the database connected to when its relation resolves,
    its fork exists and its block is below the size of the fork; it is stale
    otherwise. *)
Definition live (world : Reader.World) (conn : string) (e : SavedBuffer) : bool :=
  let relid := Reader.GetRelOid world conn (filenode e) in
  negb (relid =? InvalidOid)
  && Reader.smgrexists world conn relid (forknum e)
  && (blocknum e
      <? to_uint32 (Reader.RelationGetNumberOfBlocksInFork world conn relid
                      (forknum e))).

(** The fetch that restores the page. *)
Definition fetch_of (world : Reader.World) (conn : string) (e : SavedBuffer)
  : Reader.Fetch :=
  Reader.mkFetch (Some (Reader.GetRelOid world conn (filenode e)))
                 (forknum e) (blocknum e).

(** The fetches that restore the live pages among [g], in the order of [g]. *)
Definition expected_fetches (world : Reader.World) (conn : string)
           (g : list SavedBuffer) : list Reader.Fetch :=
  map (fetch_of world conn) (filter (live world conn) g).

(** The replayer has read the relation record of [pf] and the fork record of
    [pk] last: what its state holds then. *)
Definition synced (world : Reader.World) (conn : string) (pf : Oid)
           (pk : ForkNumber) (st : Reader.State) : Prop :=
  Reader.record_forknum st = pk
  /\ pk <> InvalidForkNumber
  /\ is_uint32 (Reader.nblocks st)
  /\ let relid := Reader.GetRelOid world conn pf in
     if relid =? InvalidOid then Reader.skip_relation st = true
     else Reader.skip_relation st = false
          /\ Reader.rel st = Some relid
          /\ if Reader.smgrexists world conn relid pk
             then Reader.skip_fork st = false
                  /\ Reader.nblocks st
                     = to_uint32 (Reader.RelationGetNumberOfBlocksInFork
                                    world conn relid pk)
             else Reader.skip_fork st = true.

(** The state of the replayer against the trackers [pf], [pk] of the writer:
    nothing is asked before the first relation record. *)
Definition in_sync (world : Reader.World) (conn : string) (pf : Oid)
           (pk : ForkNumber) (st : Reader.State) : Prop :=
  pf = InvalidOid \/ synced world conn pf pk st.

(** The entries that follow [cur] block by block, [count] of them. *)
Definition run_after (cur : SavedBuffer) (count : nat) : list SavedBuffer :=
  map (mkSavedBuffer (database cur) (filenode cur) (forknum cur))
      (zseq (blocknum cur + 1) (Z.of_nat count)).

(** What the block readers of the files 1, 2, ... do when the files list the
    groups [gs] and no shutdown request arrives: each connects (the first to
    the default database, the others to the database of their header),
    fetches the live pages of its group and removes its file. *)
Fixpoint replays_of (world : Reader.World) (get_database_name : Oid -> string)
         (n : nat) (gs : list (list SavedBuffer)) : list Reader.Result :=
  match gs with
  | [] => []
  | g :: gs' =>
      let conn :=
        if (n =? 1)%nat then Reader.guc_default_database world
        else get_database_name (database (hd (mkSavedBuffer 0 0 0 0) g)) in
      Reader.mkResult
        (if Reader.remove_succeeds world then Reader.Completed
         else Reader.Failed Reader.remove_failed)
        conn (expected_fetches world conn g) (Reader.remove_succeeds world)
      :: replays_of world get_database_name (S n) gs'
  end.

(** Every save-file handed to a block reader. *)
Definition replay_all (world : Reader.World) (files : list (nat * SaveFile))
  : list Reader.Result :=
  map (fun nf => Reader.ReadBlocks world (fst nf) (snd nf)) files.

(** The last entry of the run of [count] entries after [cur]. *)
Definition run_end (cur : SavedBuffer) (count : nat) : SavedBuffer :=
  mkSavedBuffer (database cur) (filenode cur) (forknum cur)
                (blocknum cur + Z.of_nat count).

(** The database a block reader must be connected to for the pages of
    database [d]: the default database for the global namespace. *)
Definition connection_of (world : Reader.World)
           (get_database_name : Oid -> string) (d : Oid) : string :=
  if d =? InvalidOid then Reader.guc_default_database world
  else get_database_name d.

(** The page fetches of a list of replays, each with the database it was
    issued in. *)
Definition requests (rs : list Reader.Result) : list (string * Reader.Fetch) :=
  flat_map (fun r => map (pair (Reader.connected_to r)) (Reader.fetches r)) rs.

(** The fetches that restore the live pages among [l], each in the database
    of its page. *)
Definition restored_pages (world : Reader.World)
           (get_database_name : Oid -> string) (l : list SavedBuffer)
  : list (string * Reader.Fetch) :=
  map (fun e =>
         let conn := connection_of world get_database_name (database e) in
         (conn, fetch_of world conn e))
      (filter (fun e =>
                 live world (connection_of world get_database_name (database e)) e)
              l).

Ltac stream_norm :=
  cbn [app length encode flat_map encode_record Nat.add];
  rewrite ?app_nil_r, <- ?app_assoc;
  cbn [app].

(** A fetch the server can serve: the relation was resolved and is open, its
    fork exists, and the block lies below the size of the fork. *)
Definition fetch_in_bounds (world : Reader.World) (conn : string)
           (f : Reader.Fetch) : Prop :=
  exists relid,
    Reader.fetch_rel f = Some relid
    /\ relid <> InvalidOid
    /\ Reader.smgrexists world conn relid (Reader.fetch_forknum f) = true
    /\ 0 <= Reader.fetch_blocknum f
       < to_uint32 (Reader.RelationGetNumberOfBlocksInFork world conn relid
                      (Reader.fetch_forknum f)).

(** [nblocks] is either 0 or the size of the fork the cursors point to. *)
Definition fork_measured (world : Reader.World) (conn : string)
           (st : Reader.State) : Prop :=
  (forall relid, Reader.rel st = Some relid -> relid <> InvalidOid)
  /\ (Reader.nblocks st = 0
      \/ exists relid,
           Reader.rel st = Some relid
           /\ Reader.smgrexists world conn relid (Reader.record_forknum st) = true
           /\ Reader.nblocks st
              = to_uint32 (Reader.RelationGetNumberOfBlocksInFork world conn relid
                             (Reader.record_forknum st))).

(** What has been fetched so far could be served, and [blocks_restored]
    counts it. *)
Definition fetches_counted (world : Reader.World) (conn : string)
           (st : Reader.State) : Prop :=
  Forall (fetch_in_bounds world conn) (Reader.fetched st)
  /\ Reader.blocks_restored st
     = to_uint32 (Z.of_nat (length (Reader.fetched st))).

(** What every pass of the loop of [ReadBlocks] keeps true. *)
Definition replay_invariant (world : Reader.World) (conn : string)
           (st : Reader.State) : Prop :=
  cursors_in_range st /\ fork_measured world conn st
  /\ fetches_counted world conn st.

(** The state the loop of [ReadBlocks] was left with. *)
Definition state_at_end (e : Reader.LoopEnd) : option Reader.State :=
  match e with
  | Reader.EndOfFile st | Reader.Terminated st | Reader.Error_ _ st => Some st
  | Reader.OutOfFuel => None
  end.

(** The same server when no shutdown is requested. *)
Definition without_shutdown (world : Reader.World) : Reader.World :=
  Reader.mkWorld (Reader.guc_default_database world)
                 (Reader.SPI_execute_plan world)
                 (Reader.smgrexists world)
                 (Reader.RelationGetNumberOfBlocksInFork world)
                 (fun _ => false)
                 (Reader.remove_succeeds world)
                 (Reader.uninitialised_filenode world)
                 (Reader.uninitialised_forknum world)
                 (Reader.uninitialised_blocknum world).

(** A record that is not a relation record. *)
Definition within_relation (r : SaveRecord) : bool :=
  match r with RelRec _ => false | _ => true end.

(** A block record or a range record. *)
Definition within_fork (r : SaveRecord) : bool :=
  match r with BlockRec _ | RangeRec _ => true | _ => false end.

(** The worker [RegisterWorker] registers for an id. *)
Definition worker_of (id : Z) : Scheduler.Worker :=
  if id =? 0 then Scheduler.BufferSaver else Scheduler.BlockReader id.

(** The workers a list of ticks registered, in order. *)
Definition workers_of (ticks : list Scheduler.Tick) : list Scheduler.Worker :=
  flat_map (fun t => match Scheduler.dispatched t with
                     | Some w => [w]
                     | None => []
                     end) ticks.

(** The numbers of the save-files among the names of a directory, in the
    order of the names. *)
Definition save_file_numbers (parseSavefileName : string -> option Z)
           (names : list string) : list Z :=
  flat_map (fun d_name => match parseSavefileName d_name with
                          | Some filenum => [filenum]
                          | None => []
                          end) names.

(** The parameters in force after the reloads of a list of passes. *)
Definition reloaded (gucs : Lifecycle.GUCs) (passes : list Lifecycle.Pass)
  : Lifecycle.GUCs :=
  fold_left (fun g p => match Lifecycle.pass_sighup p with
                        | Some g' => g'
                        | None => g
                        end) passes gucs.

(** A pass in which nothing ends the loop. *)
Definition quiet (p : Lifecycle.Pass) : Prop :=
  Lifecycle.pass_postmaster_death p = false /\ Lifecycle.pass_sigterm p = false.

(** A postmaster that registers every dynamic worker. *)
Definition accepting (pm : Scheduler.Postmaster) : Prop :=
  forall id, Scheduler.RegisterDynamicBackgroundWorker pm id <> None.

(** * Properties *)

(** ** The comparator and the sort *)

Lemma SavedBufferCmp_lt_iff a b : SavedBufferCmp a b < 0 <-> key_lt a b.
Proof. unfold key_lt; split; intros H; cmp_cases; lia. Qed.

Lemma SavedBufferCmp_eq_iff a b : SavedBufferCmp a b = 0 <-> a = b.
Proof.
  split; intros H.
  - destruct a as [a1 a2 a3 a4], b as [b1 b2 b3 b4]; simpl in *.
    cmp_cases; simpl in *; try lia.
    f_equal; lia.
  - subst b. cmp_cases; lia.
Qed.

Lemma SavedBufferCmp_values a b :
  SavedBufferCmp a b = -1 \/ SavedBufferCmp a b = 0 \/ SavedBufferCmp a b = 1.
Proof. cmp_cases; lia. Qed.

Lemma SavedBufferCmp_antisym a b :
  SavedBufferCmp b a = - SavedBufferCmp a b.
Proof. cmp_cases; lia. Qed.

Lemma cmp_le_trans a b c : cmp_le a b -> cmp_le b c -> cmp_le a c.
Proof. unfold cmp_le; intros H1 H2; cmp_cases; lia. Qed.

Lemma cmp_lt_trans a b c : cmp_lt a b -> cmp_lt b c -> cmp_lt a c.
Proof. unfold cmp_lt; intros H1 H2; cmp_cases; lia. Qed.

Lemma cmp_le_total a b : cmp_le a b \/ cmp_le b a.
Proof. unfold cmp_le; cmp_cases; lia. Qed.

Lemma cmp_le_antisym a b : cmp_le a b -> cmp_le b a -> a = b.
Proof.
  unfold cmp_le; intros H1 H2. apply SavedBufferCmp_eq_iff.
  rewrite SavedBufferCmp_antisym in H2. lia.
Qed.

Lemma cmp_lt_le a b : cmp_lt a b -> cmp_le a b.
Proof. unfold cmp_lt, cmp_le; lia. Qed.

Lemma cmp_le_lt_or_eq a b : cmp_le a b -> cmp_lt a b \/ a = b.
Proof.
  unfold cmp_le, cmp_lt; intros H.
  destruct (SavedBufferCmp_values a b) as [E | [E | E]]; try lia.
  right; now apply SavedBufferCmp_eq_iff.
Qed.

Lemma qsort_insert_perm x l :
  Permutation (x :: l) (qsort_insert SavedBufferCmp x l).
Proof.
  induction l as [| y l IH]; simpl; [reflexivity |].
  destruct (SavedBufferCmp x y <=? 0); [reflexivity |].
  rewrite perm_swap. now constructor.
Qed.

Lemma pg_qsort_perm l : Permutation l (pg_qsort SavedBufferCmp l).
Proof.
  induction l as [| x l IH]; simpl; [constructor |].
  etransitivity; [| apply qsort_insert_perm]. now constructor.
Qed.

Lemma qsort_insert_sorted x l :
  StronglySorted cmp_le l ->
  StronglySorted cmp_le (qsort_insert SavedBufferCmp x l).
Proof.
  induction 1 as [| y l Hs IH Hall]; simpl.
  - repeat constructor.
  - destruct (Z.leb_spec (SavedBufferCmp x y) 0) as [Hle | Hgt].
    + constructor; [now constructor |].
      constructor; [exact Hle |].
      eapply Forall_impl; [| exact Hall].
      intros z Hz. eapply cmp_le_trans; eauto.
    + constructor; [exact IH |].
      assert (Hyx : cmp_le y x).
      { unfold cmp_le. rewrite SavedBufferCmp_antisym. lia. }
      eapply Permutation_Forall; [apply qsort_insert_perm |].
      now constructor.
Qed.

Lemma pg_qsort_sorted l : StronglySorted cmp_le (pg_qsort SavedBufferCmp l).
Proof.
  induction l as [| x l IH]; simpl; [constructor |].
  now apply qsort_insert_sorted.
Qed.

(** The sorted array is the same for every sorting algorithm. *)
Lemma sorted_permutation_unique l1 :
  forall l2, StronglySorted cmp_le l1 -> StronglySorted cmp_le l2 ->
             Permutation l1 l2 -> l1 = l2.
Proof.
  induction l1 as [| a l1 IH]; intros l2 H1 H2 HP.
  - apply Permutation_nil in HP. now subst.
  - destruct l2 as [| b l2].
    + symmetry in HP. apply Permutation_nil in HP. discriminate.
    + inversion H1 as [| ? ? Hs1 Ha]; subst.
      inversion H2 as [| ? ? Hs2 Hb]; subst.
      assert (a = b).
      { assert (Hin1 : In a (b :: l2)) by
            (eapply Permutation_in; [exact HP | now left]).
        assert (Hin2 : In b (a :: l1)) by
            (eapply Permutation_in; [symmetry; exact HP | now left]).
        destruct Hin1 as [-> | Hin1]; [reflexivity |].
        destruct Hin2 as [-> | Hin2]; [reflexivity |].
        rewrite Forall_forall in Ha, Hb.
        apply cmp_le_antisym; auto. }
      subst b. f_equal. apply IH; auto.
      eapply Permutation_cons_inv; eauto.
Qed.

Lemma sorted_nodup_strict l :
  NoDup l -> StronglySorted cmp_le l -> StronglySorted cmp_lt l.
Proof.
  induction 2 as [| a l Hs IH Hall]; constructor.
  - apply IH. now inversion H.
  - inversion H as [| ? ? Hnin Hnd]; subst.
    rewrite Forall_forall in *. intros x Hx.
    destruct (cmp_le_lt_or_eq a x (Hall x Hx)) as [Hlt | ->]; tauto.
Qed.

Lemma strict_sorted_nodup l : StronglySorted cmp_lt l -> NoDup l.
Proof.
  induction 1 as [| a l Hs IH Hall]; constructor; auto.
  intros Hin. rewrite Forall_forall in Hall. specialize (Hall a Hin).
  unfold cmp_lt in Hall.
  assert (SavedBufferCmp a a = 0) by now apply SavedBufferCmp_eq_iff.
  lia.
Qed.

Lemma pg_qsort_strict l :
  NoDup l -> StronglySorted cmp_lt (pg_qsort SavedBufferCmp l).
Proof.
  intros H. apply sorted_nodup_strict; [| apply pg_qsort_sorted].
  eapply Permutation_NoDup; [apply pg_qsort_perm | exact H].
Qed.

Lemma strict_sorted_by_key l : StronglySorted cmp_lt l -> StronglySorted key_lt l.
Proof.
  induction 1 as [| a l Hs IH Hall]; constructor; [exact IH |].
  eapply Forall_impl; [| exact Hall].
  intros b Hb. now apply SavedBufferCmp_lt_iff.
Qed.

(** ** C9: the writer is deterministic *)

(** C9.  Two scans that hold the same set of pages, each page once, are
    sorted into the same array, ascending by (database, filenode, forknum,
    blocknum), whatever sort orders them by the comparator; the writer then
    leaves the same files, byte for byte; and the comparator answers 0 only
    for two entries with the same key. *)
Theorem C9_write_determinism :
  forall (get_database_name : Oid -> string) (scan1 scan2 : list SavedBuffer),
    NoDup scan1 -> NoDup scan2 ->
    (forall p, In p scan1 <-> In p scan2) ->
    pg_qsort SavedBufferCmp scan1 = pg_qsort SavedBufferCmp scan2
    /\ StronglySorted key_lt (pg_qsort SavedBufferCmp scan1)
    /\ (forall sorted, Permutation scan1 sorted -> StronglySorted cmp_le sorted ->
                       sorted = pg_qsort SavedBufferCmp scan1)
    /\ Saver.save_files get_database_name scan1
       = Saver.save_files get_database_name scan2
    /\ (forall a b, SavedBufferCmp a b = 0 <-> a = b).
Proof.
  intros name scan1 scan2 Hnd1 Hnd2 Hsame.
  assert (HP : Permutation scan1 scan2) by now apply NoDup_Permutation.
  assert (Heq : pg_qsort SavedBufferCmp scan1 = pg_qsort SavedBufferCmp scan2).
  { apply sorted_permutation_unique; try apply pg_qsort_sorted.
    rewrite <- (pg_qsort_perm scan1), <- (pg_qsort_perm scan2). exact HP. }
  split; [| split; [| split; [| split]]].
  - exact Heq.
  - apply strict_sorted_by_key. now apply pg_qsort_strict.
  - intros sorted HPs Hss.
    apply sorted_permutation_unique; auto using pg_qsort_sorted.
    rewrite <- HPs. apply pg_qsort_perm.
  - unfold Saver.save_files, Saver.SaveBuffers. now rewrite Heq.
  - apply SavedBufferCmp_eq_iff.
Qed.

Lemma C9_write_determinism_witness :
  let name := fun _ : Oid => "db"%string in
  let scan1 := [mkSavedBuffer 5 7 0 3; mkSavedBuffer 0 42 0 10] in
  let scan2 := [mkSavedBuffer 0 42 0 10; mkSavedBuffer 5 7 0 3] in
  pg_qsort SavedBufferCmp scan1 = pg_qsort SavedBufferCmp scan2
  /\ Saver.save_files name scan1 = Saver.save_files name scan2.
Proof.
  intros name scan1 scan2.
  assert (Hnd1 : NoDup scan1).
  { repeat constructor; simpl; intuition discriminate. }
  assert (Hnd2 : NoDup scan2).
  { repeat constructor; simpl; intuition discriminate. }
  assert (Hsame : forall p, In p scan1 <-> In p scan2).
  { intros p; simpl; tauto. }
  destruct (C9_write_determinism name scan1 scan2 Hnd1 Hnd2 Hsame)
    as (H1 & _ & _ & H4 & _).
  split; [exact H1 | exact H4].
Defined.

(** ** The restore scheduler *)

Section SchedulerProperties.
Import Scheduler.

Lemma tick_empty_queue parallel pm slot :
  processOnePendingWorker parallel pm (mkState [] slot)
  = (mkState [] slot, mkTick None false false).
Proof. reflexivity. Qed.

(** C5.  With parallelism disabled: a tick that finds the worker of the slot
    started or not yet started registers nothing and changes nothing; a tick
    that registers a worker while the slot is occupied has found the worker of
    the slot stopped; and for the queue [5,6] the first tick registers 5, a
    tick that finds 5 started registers nothing, and the tick that finds 5
    stopped registers 6. *)
Theorem C5_one_worker_at_a_time :
  (forall pm st h,
      last_worker st = Some h ->
      GetBackgroundWorkerPid pm h = BGWH_STARTED
      \/ GetBackgroundWorkerPid pm h = BGWH_NOT_YET_STARTED ->
      processOnePendingWorker false pm st = (st, mkTick None false false))
  /\ (forall pm st h,
         last_worker st = Some h ->
         dispatched (snd (processOnePendingWorker false pm st)) <> None ->
         assert_false (snd (processOnePendingWorker false pm st)) = false ->
         GetBackgroundWorkerPid pm h = BGWH_STOPPED)
  /\ (forall pm1 pm2 pm3 h5 h6,
         RegisterDynamicBackgroundWorker pm1 5 = Some h5 ->
         GetBackgroundWorkerPid pm2 h5 = BGWH_STARTED ->
         GetBackgroundWorkerPid pm3 h5 = BGWH_STOPPED ->
         RegisterDynamicBackgroundWorker pm3 6 = Some h6 ->
         let st0 := mkState [5; 6] None in
         let (st1, t1) := processOnePendingWorker false pm1 st0 in
         let (st2, t2) := processOnePendingWorker false pm2 st1 in
         let (st3, t3) := processOnePendingWorker false pm3 st2 in
         (st1 = mkState [6] (Some h5) /\ dispatched t1 = Some (BlockReader 5))
         /\ (st2 = st1 /\ dispatched t2 = None)
         /\ (st3 = mkState [] (Some h6) /\ dispatched t3 = Some (BlockReader 6))).
Proof.
  split; [| split].
  - intros pm st h Hslot Hstatus.
    unfold processOnePendingWorker. rewrite Hslot.
    destruct (length (pendingWorkers st) =? 0)%nat; [reflexivity |].
    destruct Hstatus as [-> | ->]; reflexivity.
  - intros pm st h Hslot.
    unfold processOnePendingWorker. rewrite Hslot.
    destruct (length (pendingWorkers st) =? 0)%nat; simpl; [congruence |].
    destruct (GetBackgroundWorkerPid pm h); simpl; try congruence.
    unfold register_first.
    destruct (pendingWorkers st) as [| id rest]; simpl; [congruence |].
    destruct (RegisterWorker pm id _) as [[[|] h'] w]; simpl; congruence.
  - intros pm1 pm2 pm3 h5 h6 H1 H2 H3 H4.
    cbv [processOnePendingWorker register_first RegisterWorker
         pendingWorkers last_worker length Nat.eqb Z.eqb negb].
    rewrite H1. cbv [pendingWorkers last_worker length Nat.eqb].
    rewrite H2. cbv [negb pendingWorkers last_worker length Nat.eqb].
    rewrite H3. cbv [pendingWorkers last_worker Z.eqb]. rewrite H4.
    cbv [dispatched]. repeat split.
Qed.

Lemma C5_one_worker_at_a_time_witness :
  let pm1 := mkPostmaster (fun _ => BGWH_NOT_YET_STARTED) (fun _ => Some 1%nat) in
  let pm2 := mkPostmaster (fun _ => BGWH_STARTED) (fun _ => Some 2%nat) in
  let pm3 := mkPostmaster (fun _ => BGWH_STOPPED) (fun _ => Some 3%nat) in
  processOnePendingWorker false pm2 (mkState [6] (Some 1%nat))
  = (mkState [6] (Some 1%nat), mkTick None false false)
  /\ GetBackgroundWorkerPid pm3 1%nat = BGWH_STOPPED
  /\ (let st0 := mkState [5; 6] None in
      let (st1, t1) := processOnePendingWorker false pm1 st0 in
      let (st2, t2) := processOnePendingWorker false pm2 st1 in
      let (st3, t3) := processOnePendingWorker false pm3 st2 in
      (st1 = mkState [6] (Some 1%nat) /\ dispatched t1 = Some (BlockReader 5))
      /\ (st2 = st1 /\ dispatched t2 = None)
      /\ (st3 = mkState [] (Some 3%nat)
          /\ dispatched t3 = Some (BlockReader 6))).
Proof.
  intros pm1 pm2 pm3.
  destruct C5_one_worker_at_a_time as (Hwait & Honly & Hscen).
  split; [| split].
  - apply (Hwait pm2 (mkState [6] (Some 1%nat)) 1%nat); [reflexivity | now left].
  - apply (Honly pm3 (mkState [6] (Some 1%nat)) 1%nat);
      [reflexivity | simpl; discriminate | reflexivity].
  - exact (Hscen pm1 pm2 pm3 1%nat 3%nat eq_refl eq_refl eq_refl eq_refl).
Defined.

(** C6, as worded, fails: the tick that finds the worker of the slot stopped
    registers the next worker itself. *)
Lemma C6_draining_dispatches_in_the_same_tick :
  ~ draining_is_a_tick_of_its_own.
Proof.
  intros H.
  specialize (H false
                (mkPostmaster (fun _ => BGWH_STOPPED) (fun _ => Some 2%nat))
                (mkState [6] (Some 1%nat)) 1%nat).
  simpl in H.
  destruct H as [Hslot _]; [discriminate | reflexivity | reflexivity |].
  discriminate Hslot.
Qed.

(** C6, amended.  A tick that finds the queue non-empty and the worker of the
    slot stopped empties the slot and goes on, in the same call, to register
    a worker for the first pending id: when the registration succeeds the id
    leaves the queue and the slot holds what the registration returned; when
    it fails the id stays at the front of the queue, the slot stays empty and
    the failure is logged. *)
Theorem C6_stopped_worker_is_replaced_in_the_same_tick :
  forall parallel pm st h id rest,
    pendingWorkers st = id :: rest ->
    last_worker st = Some h ->
    GetBackgroundWorkerPid pm h = BGWH_STOPPED ->
    processOnePendingWorker parallel pm st
    = match RegisterWorker pm id None with
      | (true, slot, w) => (mkState rest slot, mkTick w false false)
      | (false, slot, w) => (mkState (id :: rest) slot, mkTick w false true)
      end
    /\ (forall h', id <> 0 -> RegisterDynamicBackgroundWorker pm id = Some h' ->
           processOnePendingWorker parallel pm st
           = (mkState rest (Some h'), mkTick (Some (BlockReader id)) false false))
    /\ (id <> 0 -> RegisterDynamicBackgroundWorker pm id = None ->
           processOnePendingWorker parallel pm st
           = (mkState (id :: rest) None, mkTick None false true)).
Proof.
  intros parallel pm st h id rest Hq Hslot Hstatus.
  assert (Htick : processOnePendingWorker parallel pm st
                  = match RegisterWorker pm id None with
                    | (true, slot, w) => (mkState rest slot, mkTick w false false)
                    | (false, slot, w) =>
                        (mkState (id :: rest) slot, mkTick w false true)
                    end).
  { unfold processOnePendingWorker. rewrite Hq, Hslot, Hstatus. simpl.
    unfold register_first. simpl.
    destruct (RegisterWorker pm id None) as [[[|] slot] w]; reflexivity. }
  split; [exact Htick |]. rewrite Htick. unfold RegisterWorker.
  split.
  - intros h' Hid Hreg. apply Z.eqb_neq in Hid. now rewrite Hid, Hreg.
  - intros Hid Hreg. apply Z.eqb_neq in Hid. now rewrite Hid, Hreg.
Qed.

Lemma C6_stopped_worker_is_replaced_in_the_same_tick_witness :
  processOnePendingWorker false
    (mkPostmaster (fun _ => BGWH_STOPPED) (fun _ => Some 2%nat))
    (mkState [6; 7] (Some 1%nat))
  = (mkState [7] (Some 2%nat), mkTick (Some (BlockReader 6)) false false).
Proof.
  destruct (C6_stopped_worker_is_replaced_in_the_same_tick false
              (mkPostmaster (fun _ => BGWH_STOPPED) (fun _ => Some 2%nat))
              (mkState [6; 7] (Some 1%nat)) 1%nat 6 [7]
              eq_refl eq_refl eq_refl) as (_ & Hok & _).
  apply Hok; [discriminate | reflexivity].
Defined.

End SchedulerProperties.

(** ** Bytes *)

Lemma to_uint32_small z : is_uint32 z -> to_uint32 z = z.
Proof. unfold is_uint32, to_uint32; intros H; apply Z.mod_small; lia. Qed.

Lemma to_uint32_range z : is_uint32 (to_uint32 z).
Proof. unfold is_uint32, to_uint32; apply Z.mod_pos_bound; lia. Qed.

Lemma to_int32_small z : is_int32 z -> to_int32 (to_uint32 z) = z.
Proof.
  unfold is_int32, to_int32, to_uint32; intros H.
  rewrite Zplus_mod_idemp_l. rewrite Z.mod_small; lia.
Qed.

Lemma to_int32_range z : is_int32 (to_int32 z).
Proof.
  unfold is_int32, to_int32.
  pose proof (Z.mod_pos_bound (z + 2 ^ 31) (2 ^ 32)); lia.
Qed.

Lemma le_combine_object_bytes z : le_combine (object_bytes z) = to_uint32 z.
Proof. unfold object_bytes. now rewrite le_combine_split. Qed.

Lemma length_object_bytes z : length (object_bytes z) = sizeof_word.
Proof. apply length_le_split. Qed.

Lemma fileRead_object z file eof_ok :
  fileRead sizeof_word (object_bytes z ++ file) eof_ok
  = ReadOk (object_bytes z) file.
Proof.
  unfold fileRead.
  rewrite length_app, length_object_bytes.
  replace (sizeof_word + length file <? sizeof_word)%nat with false
    by (symmetry; apply Nat.ltb_ge; lia).
  rewrite <- (length_object_bytes z) at 1 2.
  rewrite firstn_app, skipn_app, firstn_all, skipn_all, Nat.sub_diag.
  reflexivity.
Qed.

Lemma fileRead_marker m file :
  fileRead 1 (m :: file) true = ReadOk [m] file.
Proof. reflexivity. Qed.

Lemma fileRead_end eof_ok :
  fileRead 1 [] eof_ok = if eof_ok then ReadEof else ReadError.
Proof. reflexivity. Qed.

(** ** The replayer, record by record *)

Section ReaderSteps.
Import Reader.

Variable world : World.
Variable conn : string.

Lemma zseq_nil start count : count <= 0 -> zseq start count = [].
Proof.
  intros H. unfold zseq. replace (Z.to_nat count) with O by lia. reflexivity.
Qed.

Lemma zseq_cons start count :
  0 < count -> zseq start count = start :: zseq (start + 1) (count - 1).
Proof.
  intros H. unfold zseq.
  replace (Z.to_nat count) with (S (Z.to_nat (count - 1))) by lia.
  simpl. f_equal; [lia |].
  rewrite <- seq_shift, map_map. apply map_ext. intros k. lia.
Qed.

Lemma zseq_length start count : length (zseq start count) = Z.to_nat count.
Proof. unfold zseq. now rewrite length_map, length_seq. Qed.

Lemma zseq_In start count b : In b (zseq start count) <-> start <= b < start + count.
Proof.
  unfold zseq. rewrite in_map_iff. split.
  - intros (k & <- & Hk). apply in_seq in Hk. lia.
  - intros H. exists (Z.to_nat (b - start)). split; [lia |].
    apply in_seq. lia.
Qed.

Lemma fetch_blocks_nblocks bs : forall st, nblocks (fetch_blocks bs st) = nblocks st.
Proof. induction bs as [| b bs IH]; intros st; simpl; [| rewrite IH]; reflexivity. Qed.

Lemma fetch_blocks_fetched bs :
  forall st, fetched (fetch_blocks bs st)
             = fetched st ++ map (mkFetch (rel st) (record_forknum st)) bs.
Proof.
  induction bs as [| b bs IH]; intros st; simpl.
  - now rewrite app_nil_r.
  - rewrite IH. simpl. now rewrite <- app_assoc.
Qed.

Lemma fetch_blocks_fields bs :
  forall st, let st' := fetch_blocks bs st in
    record_filenode st' = record_filenode st
    /\ record_forknum st' = record_forknum st
    /\ record_blocknum st' = record_blocknum st
    /\ rel st' = rel st
    /\ skip_relation st' = skip_relation st
    /\ skip_fork st' = skip_fork st
    /\ skip_block st' = skip_block st.
Proof.
  induction bs as [| b bs IH]; intros st; simpl; [tauto |].
  destruct (IH (fetch_block b st)) as (H1 & H2 & H3 & H4 & H5 & H6 & H7).
  simpl in *. tauto.
Qed.

(** The inner loop of a range record: it fetches the blocks from [block] up
    to [last], and stops at the first block that is not below [nblocks]. *)
Lemma range_loop_spec last fuel :
  forall block st,
    0 <= block -> 0 <= nblocks st < 2 ^ 32 -> last < 2 ^ 32 ->
    (Z.to_nat (last + 1 - block) < fuel)%nat ->
    range_loop fuel block last st
    = Some (fetch_blocks (zseq block (Z.min (last + 1) (nblocks st) - block)) st).
Proof.
  induction fuel as [| fuel IH]; intros block st Hb Hn Hl Hf; [lia |].
  simpl. destruct (Z.leb_spec block last) as [Hle | Hgt].
  - destruct (Z.geb_spec block (nblocks st)) as [Hge | Hlt].
    + now rewrite zseq_nil by lia.
    + rewrite to_uint32_small by (unfold is_uint32; lia).
      rewrite IH; simpl; try lia.
      rewrite (zseq_cons block) by lia. simpl.
      do 3 f_equal. lia.
  - now rewrite zseq_nil by lia.
Qed.

Lemma read_loop_unfold fuel n st m file :
  read_loop world conn (S fuel) n st (m :: file)
  = if got_sigterm world n then Terminated st
    else match record_switch world conn m st file with
         | Some (Continue st' file') => read_loop world conn fuel (S n) st' file'
         | Some (Raise e st') => Error_ e st'
         | None => OutOfFuel
         end.
Proof. reflexivity. Qed.

Lemma read_loop_end fuel n st : read_loop world conn (S fuel) n st [] = EndOfFile st.
Proof. reflexivity. Qed.

(** A relation record. *)
Lemma relation_record_spec st v file :
  is_uint32 v ->
  exists st',
    record_switch world conn marker_r st (object_bytes v ++ file)
    = Some (Continue st' file)
    /\ record_filenode st' = v
    /\ record_forknum st' = InvalidForkNumber
    /\ record_blocknum st' = InvalidBlockNumber
    /\ nblocks st' = 0
    /\ skip_fork st' = skip_fork st
    /\ skip_block st' = skip_block st
    /\ fetched st' = fetched st
    /\ blocks_restored st' = blocks_restored st
    /\ (if GetRelOid world conn v =? InvalidOid
        then skip_relation st' = true /\ rel st' = None
        else skip_relation st' = false /\ rel st' = Some (GetRelOid world conn v)).
Proof.
  intros Hv.
  unfold record_switch. simpl Byte.eqb. cbv iota.
  unfold relation_record, read_object.
  rewrite fileRead_object, le_combine_object_bytes, to_uint32_small by exact Hv.
  simpl record_filenode.
  destruct (GetRelOid world conn v =? InvalidOid) eqn:E;
    eexists; (split; [reflexivity |]); simpl; tauto.
Qed.

(** A fork record read while a relation is open or skipped. *)
Lemma fork_record_spec st k file :
  is_int32 k ->
  (skip_relation st = false -> rel st <> None) ->
  exists st',
    record_switch world conn marker_f st (object_bytes k ++ file)
    = Some (Continue st' file)
    /\ record_filenode st' = record_filenode st
    /\ record_forknum st' = k
    /\ record_blocknum st' = InvalidBlockNumber
    /\ rel st' = rel st
    /\ skip_relation st' = skip_relation st
    /\ skip_block st' = skip_block st
    /\ fetched st' = fetched st
    /\ blocks_restored st' = blocks_restored st
    /\ 0 <= nblocks st' < 2 ^ 32
    /\ (forall r, skip_relation st = false -> rel st = Some r ->
          if smgrexists world conn r k
          then skip_fork st' = false
               /\ nblocks st'
                  = to_uint32 (RelationGetNumberOfBlocksInFork world conn r k)
          else skip_fork st' = true).
Proof.
  intros Hk Hrel.
  unfold record_switch. simpl Byte.eqb. cbv iota.
  unfold fork_record, read_object.
  rewrite fileRead_object, le_combine_object_bytes, to_int32_small by exact Hk.
  simpl skip_relation. simpl rel. simpl record_forknum.
  destruct (skip_relation st) eqn:Es.
  - eexists; split; [reflexivity |]; simpl.
    repeat split; auto; try lia; discriminate.
  - destruct (rel st) as [r |] eqn:Er; [| now destruct Hrel].
    destruct (smgrexists world conn r k) eqn:Ex; simpl;
      eexists; (split; [reflexivity |]); simpl.
    + pose proof (to_uint32_range (RelationGetNumberOfBlocksInFork world conn r k)) as Hr.
      unfold is_uint32 in Hr.
      repeat split; auto; try lia;
        intros r' _ Hr'; inversion Hr'; subst; rewrite Ex; auto.
    + repeat split; auto; try lia.
      intros r' _ Hr'; inversion Hr'; subst; now rewrite Ex.
Qed.

(** A block record. *)
Lemma block_record_spec st b file :
  is_uint32 b ->
  record_forknum st <> InvalidForkNumber ->
  record_switch world conn marker_b st (object_bytes b ++ file)
  = Some (Continue
            (if skip_relation st || skip_fork st then set_blocknum b st
             else if b >=? nblocks st
                  then set_skip_block true (set_blocknum b st)
                  else fetch_block b (set_skip_block false (set_blocknum b st)))
            file).
Proof.
  intros Hb Hk.
  unfold record_switch. simpl Byte.eqb. cbv iota.
  unfold block_record, read_object.
  apply Z.eqb_neq in Hk. rewrite Hk.
  rewrite fileRead_object, le_combine_object_bytes, to_uint32_small by exact Hb.
  simpl. destruct (skip_relation st || skip_fork st); [reflexivity |].
  destruct (b >=? nblocks st); reflexivity.
Qed.

(** A range record. *)
Lemma range_record_spec st len file :
  is_uint32 len ->
  is_uint32 (record_blocknum st) ->
  record_blocknum st <> InvalidBlockNumber ->
  record_blocknum st + len < 2 ^ 32 ->
  0 <= nblocks st < 2 ^ 32 ->
  record_switch world conn marker_N st (object_bytes len ++ file)
  = Some (Continue
            (if skip_relation st || skip_fork st || skip_block st then st
             else fetch_blocks
                    (zseq (record_blocknum st + 1)
                          (Z.min (record_blocknum st + len + 1) (nblocks st)
                           - (record_blocknum st + 1)))
                    st)
            file).
Proof.
  intros Hl Hb Hinv Hsum Hn. unfold is_uint32, InvalidBlockNumber in *.
  unfold record_switch. simpl Byte.eqb. cbv iota.
  unfold range_record.
  replace (record_blocknum st =? InvalidBlockNumber) with false
    by (symmetry; apply Z.eqb_neq; exact Hinv).
  rewrite fileRead_object, le_combine_object_bytes, to_uint32_small by exact Hl.
  destruct (skip_relation st || skip_fork st || skip_block st); [reflexivity |].
  rewrite !to_uint32_small by (unfold is_uint32; lia).
  rewrite range_loop_spec by lia.
  reflexivity.
Qed.

End ReaderSteps.

Lemma encode_length rs : length (encode rs) = (5 * length rs)%nat.
Proof.
  induction rs as [| r rs IH]; [reflexivity |].
  unfold encode in *. simpl flat_map. rewrite length_app, IH.
  destruct r; cbn [encode_record length]; rewrite length_object_bytes;
    unfold sizeof_word; lia.
Qed.

Lemma encode_cons r rs : encode (r :: rs) = encode_record r ++ encode rs.
Proof. reflexivity. Qed.

Lemma encode_app rs1 rs2 : encode (rs1 ++ rs2) = encode rs1 ++ encode rs2.
Proof. unfold encode. apply flat_map_app. Qed.

(** ** C3: what a range record makes the replayer fetch *)

Section RangeExpansion.
Import Reader.

(** A fetched block record followed by a range record. *)
Lemma block_then_range world conn fuel n st file B L :
  got_sigterm world n = false ->
  got_sigterm world (S n) = false ->
  record_forknum st <> InvalidForkNumber ->
  skip_relation st = false ->
  skip_fork st = false ->
  is_uint32 B -> is_uint32 L -> B + L < 2 ^ 32 ->
  B < nblocks st < 2 ^ 32 ->
  read_loop world conn (S (S fuel)) n st
            (encode [BlockRec B; RangeRec L] ++ file)
  = read_loop world conn fuel (S (S n))
      (fetch_blocks (zseq (B + 1) (Z.min L (nblocks st - 1 - B)))
         (fetch_block B (set_skip_block false (set_blocknum B st))))
      file.
Proof.
  intros Hs0 Hs1 Hfork Hsr Hsf HB HL Hsum Hn.
  unfold is_uint32 in HB, HL.
  rewrite encode_cons, encode_cons. cbn [encode_record encode flat_map].
  rewrite app_nil_r, <- !app_comm_cons, <- !app_assoc, <- app_comm_cons.
  rewrite read_loop_unfold, Hs0, block_record_spec by assumption.
  rewrite Hsr, Hsf. cbn [orb].
  replace (B >=? nblocks st) with false
    by (symmetry; rewrite Z.geb_leb; apply Z.leb_gt; lia).
  rewrite read_loop_unfold, Hs1.
  rewrite range_record_spec; cbn; unfold is_uint32, InvalidBlockNumber; try lia.
  rewrite Hsr, Hsf. cbn [orb].
  do 2 f_equal. f_equal. lia.
Qed.

(** C3.  When the replayer reads a block record for a block [B] that it
    fetches and then a range record of length [L] (with [B + L] a block
    number), it fetches [B] and then [B+1], [B+2], ... in this order, up to
    [B+L] or to the last block below the size of the fork, whichever comes
    first.  In particular the records r:42, f:0, b:10, N:2 in the file of
    database "db1", with relation 42 resolved and at least 13 blocks in fork 0,
    make it fetch blocks 10, 11, 12 of that relation, fork 0, and nothing
    else. *)
Theorem C3_range_expansion :
  (forall world conn fuel n st file B L,
      got_sigterm world n = false ->
      got_sigterm world (S n) = false ->
      record_forknum st <> InvalidForkNumber ->
      skip_relation st = false ->
      skip_fork st = false ->
      is_uint32 B -> is_uint32 L -> B + L < 2 ^ 32 ->
      B < nblocks st < 2 ^ 32 ->
      exists st',
        read_loop world conn (S (S fuel)) n st
                  (encode [BlockRec B; RangeRec L] ++ file)
        = read_loop world conn fuel (S (S n)) st' file
        /\ fetched st'
           = fetched st
             ++ map (mkFetch (rel st) (record_forknum st))
                    (B :: zseq (B + 1) (Z.min L (nblocks st - 1 - B)))
        /\ record_blocknum st' = B
        /\ nblocks st' = nblocks st)
  /\ (forall world filenum relid rows size,
         (forall n, (n < 4)%nat -> got_sigterm world n = false) ->
         filenum <> 1%nat ->
         SPI_execute_plan world "db1" 42 = Some relid :: rows ->
         relid <> InvalidOid ->
         smgrexists world "db1" relid 0 = true ->
         RelationGetNumberOfBlocksInFork world "db1" relid 0 = size ->
         13 <= size < 2 ^ 32 ->
         let r := ReadBlocks world filenum
                    (mkSaveFile "db1"
                       (encode [RelRec 42; ForkRec 0; BlockRec 10; RangeRec 2])) in
         connected_to r = "db1"%string
         /\ fetches r = [mkFetch (Some relid) 0 10;
                         mkFetch (Some relid) 0 11;
                         mkFetch (Some relid) 0 12]).
Proof.
  split.
  - intros world conn fuel n st file B L Hs0 Hs1 Hfork Hsr Hsf HB HL Hsum Hn.
    eexists; split; [now apply block_then_range |].
    rewrite fetch_blocks_nblocks, fetch_blocks_fetched.
    destruct (fetch_blocks_fields
                (zseq (B + 1) (Z.min L (nblocks st - 1 - B)))
                (fetch_block B (set_skip_block false (set_blocknum B st))))
      as (_ & _ & Hb & _).
    rewrite Hb. cbn. rewrite <- app_assoc. auto.
  - intros world filenum relid rows size Hsig Hnum Hrows Hrel Hex Hsize Hrange r.
    subst r. unfold ReadBlocks. cbn [sf_dbname sf_data].
    apply Nat.eqb_neq in Hnum. rewrite Hnum.
    rewrite encode_length. cbn [Nat.mul length Nat.add].
    rewrite 2 encode_cons. cbn [encode_record].
    rewrite <- !app_comm_cons.
    assert (Hget : GetRelOid world "db1" 42 = relid).
    { unfold GetRelOid. now rewrite Hrows. }
    (* r:42 *)
    rewrite read_loop_unfold, Hsig by lia.
    destruct (relation_record_spec world "db1" (initial world) 42
                (marker_f :: object_bytes 0
                   ++ encode [BlockRec 10; RangeRec 2]))
      as (st1 & E1 & _ & Hk1 & _ & _ & _ & _ & Hf1 & _ & Hrel1);
      [unfold is_uint32; lia |].
    rewrite E1. rewrite Hget in Hrel1.
    apply Z.eqb_neq in Hrel. rewrite Hrel in Hrel1. destruct Hrel1 as [Hsr1 Hr1].
    (* f:0 *)
    rewrite read_loop_unfold, Hsig by lia.
    destruct (fork_record_spec world "db1" st1 0
                (encode [BlockRec 10; RangeRec 2]))
      as (st2 & E2 & _ & Hk2 & _ & Hr2 & Hsr2 & _ & Hf2 & _ & Hn2 & Hfork2);
      [unfold is_int32; lia | rewrite Hr1; discriminate |].
    rewrite E2. specialize (Hfork2 relid Hsr1 Hr1). rewrite Hex in Hfork2.
    destruct Hfork2 as [Hsf2 Hnb2].
    rewrite Hsize, to_uint32_small in Hnb2 by (unfold is_uint32; lia).
    (* b:10, N:2 *)
    rewrite <- (app_nil_r (encode [BlockRec 10; RangeRec 2])).
    rewrite block_then_range;
      unfold is_uint32, InvalidForkNumber; try rewrite Hsig; try lia; try congruence.
    rewrite read_loop_end. unfold after_loop.
    assert (Hfetched :
              fetched (fetch_blocks (zseq (10 + 1) (Z.min 2 (nblocks st2 - 1 - 10)))
                         (fetch_block 10 (set_skip_block false (set_blocknum 10 st2))))
              = [mkFetch (Some relid) 0 10; mkFetch (Some relid) 0 11;
                 mkFetch (Some relid) 0 12]).
    { rewrite fetch_blocks_fetched. cbn.
      rewrite Hf2, Hf1, Hr2, Hr1, Hk2. cbn.
      replace (Z.min 2 (nblocks st2 - 1 - 10)) with 2 by lia.
      reflexivity. }
    destruct (remove_succeeds world); cbn [connected_to fetches];
      rewrite Hfetched; auto.
Qed.

Lemma C3_range_expansion_witness :
  let world := mkWorld "postgres" (fun _ f => [Some (f + 1000)])
                 (fun _ _ _ => true) (fun _ _ _ => 13) (fun _ => false) true 0 0 0 in
  let st := mkState 42 0 0 (Some 1042) false false false 12 0 [] in
  fetches (ReadBlocks world 2
             (mkSaveFile "db1"
                (encode [RelRec 42; ForkRec 0; BlockRec 10; RangeRec 2])))
  = [mkFetch (Some 1042) 0 10; mkFetch (Some 1042) 0 11; mkFetch (Some 1042) 0 12]
  /\ exists st',
      read_loop world "db1" 3 0 st (encode [BlockRec 10; RangeRec 5] ++ [])
      = read_loop world "db1" 1 2 st' []
      /\ fetched st' = [mkFetch (Some 1042) 0 10; mkFetch (Some 1042) 0 11].
Proof.
  intros world st.
  destruct C3_range_expansion as [Hrange Hscenario].
  split.
  - apply (Hscenario world 2%nat 1042 [] 13).
    + reflexivity.
    + discriminate.
    + reflexivity.
    + discriminate.
    + reflexivity.
    + reflexivity.
    + lia.
  - destruct (Hrange world "db1"%string 1%nat 0%nat st [] 10 5)
      as (st' & Hloop & Hfetched & _).
    + reflexivity.
    + reflexivity.
    + discriminate.
    + reflexivity.
    + reflexivity.
    + unfold is_uint32; lia.
    + unfold is_uint32; lia.
    + lia.
    + simpl; lia.
    + exists st'. split; [exact Hloop | exact Hfetched].
Defined.

End RangeExpansion.

(** ** The replayer always comes to an end *)

Section ReaderTotal.
Import Reader.

Variable world : World.
Variable conn : string.

Lemma fileRead_ok size file eof_ok got rest :
  fileRead size file eof_ok = ReadOk got rest ->
  length got = size /\ (length rest + size = length file)%nat.
Proof.
  unfold fileRead. destruct (Nat.ltb_spec (length file) size) as [Hlt | Hge].
  - destruct eof_ok; discriminate.
  - intros H; inversion H; subst.
    rewrite length_firstn, length_skipn. lia.
Qed.

Lemma le_combine_word got : length got = sizeof_word -> is_uint32 (le_combine got).
Proof.
  intros H. pose proof (le_combine_bound got) as Hb. rewrite H in Hb.
  exact Hb.
Qed.

Lemma fetch_blocks_in_range bs st :
  cursors_in_range st -> cursors_in_range (fetch_blocks bs st).
Proof.
  unfold cursors_in_range. rewrite fetch_blocks_nblocks.
  destruct (fetch_blocks_fields bs st) as (_ & _ & -> & _). auto.
Qed.

(** One record: the switch answers, keeps the cursors in range and leaves a
    file that is not longer. *)
Lemma record_switch_progress m st file :
  cursors_in_range st ->
  exists c, record_switch world conn m st file = Some c
            /\ match c with
               | Continue st' file' =>
                   cursors_in_range st' /\ (length file' <= length file)%nat
               | Raise _ _ => True
               end.
Proof.
  intros [Hb Hn]. unfold record_switch.
  destruct (Byte.eqb m marker_r); [| destruct (Byte.eqb m marker_f);
    [| destruct (Byte.eqb m marker_b); [| destruct (Byte.eqb m marker_N)]]].
  - unfold relation_record, read_object.
    destruct (fileRead sizeof_word file false) as [got rest | |] eqn:E;
      try (eexists; split; [reflexivity | exact I]).
    apply fileRead_ok in E. destruct E as [Hg Hl].
    cbn. destruct (GetRelOid world conn (le_combine got) =? InvalidOid);
      eexists; (split; [reflexivity |]); unfold cursors_in_range, is_uint32; cbn;
      unfold InvalidBlockNumber; lia.
  - unfold fork_record, read_object.
    destruct (fileRead sizeof_word file false) as [got rest | |] eqn:E;
      try (eexists; split; [reflexivity | exact I]).
    apply fileRead_ok in E. destruct E as [Hg Hl].
    cbn. destruct (skip_relation st).
    + eexists; (split; [reflexivity |]); unfold cursors_in_range, is_uint32; cbn;
        unfold InvalidBlockNumber; lia.
    + destruct (rel st) as [r |]; [| eexists; split; [reflexivity | exact I]].
      destruct (smgrexists world conn r (to_int32 (le_combine got))); cbn;
        eexists; (split; [reflexivity |]); unfold cursors_in_range; cbn;
        (split; [split; [unfold is_uint32, InvalidBlockNumber; lia |] | lia]);
        first [apply to_uint32_range | unfold is_uint32; lia].
  - unfold block_record, read_object.
    destruct (record_forknum st =? InvalidForkNumber);
      [eexists; split; [reflexivity | exact I] |].
    destruct (fileRead sizeof_word file false) as [got rest | |] eqn:E;
      try (eexists; split; [reflexivity | exact I]).
    apply fileRead_ok in E. destruct E as [Hg Hl].
    pose proof (le_combine_word got Hg) as Hw.
    cbn. destruct (skip_relation st || skip_fork st);
      [| destruct (le_combine got >=? nblocks st)];
      eexists; (split; [reflexivity |]); unfold cursors_in_range; cbn;
      (split; [split; assumption | lia]).
  - unfold range_record.
    destruct (Z.eqb_spec (record_blocknum st) InvalidBlockNumber) as [Hinv | Hinv];
      [eexists; split; [reflexivity | exact I] |].
    destruct (fileRead sizeof_word file false) as [got rest | |] eqn:E;
      try (eexists; split; [reflexivity | exact I]).
    apply fileRead_ok in E. destruct E as [Hg Hl].
    pose proof (le_combine_word got Hg) as Hw.
    destruct (skip_relation st || skip_fork st || skip_block st).
    + eexists; split; [reflexivity |]. split; [split; assumption | lia].
    + unfold is_uint32, InvalidBlockNumber in *.
      rewrite (to_uint32_small (record_blocknum st + 1)) by (unfold is_uint32; lia).
      pose proof (to_uint32_range (record_blocknum st + le_combine got)) as Hlast.
      unfold is_uint32 in Hlast.
      rewrite range_loop_spec; try lia.
      * eexists; split; [reflexivity |].
        split; [| lia]. apply fetch_blocks_in_range. split; assumption.
      * unfold to_uint32.
        destruct (Z.lt_ge_cases (record_blocknum st + le_combine got) (2 ^ 32)).
        -- rewrite Z.mod_small by lia. lia.
        -- replace (record_blocknum st + le_combine got)
             with (record_blocknum st + le_combine got - 2 ^ 32 + 1 * 2 ^ 32) by lia.
           rewrite Z_mod_plus_full, Z.mod_small by lia. lia.
  - eexists; split; [reflexivity | exact I].
Qed.

Lemma read_loop_total fuel :
  forall n st file,
    cursors_in_range st -> (length file < fuel)%nat ->
    read_loop world conn fuel n st file <> OutOfFuel.
Proof.
  induction fuel as [| fuel IH]; intros n st file Hst Hlen; [lia |].
  destruct file as [| m file]; [discriminate |].
  rewrite read_loop_unfold.
  destruct (got_sigterm world n); [discriminate |].
  destruct (record_switch_progress m st file Hst) as (c & -> & Hc).
  destruct c as [st' file' | e st']; [| discriminate].
  destruct Hc as [Hst' Hlen']. apply IH; [exact Hst' |]. simpl in Hlen. lia.
Qed.

(** The loop is left by the shutdown check only when the flag was seen. *)
Lemma read_loop_terminated fuel :
  forall n st file st',
    read_loop world conn fuel n st file = Terminated st' ->
    exists k, (n <= k)%nat /\ got_sigterm world k = true.
Proof.
  induction fuel as [| fuel IH]; intros n st file st' H; [discriminate |].
  destruct file as [| m file]; [discriminate |].
  rewrite read_loop_unfold in H.
  destruct (got_sigterm world n) eqn:Es; [now exists n |].
  destruct (record_switch world conn m st file) as [[st1 file1 | e st1] |];
    try discriminate.
  apply IH in H. destruct H as (k & Hk & Hs). exists k. split; [lia | exact Hs].
Qed.

End ReaderTotal.

Lemma initial_in_range world : cursors_in_range (Reader.initial world).
Proof.
  split; cbn; [apply to_uint32_range | unfold is_uint32; lia].
Qed.

(** [ReadBlocks] returns or raises an error: the fuel of the model is enough. *)
Lemma ReadBlocks_total world filenum f :
  Reader.exit (Reader.ReadBlocks world filenum f) <> Reader.Diverged.
Proof.
  unfold Reader.ReadBlocks.
  match goal with
  | |- context [Reader.read_loop ?w ?c ?fuel ?n ?st ?file] =>
      pose proof (read_loop_total w c fuel n st file (initial_in_range world)
                    (Nat.lt_succ_diag_r _)) as Htot;
      destruct (Reader.read_loop w c fuel n st file)
  end; try (unfold Reader.after_loop; destruct (Reader.remove_succeeds world));
    cbn; congruence.
Qed.

(** ** C4: a worker stopped by the shutdown request *)

Section ShutdownRequest.
Import Reader.

(** C4, as worded, fails.  The flag is seen at the fourth record: block 10
    has been fetched, the range after it and block 20 have not, and the
    save-file is removed all the same. *)
Lemma C4_stopped_worker_removes_its_file :
  let world := mkWorld "postgres" (fun _ f => [Some (f + 1000)])
                 (fun _ _ _ => true) (fun _ _ _ => 100)
                 (fun n => (3 <=? n)%nat) true 0 0 0 in
  let f := mkSaveFile "db1"
             (encode [RelRec 42; ForkRec 0; BlockRec 10; RangeRec 2; BlockRec 20]) in
  ReadBlocks world 2 f
  = mkResult Completed "db1" [mkFetch (Some 1042) 0 10] true
  /\ ~ stopped_worker_keeps_its_file.
Proof.
  intros world f.
  assert (Hrun : ReadBlocks world 2 f
                 = mkResult Completed "db1" [mkFetch (Some 1042) 0 10] true)
    by (vm_compute; reflexivity).
  split; [exact Hrun |].
  intros Hclaim.
  specialize (Hclaim world 2%nat f).
  rewrite Hrun in Hclaim. cbn [file_removed] in Hclaim.
  assert (Hloop : exists st,
             read_loop world "db1" (S (length (sf_data f))) 0 (initial world)
                       (sf_data f) = Terminated st)
    by (eexists; vm_compute; reflexivity).
  destruct Hloop as [st Hloop].
  specialize (Hclaim st Hloop). discriminate.
Qed.

(** C4, amended.  A worker that leaves the loop on the shutdown request (which
    happens only when the flag was seen at some record) goes through the same
    epilogue as a worker that read its file to the end: it has fetched what it
    fetched up to then, and it removes its save-file.  The save-file stays
    only when the worker exits on an error: an [ERROR] raised while reading,
    or [remove] failing. *)
Theorem C4_stopped_worker_goes_through_the_epilogue :
  forall world filenum f,
    let conn := if (filenum =? 1)%nat then guc_default_database world
                else sf_dbname f in
    let r := ReadBlocks world filenum f in
    (forall st,
        read_loop world conn (S (length (sf_data f))) 0 (initial world) (sf_data f)
        = Terminated st ->
        (exists k, got_sigterm world k = true)
        /\ fetches r = fetched st
        /\ file_removed r = remove_succeeds world
        /\ exit r = if remove_succeeds world then Completed
                    else Failed remove_failed)
    /\ (file_removed r = false -> exists e, exit r = Failed e)
    /\ (exit r = Completed -> file_removed r = true).
Proof.
  intros world filenum f conn r.
  pose proof (ReadBlocks_total world filenum f) as Htot.
  fold r in Htot. subst r. unfold ReadBlocks in *. fold conn in Htot |- *.
  split; [| split].
  - intros st Hloop. rewrite Hloop. split.
    + apply read_loop_terminated in Hloop.
      destruct Hloop as (k & _ & Hk). now exists k.
    + unfold after_loop. destruct (remove_succeeds world); cbn; auto.
  - destruct (read_loop world conn (S (length (sf_data f))) 0 (initial world)
                (sf_data f)); unfold after_loop;
      try destruct (remove_succeeds world); cbn in *; intros H;
      try discriminate; try congruence; eauto.
  - destruct (read_loop world conn (S (length (sf_data f))) 0 (initial world)
                (sf_data f)); unfold after_loop;
      try destruct (remove_succeeds world); cbn in *; intros H;
      try discriminate; congruence.
Qed.

Lemma C4_stopped_worker_goes_through_the_epilogue_witness :
  let world := mkWorld "postgres" (fun _ f => [Some (f + 1000)])
                 (fun _ _ _ => true) (fun _ _ _ => 100)
                 (fun n => (3 <=? n)%nat) true 0 0 0 in
  let f := mkSaveFile "db1"
             (encode [RelRec 42; ForkRec 0; BlockRec 10; RangeRec 2; BlockRec 20]) in
  file_removed (ReadBlocks world 2 f) = true
  /\ fetches (ReadBlocks world 2 f) = [mkFetch (Some 1042) 0 10].
Proof.
  intros world f.
  destruct (C4_stopped_worker_goes_through_the_epilogue world 2%nat f)
    as (Hstopped & _ & Hdone).
  split.
  - apply Hdone. vm_compute. reflexivity.
  - edestruct Hstopped as (_ & Hfetched & _); [vm_compute; reflexivity |].
    rewrite Hfetched. reflexivity.
Defined.

End ShutdownRequest.

(** ** C8: corrupt save-files *)

Section Corruption.
Import Reader.

(** What the replayer detects is fatal: an unknown marker, a block record
    read while the fork cursor holds [InvalidForkNumber], a range record read
    while the block cursor holds [InvalidBlockNumber]. *)
Lemma detected_corruption_raises world conn fuel n st m file :
  got_sigterm world n = false ->
  (Byte.eqb m marker_r = false -> Byte.eqb m marker_f = false ->
   Byte.eqb m marker_b = false -> Byte.eqb m marker_N = false ->
   read_loop world conn (S fuel) n st (m :: file)
   = Error_ (unexpected_marker m) st)
  /\ (record_forknum st = InvalidForkNumber ->
      read_loop world conn (S fuel) n st (marker_b :: file)
      = Error_ block_without_fork st)
  /\ (record_blocknum st = InvalidBlockNumber ->
      read_loop world conn (S fuel) n st (marker_N :: file)
      = Error_ range_without_block st).
Proof.
  intros Hs. rewrite !read_loop_unfold, Hs. unfold record_switch.
  split; [| split].
  - intros -> -> -> ->. reflexivity.
  - intros H. cbn. unfold block_record. now rewrite H.
  - intros H. cbn. unfold range_record. now rewrite H.
Qed.

(** An error raised in the loop ends the worker before [remove]. *)
Lemma error_leaves_the_file world filenum f e st :
  read_loop world
    (if (filenum =? 1)%nat then guc_default_database world else sf_dbname f)
    (S (length (sf_data f))) 0 (initial world) (sf_data f) = Error_ e st ->
  exit (ReadBlocks world filenum f) = Failed e
  /\ file_removed (ReadBlocks world filenum f) = false.
Proof. intros H. unfold ReadBlocks. rewrite H. split; reflexivity. Qed.

(** X10.  After a relation record the cursors hold the two sentinels, so
    that a block record or a range record that follows it at once is
    detected: the worker raises the error about the missing fork record, or
    about the missing block record. *)
Lemma block_after_relation_raises world conn fuel n st v tag file :
  got_sigterm world n = false -> got_sigterm world (S n) = false ->
  is_uint32 v ->
  (tag = marker_b \/ tag = marker_N) ->
  exists e st',
    read_loop world conn (S (S fuel)) n st
              (encode [RelRec v] ++ tag :: file) = Error_ e st'
    /\ (tag = marker_b -> e = block_without_fork)
    /\ (tag = marker_N -> e = range_without_block).
Proof.
  intros Hs0 Hs1 Hv Htag.
  cbn [encode flat_map encode_record]. rewrite app_nil_r, <- app_comm_cons.
  rewrite read_loop_unfold, Hs0.
  destruct (relation_record_spec world conn st v (tag :: file) Hv)
    as (st1 & E1 & _ & Hk & Hb & _).
  rewrite E1.
  destruct (detected_corruption_raises world conn fuel (S n) st1 tag file Hs1)
    as (_ & Hblock & Hrange).
  destruct Htag as [-> | ->].
  - exists block_without_fork, st1. rewrite (Hblock Hk).
    repeat split; auto. discriminate.
  - exists range_without_block, st1. rewrite (Hrange Hb).
    repeat split; auto. discriminate.
Qed.

(** C8 fails at the start of a file.  [record_forknum] and [record_blocknum]
    have no initialiser; here they hold 0 when the worker starts.  A block
    record, or a range record, that no relation record precedes is then not
    detected: the worker reads the file to its end and removes it. *)
Theorem C8_first_record_is_not_checked :
  let world := mkWorld "postgres" (fun _ f => [Some (f + 1000)])
                 (fun _ _ _ => true) (fun _ _ _ => 100)
                 (fun _ => false) true 0 0 0 in
  ReadBlocks world 2 (mkSaveFile "db1" (encode [BlockRec 5]))
  = mkResult Completed "db1" [] true
  /\ ReadBlocks world 2 (mkSaveFile "db1" (encode [RangeRec 3]))
     = mkResult Completed "db1" [] true.
Proof. split; vm_compute; reflexivity. Qed.

End Corruption.

Lemma block_after_relation_raises_witness :
  let world := Reader.mkWorld "postgres" (fun _ f => [Some (f + 1000)])
                 (fun _ _ _ => true) (fun _ _ _ => 100)
                 (fun _ => false) true 0 0 0 in
  exists st',
    Reader.read_loop world "db1" 12 0 (Reader.initial world)
      (encode [RelRec 42] ++ marker_N :: object_bytes 3)
    = Reader.Error_ Reader.range_without_block st'.
Proof.
  intros world.
  destruct (block_after_relation_raises world "db1" 10 0 (Reader.initial world)
              42 marker_N (object_bytes 3)) as (e & st' & Hloop & _ & He).
  - reflexivity.
  - reflexivity.
  - unfold is_uint32. lia.
  - now right.
  - exists st'. rewrite <- (He eq_refl). exact Hloop.
Defined.

(** ** The writer, pass by pass *)

Section WriterPasses.
Import Saver.

Variable get_database_name : Oid -> string.

Lemma scan_buffers_none BM_VALID BM_TAG_VALID descs :
  Forall (fun d => Z.land (buf_state d) BM_VALID = 0
                   \/ Z.land (buf_state d) BM_TAG_VALID = 0) descs ->
  scan_buffers BM_VALID BM_TAG_VALID descs = [].
Proof.
  induction 1 as [| d descs Hd _ IH]; [reflexivity |].
  cbn [scan_buffers]. rewrite IH.
  destruct Hd as [-> | ->]; cbn; now rewrite ?andb_false_r.
Qed.

(** C7 fails on the code.  With nothing scanned the body of the loop, which
    alone opens a file, is not run: no save-file is written, not even number
    1, and [Assert(file != NULL)] after the loop is violated. *)
Theorem C7_empty_scan_writes_no_file :
  save_files get_database_name [] = []
  /\ violated (SaveBuffers get_database_name []) = [file_not_null]
  /\ scan_buffers 1 2 [mkBufferDesc 0 5 42 0 10; mkBufferDesc 1 5 42 0 11] = []
  /\ save_files get_database_name
        (scan_buffers 1 2 [mkBufferDesc 0 5 42 0 10; mkBufferDesc 1 5 42 0 11])
     = [].
Proof. repeat split; reflexivity. Qed.

Lemma cmp_le_same_fork a b :
  cmp_le a b -> database b = database a -> filenode b = filenode a ->
  forknum b = forknum a -> blocknum a <= blocknum b.
Proof. unfold cmp_le; intros H Hd Hf Hk; cmp_cases; lia. Qed.

(** The look-ahead loop counts the run. *)
Lemma look_ahead_run_length rest :
  forall st cur c,
    prev_database st = database cur ->
    prev_filenode st = filenode cur ->
    prev_forknum st = forknum cur ->
    0 <= prev_blocknum st -> 0 <= c ->
    prev_blocknum st + c = blocknum cur ->
    Forall (fun b => is_uint32 (blocknum b)) (cur :: rest) ->
    StronglySorted cmp_le (cur :: rest) ->
    look_ahead st c rest = c + Z.of_nat (run_length cur rest).
Proof.
  induction rest as [| tmp rest IH]; intros st cur c Hd Hf Hk Hpb Hc Hcur Hr Hs;
    [simpl; lia |].
  inversion Hr as [| ? ? Hrc Hr']; subst.
  inversion Hr' as [| ? ? Hrt Hr'']; subst.
  inversion Hs as [| ? ? Hs' Hall]; subst.
  inversion Hall as [| ? ? Hle Hall']; subst.
  unfold is_uint32 in Hrc, Hrt.
  cbn [look_ahead run_length]. unfold next_page. rewrite Hd, Hf, Hk.
  replace (prev_blocknum st + c + 1) with (blocknum cur + 1) by lia.
  destruct ((database tmp =? database cur) && (filenode tmp =? filenode cur)
            && (forknum tmp =? forknum cur)) eqn:Esame; cbn [andb]; [| lia].
  apply andb_prop in Esame. destruct Esame as [Esame Ek].
  apply andb_prop in Esame. destruct Esame as [Ed Ef].
  apply Z.eqb_eq in Ed, Ef, Ek.
  pose proof (cmp_le_same_fork cur tmp Hle Ed Ef Ek) as Hblk.
  assert (Heq : (blocknum tmp =? to_uint32 (blocknum cur + 1))
                = (blocknum tmp =? blocknum cur + 1)).
  { destruct (Z.eq_dec (blocknum cur) (2 ^ 32 - 1)) as [Hmax | Hmax].
    - rewrite Hmax. replace (to_uint32 (2 ^ 32 - 1 + 1)) with 0 by reflexivity.
      transitivity false; [| symmetry]; apply Z.eqb_neq; lia.
    - rewrite to_uint32_small by (unfold is_uint32; lia). reflexivity. }
  rewrite Heq. destruct (Z.eqb_spec (blocknum tmp) (blocknum cur + 1)) as [Hn | Hn];
    [| lia].
  rewrite to_uint32_small by (unfold is_uint32; lia).
  rewrite (IH st tmp (c + 1)); try congruence; try lia; auto.
Qed.

Lemma run_length_bound cur rest : (run_length cur rest <= length rest)%nat.
Proof.
  revert cur; induction rest as [| tmp rest IH]; intros cur; simpl; [lia |].
  destruct (next_page cur tmp); [specialize (IH tmp) |]; lia.
Qed.

(** The relation and fork records of a pass. *)
Lemma mark_relation_and_fork_spec buf st id nm D :
  file st = Some (id, mkSaveFile nm D) ->
  exists pb rc,
    mark_relation_and_fork buf st
    = mkState
        (Some (id, mkSaveFile nm
                     (D ++ encode
                        ((if filenode buf =? prev_filenode st then []
                          else [RelRec (filenode buf)])
                         ++ (if forknum buf
                                =? (if filenode buf =? prev_filenode st
                                    then prev_forknum st else InvalidForkNumber)
                             then [] else [ForkRec (forknum buf)])))))
        (closed st) (database_counter st)
        (prev_database st) (filenode buf) (forknum buf) pb rc (violated st).
Proof.
  intros Hfile.
  destruct st as [f cl dc pd pf pk pb rc vi]. cbn in Hfile. subst f.
  unfold mark_relation_and_fork. cbn [prev_filenode prev_forknum].
  destruct (Z.eqb_spec (filenode buf) pf) as [Ef | Ef]; cbn [negb].
  - cbn [prev_forknum]. subst pf.
    destruct (Z.eqb_spec (forknum buf) pk) as [Ek | Ek]; cbn [negb].
    + subst pk. exists pb, rc. cbn. now rewrite app_nil_r.
    + exists InvalidBlockNumber, 0.
      unfold next_forknum, fileWrite, set_trackers. cbn.
      now rewrite app_nil_r, <- app_assoc.
  - unfold next_filenode, fileWrite, set_trackers. cbn.
    destruct (Z.eqb_spec (forknum buf) InvalidForkNumber) as [Ek | Ek];
      cbn [negb].
    + exists InvalidBlockNumber, 0. cbn. now rewrite Ek, app_nil_r, <- app_assoc.
    + exists InvalidBlockNumber, 0.
      unfold next_forknum, fileWrite, set_trackers. cbn.
      now rewrite app_nil_r, <- !app_assoc.
Qed.

(** The second half of a pass, for a file that is open on the database of the
    entry. *)
Lemma write_entry_spec buf rest st id nm D :
  file st = Some (id, mkSaveFile nm D) ->
  Forall (fun b => is_uint32 (blocknum b)) (buf :: rest) ->
  StronglySorted cmp_le (buf :: rest) ->
  prev_database st = database buf ->
  write_entry buf rest st
  = mkState
      (Some (id, mkSaveFile nm
                   (D ++ encode (entry_records (prev_filenode st) (prev_forknum st)
                                   buf (run_length buf rest)))))
      (closed st) (database_counter st)
      (database buf) (filenode buf) (forknum buf) (blocknum buf)
      (Z.of_nat (run_length buf rest)) (violated st).
Proof.
  intros Hfile Hr Hs Hd.
  assert (Hb : 0 <= blocknum buf).
  { inversion Hr as [| ? ? Hb _]; subst. unfold is_uint32 in Hb. lia. }
  unfold write_entry.
  destruct (mark_relation_and_fork_spec buf st id nm D Hfile) as (pb & rc & ->).
  rewrite Hd. unfold entry_records.
  set (hdr := (if filenode buf =? prev_filenode st then []
               else [RelRec (filenode buf)])
              ++ (if forknum buf
                     =? (if filenode buf =? prev_filenode st
                         then prev_forknum st else InvalidForkNumber)
                  then [] else [ForkRec (forknum buf)])).
  unfold write_block, fileWrite, set_trackers.
  cbn [file sf_dbname sf_data
       prev_forknum prev_database prev_filenode prev_blocknum range_counter
       closed database_counter violated].
  erewrite look_ahead_run_length with (cur := buf);
    [| reflexivity | reflexivity | reflexivity | cbn; lia | lia
     | cbn; lia | exact Hr | exact Hs].
  rewrite Z.add_0_l.
  rewrite !app_assoc. fold hdr. rewrite !encode_app.
  destruct (run_length buf rest) as [| k] eqn:Erl.
  - cbn. now rewrite !app_nil_r, <- !app_assoc.
  - replace (Z.of_nat (S k) =? 0) with false by (symmetry; apply Z.eqb_neq; lia).
    cbn [negb]. unfold write_range, fileWrite.
    cbn [file sf_dbname sf_data range_counter
         closed database_counter prev_database prev_filenode prev_forknum
         prev_blocknum violated].
    cbn [encode flat_map encode_record]. rewrite !app_nil_r, <- !app_assoc.
    reflexivity.
Qed.

(** The first half of a pass. *)
Lemma open_save_file_first buf :
  open_save_file get_database_name 0 buf initial
  = mkState (Some (1%nat, mkSaveFile EmptyString [])) [] 1
            (database buf) InvalidOid InvalidForkNumber InvalidBlockNumber 0
            (if database buf =? InvalidOid then [] else [first_buffer_is_global]).
Proof.
  unfold open_save_file, first_buffer. cbn [Nat.eqb].
  destruct (database buf =? InvalidOid); cbn; rewrite Z.eqb_refl; reflexivity.
Qed.

Lemma open_save_file_same i buf st :
  i <> O -> prev_database st = database buf ->
  open_save_file get_database_name i buf st = st.
Proof.
  intros Hi Hd. unfold open_save_file.
  apply Nat.eqb_neq in Hi. rewrite Hi, Hd, Z.eqb_refl. reflexivity.
Qed.

Lemma open_save_file_next i buf st f :
  i <> O -> prev_database st <> database buf -> file st = Some f ->
  open_save_file get_database_name i buf st
  = mkState (Some (S (database_counter st),
                   mkSaveFile (get_database_name (database buf)) []))
            (closed st ++ [f]) (S (database_counter st))
            (database buf) InvalidOid InvalidForkNumber InvalidBlockNumber 0
            (violated st).
Proof.
  intros Hi Hd Hf. unfold open_save_file.
  apply Nat.eqb_neq in Hi. rewrite Hi.
  replace (database buf =? prev_database st) with false
    by (symmetry; apply Z.eqb_neq; congruence).
  cbn [negb]. unfold next_database, fileClose. cbn [set_database_counter file].
  rewrite Hf. reflexivity.
Qed.

(** The loop with jumps and the loop that passes over covered entries. *)
Lemma save_fold_covered bufs :
  forall i c st,
    save_fold get_database_name i c bufs st
    = save_fold get_database_name (i + c) 0 (skipn c bufs) st.
Proof.
  induction bufs as [| buf rest IH]; intros i c st.
  - now rewrite skipn_nil.
  - destruct c as [| c]; [now rewrite Nat.add_0_r |].
    cbn [save_fold skipn]. rewrite IH. f_equal. lia.
Qed.

Lemma save_loop_fold fuel :
  forall i bufs st,
    (length bufs <= fuel)%nat ->
    save_loop get_database_name fuel i bufs st
    = save_fold get_database_name i 0 bufs st.
Proof.
  induction fuel as [| fuel IH]; intros i bufs st Hlen.
  - destruct bufs; [reflexivity | simpl in Hlen; lia].
  - destruct bufs as [| buf rest]; [reflexivity |].
    cbn [save_loop save_fold]. rewrite IH.
    + rewrite (save_fold_covered rest (S i)). reflexivity.
    + rewrite length_skipn. simpl in Hlen. lia.
Qed.

(** [num_buffers] passes are enough for the main loop. *)
Lemma save_loop_fuel fuel i bufs st :
  (length bufs <= fuel)%nat ->
  save_loop get_database_name fuel i bufs st
  = save_loop get_database_name (length bufs) i bufs st.
Proof. intros H. now rewrite !save_loop_fold. Qed.

(** Cutting the array by database. *)
Lemma by_database_span e l :
  by_database (e :: l)
  = (e :: of_database (database e) l)
      :: by_database (after_database (database e) l).
Proof.
  revert e; induction l as [| e' l IH]; intros e; [reflexivity |].
  change (by_database (e :: e' :: l))
    with (match by_database (e' :: l) with
          | (e'' :: g) :: gs =>
              if database e =? database e'' then (e :: e'' :: g) :: gs
              else [e] :: (e'' :: g) :: gs
          | _ => [[e]]
          end).
  rewrite (IH e'). cbn [of_database after_database].
  rewrite (Z.eqb_sym (database e') (database e)).
  destruct (Z.eqb_spec (database e) (database e')) as [E | E].
  - rewrite E. reflexivity.
  - now rewrite (IH e').
Qed.

Lemma run_length_of_database d l :
  forall cur, database cur = d ->
              run_length cur l = run_length cur (of_database d l).
Proof.
  induction l as [| tmp l IH]; intros cur Hd; [reflexivity |].
  cbn [run_length of_database].
  destruct (next_page cur tmp) eqn:En.
  - assert (Ht : database tmp = d).
    { unfold next_page in En. apply andb_prop in En. destruct En as [En _].
      apply andb_prop in En. destruct En as [En _].
      apply andb_prop in En. destruct En as [En _].
      apply Z.eqb_eq in En. congruence. }
    rewrite Ht, Z.eqb_refl. cbn [run_length]. rewrite En.
    f_equal. now apply IH.
  - destruct (database tmp =? d); [cbn [run_length]; now rewrite En | reflexivity].
Qed.

Lemma closed_fileClose_Assert c a st :
  closed (fileClose (Assert c a st)) = closed (fileClose st).
Proof.
  destruct c; [reflexivity |].
  unfold fileClose, Assert. cbn. destruct (file st); reflexivity.
Qed.

(** What the loop leaves on disk, from a pass that is not the first on. *)
Lemma save_fold_files bufs :
  forall i covered st id nm D cur,
    i <> O -> id <> O ->
    file st = Some (id, mkSaveFile nm D) ->
    database_counter st = id ->
    prev_database st = database cur ->
    prev_filenode st = filenode cur ->
    prev_forknum st = forknum cur ->
    Forall (fun b => is_uint32 (blocknum b)) bufs ->
    StronglySorted cmp_le bufs ->
    (covered <= length (of_database (database cur) bufs))%nat ->
    closed (fileClose (save_fold get_database_name i covered bufs st))
    = closed st
      ++ (id, mkSaveFile nm
                (D ++ encode (records_from (filenode cur) (forknum cur) covered
                                (of_database (database cur) bufs))))
      :: files_of get_database_name (S id)
           (by_database (after_database (database cur) bufs)).
Proof.
  induction bufs as [| buf rest IH];
    intros i covered st id nm D cur Hi Hid Hfile Hdc Hd Hf Hk Hr Hs Hcov.
  - cbn. unfold fileClose. rewrite Hfile. cbn. now rewrite app_nil_r.
  - inversion Hr as [| ? ? Hrb Hr']; subst.
    inversion Hs as [| ? ? Hs' Hall]; subst.
    destruct covered as [| c].
    + cbn [save_fold].
      destruct (Z.eqb_spec (database buf) (database cur)) as [Esame | Ediff].
      * (* the entry goes into the open file *)
        unfold loop_body.
        rewrite open_save_file_same by congruence.
        rewrite (write_entry_spec buf rest st _ nm D Hfile Hr Hs)
          by congruence.
        cbn [range_counter]. rewrite Nat2Z.id.
        erewrite (IH _ _ _ _ nm _ buf); try reflexivity; auto.
        -- cbn [closed of_database after_database records_from].
           rewrite <- Esame, Z.eqb_refl.
           cbn [records_from].
           rewrite <- (run_length_of_database (database buf) rest buf eq_refl).
           rewrite encode_app, Hf, Hk, app_assoc. reflexivity.
        -- rewrite (run_length_of_database (database buf) rest buf eq_refl).
           apply run_length_bound.
      * (* the entry opens the file of the next database *)
        unfold loop_body.
        rewrite (open_save_file_next i buf st (database_counter st, mkSaveFile nm D))
          by congruence.
        erewrite write_entry_spec; [| reflexivity | exact Hr | exact Hs | reflexivity].
        cbn [range_counter]. rewrite Nat2Z.id.
        erewrite (IH _ _ _ _ _ _ buf); try reflexivity; auto.
        -- cbn [closed of_database after_database records_from
                prev_filenode prev_forknum app].
           replace (database buf =? database cur) with false
             by (symmetry; now apply Z.eqb_neq).
           rewrite by_database_span. cbn [files_of hd encode flat_map].
           rewrite app_nil_r, <- app_assoc. cbn [app].
           replace (S (database_counter st) =? 1)%nat with false
             by (symmetry; apply Nat.eqb_neq; lia).
           unfold records_of. cbn [records_from].
           rewrite <- (run_length_of_database (database buf) rest buf eq_refl).
           rewrite encode_app. reflexivity.
        -- rewrite (run_length_of_database (database buf) rest buf eq_refl).
           apply run_length_bound.
    + (* an entry covered by the range record written last *)
      cbn [save_fold]. cbn [of_database] in Hcov |- *.
      destruct (database buf =? database cur) eqn:E; [| cbn in Hcov; lia].
      cbn [after_database records_from]. rewrite E.
      apply IH; auto. cbn in Hcov. lia.
Qed.

(** The writer, described by the records of each database: the sorted array
    is cut where the database changes, and the groups are written to the files
    1, 2, ... in this order, the first under the empty name. *)
Theorem SaveBuffers_files scanned :
  Forall page_in_range scanned ->
  save_files get_database_name scanned
  = files_of get_database_name 1 (by_database (pg_qsort SavedBufferCmp scanned)).
Proof.
  intros Hrange.
  assert (Hr : Forall (fun b => is_uint32 (blocknum b))
                      (pg_qsort SavedBufferCmp scanned)).
  { eapply Permutation_Forall; [apply pg_qsort_perm |].
    eapply Forall_impl; [| exact Hrange]. intros b Hb. apply Hb. }
  pose proof (pg_qsort_sorted scanned) as Hs.
  unfold save_files, SaveBuffers.
  destruct (pg_qsort SavedBufferCmp scanned) as [| buf rest]; [reflexivity |].
  rewrite closed_fileClose_Assert, save_loop_fold by lia.
  cbn [save_fold]. unfold loop_body.
  rewrite open_save_file_first.
  erewrite write_entry_spec; [| reflexivity | exact Hr | exact Hs | reflexivity].
  cbn [range_counter]. rewrite Nat2Z.id.
  inversion Hr as [| ? ? _ Hr']; subst.
  inversion Hs as [| ? ? Hs' _]; subst.
  erewrite (save_fold_files rest _ _ _ _ _ _ buf); try reflexivity; auto.
  - rewrite by_database_span. cbn [closed files_of app Nat.eqb].
    unfold records_of. cbn [records_from prev_filenode prev_forknum].
    rewrite <- (run_length_of_database (database buf) rest buf eq_refl).
    rewrite encode_app. reflexivity.
  - rewrite (run_length_of_database (database buf) rest buf eq_refl).
    apply run_length_bound.
Qed.

End WriterPasses.

(** ** Replaying what the writer wrote *)

Section Replay.
Import Reader.

Variable world : World.
Variable conn : string.
Hypothesis no_sigterm : forall n, got_sigterm world n = false.

Lemma run_length_firstn rest :
  forall cur,
    firstn (run_length cur rest) rest = run_after cur (run_length cur rest).
Proof.
  induction rest as [| tmp rest IH]; intros cur; [reflexivity |].
  cbn [run_length]. destruct (next_page cur tmp) eqn:En; [| reflexivity].
  unfold next_page in En.
  apply andb_prop in En. destruct En as [En Eb].
  apply andb_prop in En. destruct En as [En Ek].
  apply andb_prop in En. destruct En as [Ed Ef].
  apply Z.eqb_eq in Ed, Ef, Ek, Eb.
  cbn [firstn]. rewrite IH. unfold run_after.
  rewrite (zseq_cons (blocknum cur + 1)) by lia. cbn [map].
  rewrite Ed, Ef, Ek, Eb.
  replace (Z.of_nat (S (run_length tmp rest)) - 1)
    with (Z.of_nat (run_length tmp rest)) by lia.
  f_equal. destruct tmp; cbn in *; congruence.
Qed.

Lemma run_after_in_range cur rest :
  Forall (fun b => is_uint32 (blocknum b)) (cur :: rest) ->
  blocknum cur + Z.of_nat (run_length cur rest) < 2 ^ 32.
Proof.
  revert cur; induction rest as [| tmp rest IH]; intros cur Hr.
  - inversion Hr as [| ? ? Hc _]; subst. unfold is_uint32 in Hc. cbn. lia.
  - inversion Hr as [| ? ? Hc Hr']; subst. unfold is_uint32 in Hc.
    cbn [run_length]. destruct (next_page cur tmp) eqn:En; [| cbn; lia].
    specialize (IH tmp Hr').
    unfold next_page in En. apply andb_prop in En. destruct En as [_ Eb].
    apply Z.eqb_eq in Eb. lia.
Qed.

(** The live blocks of a run: those below the size of the fork. *)
Lemma filter_zseq_below size count :
  forall start,
    filter (fun b => b <? size) (zseq start (Z.of_nat count))
    = zseq start (Z.min (Z.of_nat count) (size - start)).
Proof.
  induction count as [| count IH]; intros start.
  - rewrite !zseq_nil by lia. reflexivity.
  - rewrite (zseq_cons start) by lia.
    replace (Z.of_nat (S count) - 1) with (Z.of_nat count) by lia.
    cbn [filter]. rewrite IH.
    destruct (Z.ltb_spec start size) as [Hlt | Hge].
    + rewrite (zseq_cons start (Z.min (Z.of_nat (S count)) (size - start))) by lia.
      do 2 f_equal. lia.
    + rewrite !zseq_nil by lia. reflexivity.
Qed.

Lemma expected_fetches_app g1 g2 :
  expected_fetches world conn (g1 ++ g2)
  = expected_fetches world conn g1 ++ expected_fetches world conn g2.
Proof. unfold expected_fetches. now rewrite filter_app, map_app. Qed.

(** The fetches for an entry and the run after it. *)
Lemma expected_fetches_run cur count :
  expected_fetches world conn (cur :: run_after cur count)
  = let relid := GetRelOid world conn (filenode cur) in
    if negb (relid =? InvalidOid) && smgrexists world conn relid (forknum cur)
    then map (mkFetch (Some relid) (forknum cur))
             (zseq (blocknum cur)
                (Z.min (Z.of_nat count + 1)
                   (to_uint32 (RelationGetNumberOfBlocksInFork world conn relid
                                 (forknum cur)) - blocknum cur)))
    else [].
Proof.
  cbv zeta.
  set (relid := GetRelOid world conn (filenode cur)).
  set (size := to_uint32 (RelationGetNumberOfBlocksInFork world conn relid
                            (forknum cur))).
  assert (Hrun : cur :: run_after cur count
                 = map (mkSavedBuffer (database cur) (filenode cur) (forknum cur))
                       (zseq (blocknum cur) (Z.of_nat (S count)))).
  { rewrite (zseq_cons (blocknum cur)) by lia. cbn [map].
    replace (Z.of_nat (S count) - 1) with (Z.of_nat count) by lia.
    destruct cur; reflexivity. }
  rewrite Hrun. unfold expected_fetches.
  set (base := negb (relid =? InvalidOid)
               && smgrexists world conn relid (forknum cur)).
  assert (Hfilter :
            forall bs,
              map (fetch_of world conn)
                  (filter (live world conn)
                     (map (mkSavedBuffer (database cur) (filenode cur) (forknum cur)) bs))
              = if base
                then map (mkFetch (Some relid) (forknum cur))
                         (filter (fun b => b <? size) bs)
                else []).
  { induction bs as [| b bs IH]; [now destruct base |].
    cbn [map filter]. unfold live at 1. cbn [filenode forknum blocknum].
    fold relid. fold base. fold size.
    destruct base; cbn [andb].
    - destruct (b <? size); cbn [map]; rewrite IH; reflexivity.
    - exact IH. }
  rewrite Hfilter. destruct base; [| reflexivity].
  rewrite filter_zseq_below. do 2 f_equal. lia.
Qed.

Lemma synced_facts pf pk st :
  synced world conn pf pk st ->
  let relid := GetRelOid world conn pf in
  let base := negb (relid =? InvalidOid) && smgrexists world conn relid pk in
  record_forknum st = pk
  /\ pk <> InvalidForkNumber
  /\ is_uint32 (nblocks st)
  /\ skip_relation st || skip_fork st = negb base
  /\ (base = true ->
      rel st = Some relid
      /\ nblocks st
         = to_uint32 (RelationGetNumberOfBlocksInFork world conn relid pk)).
Proof.
  intros (Hk & Hkv & Hn & Hrel). cbv zeta in *.
  repeat (split; [assumption |]).
  destruct (GetRelOid world conn pf =? InvalidOid); cbn [negb andb].
  - rewrite Hrel. split; [reflexivity | discriminate].
  - destruct Hrel as (Hsr & Hr & Hfork). rewrite Hsr. cbn [orb].
    destruct (smgrexists world conn (GetRelOid world conn pf) pk).
    + destruct Hfork as [Hsf Hnb]. rewrite Hsf. auto.
    + rewrite Hfork. split; [reflexivity | discriminate].
Qed.

Lemma synced_ext pf pk st st' :
  record_forknum st' = record_forknum st ->
  rel st' = rel st ->
  skip_relation st' = skip_relation st ->
  skip_fork st' = skip_fork st ->
  nblocks st' = nblocks st ->
  synced world conn pf pk st -> synced world conn pf pk st'.
Proof.
  unfold synced. intros -> -> -> -> ->. auto.
Qed.

(** The relation and fork records of a pass bring the replayer on the
    relation and the fork of the entry. *)
Lemma replay_marks pf pk buf st fuel n file :
  valid_page buf ->
  in_sync world conn pf pk st ->
  let marks := (if filenode buf =? pf then [] else [RelRec (filenode buf)])
               ++ (if forknum buf
                      =? (if filenode buf =? pf then pk else InvalidForkNumber)
                   then [] else [ForkRec (forknum buf)]) in
  exists st',
    read_loop world conn (length marks + fuel) n st (encode marks ++ file)
    = read_loop world conn fuel (n + length marks) st' file
    /\ synced world conn (filenode buf) (forknum buf) st'
    /\ fetched st' = fetched st.
Proof.
  intros ((Hd & Hf & Hk & Hb) & Hfv & Hkv) Hsync. cbv zeta.
  destruct (Z.eqb_spec (filenode buf) pf) as [Ef | Ef].
  - (* the relation of the entry is the one read last *)
    destruct Hsync as [Hpf | Hsync]; [congruence |]. subst pf.
    destruct (Z.eqb_spec (forknum buf) pk) as [Ek | Ek].
    + subst pk. exists st. cbn. rewrite Nat.add_0_r. auto.
    + destruct (synced_facts _ _ _ Hsync) as (Hrk & _ & Hn & _ & _).
      destruct Hsync as (_ & _ & _ & Hrel). cbv zeta in Hrel.
      destruct (fork_record_spec world conn st (forknum buf) file Hk)
        as (st2 & E2 & _ & Hk2 & _ & Hr2 & Hsr2 & _ & Hf2 & _ & Hn2 & Hfork2).
      { intros Hsr.
        destruct (GetRelOid world conn (filenode buf) =? InvalidOid);
          [congruence | destruct Hrel as (_ & -> & _); discriminate]. }
      exists st2. stream_norm.
      rewrite read_loop_unfold, no_sigterm, E2.
      split; [f_equal; lia |]. split; [| exact Hf2].
      unfold synced. split; [exact Hk2 |]. split; [exact Hkv |].
      split; [exact Hn2 |]. cbv zeta.
      destruct (GetRelOid world conn (filenode buf) =? InvalidOid);
        [congruence |].
      destruct Hrel as (Hsr & Hr & _).
      split; [congruence |]. split; [congruence |].
      exact (Hfork2 _ Hsr Hr).
  - (* a relation record, then a fork record *)
    replace (forknum buf =? InvalidForkNumber) with false
      by (symmetry; now apply Z.eqb_neq).
    stream_norm.
    destruct (relation_record_spec world conn st (filenode buf)
                (marker_f :: object_bytes (forknum buf) ++ file) Hf)
      as (st1 & E1 & _ & _ & _ & _ & _ & _ & Hf1 & _ & Hrel1).
    rewrite read_loop_unfold, no_sigterm, E1.
    destruct (fork_record_spec world conn st1 (forknum buf) file Hk)
      as (st2 & E2 & _ & Hk2 & _ & Hr2 & Hsr2 & _ & Hf2 & _ & Hn2 & Hfork2).
    { intros Hsr.
      destruct (GetRelOid world conn (filenode buf) =? InvalidOid);
        [destruct Hrel1; congruence | destruct Hrel1 as [_ ->]; discriminate]. }
    rewrite read_loop_unfold, no_sigterm, E2.
    exists st2. split; [f_equal; lia |]. split; [| congruence].
    unfold synced. split; [exact Hk2 |]. split; [exact Hkv |].
    split; [exact Hn2 |]. cbv zeta.
    destruct (GetRelOid world conn (filenode buf) =? InvalidOid).
    + destruct Hrel1; congruence.
    + destruct Hrel1 as [Hsr Hr].
      split; [congruence |]. split; [congruence |].
      exact (Hfork2 _ Hsr Hr).
Qed.

(** The block record of a pass and the range record after it make the
    replayer fetch the live pages among the entry and its run. *)
Lemma replay_block_and_range buf run st fuel n file :
  valid_page buf ->
  blocknum buf + Z.of_nat run < 2 ^ 32 ->
  synced world conn (filenode buf) (forknum buf) st ->
  let recs := [BlockRec (blocknum buf)]
              ++ match run with O => [] | S _ => [RangeRec (Z.of_nat run)] end in
  exists st',
    read_loop world conn (length recs + fuel) n st (encode recs ++ file)
    = read_loop world conn fuel (n + length recs) st' file
    /\ synced world conn (filenode buf) (forknum buf) st'
    /\ fetched st'
       = fetched st ++ expected_fetches world conn (buf :: run_after buf run).
Proof.
  intros ((Hd & Hf & Hk & Hb) & Hfv & Hkv) Hsum Hsync. cbv zeta.
  rewrite expected_fetches_run. cbv zeta.
  destruct (synced_facts _ _ _ Hsync) as (Hrk & _ & Hn & Hskip & Hbase).
  cbv zeta in Hskip, Hbase.
  set (relid := GetRelOid world conn (filenode buf)) in *.
  set (size := to_uint32 (RelationGetNumberOfBlocksInFork world conn relid
                            (forknum buf))) in *.
  set (base := negb (relid =? InvalidOid)
               && smgrexists world conn relid (forknum buf)) in *.
  unfold is_uint32 in Hb, Hn.
  assert (Hblock :
            forall tail,
              record_switch world conn marker_b st
                            (object_bytes (blocknum buf) ++ tail)
              = Some (Continue
                        (if skip_relation st || skip_fork st
                         then set_blocknum (blocknum buf) st
                         else if blocknum buf >=? nblocks st
                              then set_skip_block true
                                     (set_blocknum (blocknum buf) st)
                              else fetch_block (blocknum buf)
                                     (set_skip_block false
                                        (set_blocknum (blocknum buf) st)))
                        tail)).
  { intros tail. apply block_record_spec; [exact Hb | congruence]. }
  set (st_b := if skip_relation st || skip_fork st
               then set_blocknum (blocknum buf) st
               else if blocknum buf >=? nblocks st
                    then set_skip_block true (set_blocknum (blocknum buf) st)
                    else fetch_block (blocknum buf)
                           (set_skip_block false
                              (set_blocknum (blocknum buf) st))) in *.
  assert (Hst_b : synced world conn (filenode buf) (forknum buf) st_b
                  /\ record_blocknum st_b = blocknum buf
                  /\ nblocks st_b = nblocks st
                  /\ skip_relation st_b = skip_relation st
                  /\ skip_fork st_b = skip_fork st
                  /\ rel st_b = rel st
                  /\ record_forknum st_b = record_forknum st).
  { subst st_b.
    destruct (skip_relation st || skip_fork st);
      [| destruct (blocknum buf >=? nblocks st)];
      (split; [eapply synced_ext; [.. | exact Hsync]; reflexivity |]);
      cbn; repeat split. }
  destruct Hst_b as (Hsync_b & Hb_b & Hn_b & Hsr_b & Hsf_b & Hr_b & Hk_b).
  destruct run as [| k].
  - (* a block record alone *)
    stream_norm. rewrite read_loop_unfold, no_sigterm, Hblock.
    exists st_b.
    split; [f_equal; lia |]. split; [exact Hsync_b |].
    subst st_b. rewrite Hskip.
    destruct base; cbn [negb].
    + destruct (Hbase eq_refl) as [Hrel Hnb]. rewrite Hnb.
      destruct (Z.geb_spec (blocknum buf) size) as [Hge | Hlt].
      * rewrite zseq_nil by lia. cbn. now rewrite app_nil_r.
      * rewrite (zseq_cons (blocknum buf)) by lia.
        rewrite zseq_nil by lia. cbn. now rewrite Hrel, Hrk.
    + cbn. now rewrite app_nil_r.
  - (* a block record and a range record *)
    stream_norm. rewrite read_loop_unfold, no_sigterm, Hblock.
    rewrite read_loop_unfold, no_sigterm.
    rewrite range_record_spec;
      unfold is_uint32, InvalidBlockNumber; rewrite ?Hb_b, ?Hn_b; try lia.
    eexists. split; [f_equal; lia |].
    rewrite Hsr_b, Hsf_b, Hskip.
    destruct base; cbn [negb orb].
    + destruct (Hbase eq_refl) as [Hrel Hnb].
      assert (Hor : skip_relation st || skip_fork st = false) by exact Hskip.
      subst st_b. rewrite Hor in *. rewrite Hnb in *.
      destruct (Z.geb_spec (blocknum buf) size) as [Hge | Hlt].
      * cbn [skip_block set_skip_block]. split; [exact Hsync_b |].
        rewrite zseq_nil by lia. cbn. now rewrite app_nil_r.
      * cbn [skip_block set_skip_block fetch_block].
        split.
        -- match goal with
           | |- synced _ _ _ _ (fetch_blocks ?bs ?s) =>
               destruct (fetch_blocks_fields bs s)
                 as (_ & Hx2 & _ & Hx4 & Hx5 & Hx6 & _);
               pose proof (fetch_blocks_nblocks bs s) as Hx8
           end.
           eapply synced_ext; [.. | exact Hsync].
           ++ rewrite Hx2. reflexivity.
           ++ rewrite Hx4. reflexivity.
           ++ rewrite Hx5. reflexivity.
           ++ rewrite Hx6. reflexivity.
           ++ rewrite Hx8. reflexivity.
        -- rewrite fetch_blocks_fetched. cbn.
           rewrite (zseq_cons (blocknum buf)) by lia.
           rewrite <- app_assoc. cbn. rewrite Hrel, Hrk.
           do 4 f_equal. lia.
    + split; [exact Hsync_b |]. subst st_b. rewrite Hskip. cbn.
      now rewrite app_nil_r.
Qed.

(** The records of the pages of one database, replayed. *)
Lemma replay_records_from g :
  forall covered pf pk st fuel n file,
    Forall valid_page g ->
    in_sync world conn pf pk st ->
    exists st',
      read_loop world conn (length (records_from pf pk covered g) + fuel) n st
                (encode (records_from pf pk covered g) ++ file)
      = read_loop world conn fuel (n + length (records_from pf pk covered g))
                  st' file
      /\ fetched st'
         = fetched st ++ expected_fetches world conn (skipn covered g).
Proof.
  induction g as [| buf rest IH]; intros covered pf pk st fuel n file Hv Hsync.
  - exists st. rewrite skipn_nil. cbn. rewrite Nat.add_0_r, app_nil_r. auto.
  - inversion Hv as [| ? ? Hvb Hv']; subst.
    destruct covered as [| c]; [| now apply IH].
    cbn [records_from skipn].
    set (run := run_length buf rest).
    unfold entry_records. rewrite (app_assoc _ _ (_ ++ _)).
    set (marks := (if filenode buf =? pf then [] else [RelRec (filenode buf)])
                  ++ (if forknum buf
                         =? (if filenode buf =? pf then pk else InvalidForkNumber)
                      then [] else [ForkRec (forknum buf)])).
    set (block := [BlockRec (blocknum buf)]
                  ++ match run with O => [] | S _ => [RangeRec (Z.of_nat run)] end).
    set (tail := records_from (filenode buf) (forknum buf) run rest).
    rewrite !encode_app, !length_app, <- !app_assoc, <- !Nat.add_assoc.
    destruct (replay_marks pf pk buf st
                (length block + (length tail + fuel))%nat n
                (encode block ++ encode tail ++ file) Hvb Hsync)
      as (st1 & E1 & Hsync1 & Hf1).
    fold marks in E1. rewrite E1.
    assert (Hsum : blocknum buf + Z.of_nat run < 2 ^ 32).
    { apply run_after_in_range.
      eapply Forall_impl; [| exact Hv]. intros b Hb. apply Hb. }
    destruct (replay_block_and_range buf run st1 (length tail + fuel)%nat
                (n + length marks)%nat (encode tail ++ file) Hvb Hsum Hsync1)
      as (st2 & E2 & Hsync2 & Hf2).
    fold block in E2. rewrite E2.
    destruct (IH run (filenode buf) (forknum buf) st2 fuel
                (n + length marks + length block)%nat file Hv'
                (or_intror Hsync2))
      as (st3 & E3 & Hf3).
    fold tail in E3. rewrite E3.
    exists st3. split; [f_equal; lia |].
    rewrite Hf3, Hf2, Hf1, <- app_assoc, <- expected_fetches_app.
    unfold run. rewrite <- run_length_firstn.
    rewrite <- app_comm_cons, firstn_skipn. reflexivity.
Qed.

End Replay.

(** A block reader on the save-file that lists the pages [g] of one database:
    it reads the file to its end, fetches the live pages among [g] in the
    order of [g], and removes the file. *)
Theorem replay_of_group world filenum name g :
  (forall n, Reader.got_sigterm world n = false) ->
  Forall valid_page g ->
  let conn := if (filenum =? 1)%nat then Reader.guc_default_database world
              else name in
  Reader.ReadBlocks world filenum (mkSaveFile name (encode (records_of g)))
  = Reader.mkResult
      (if Reader.remove_succeeds world then Reader.Completed
       else Reader.Failed Reader.remove_failed)
      conn (expected_fetches world conn g) (Reader.remove_succeeds world).
Proof.
  intros Hsig Hv conn. unfold Reader.ReadBlocks. cbn [sf_data sf_dbname].
  fold conn. rewrite encode_length. unfold records_of.
  set (recs := records_from InvalidOid InvalidForkNumber 0 g).
  replace (S (5 * length recs)) with (length recs + S (4 * length recs))%nat
    by lia.
  rewrite <- (app_nil_r (encode recs)).
  destruct (replay_records_from world conn Hsig g 0 InvalidOid InvalidForkNumber
              (Reader.initial world) (S (4 * length recs)) 0 []
              Hv (or_introl eq_refl))
    as (st' & E & Hf).
  fold recs in E. rewrite E. cbn [Reader.read_loop fileRead length Nat.ltb Nat.leb].
  unfold Reader.after_loop. rewrite Hf. cbn [skipn Reader.fetched Reader.initial app].
  destruct (Reader.remove_succeeds world); reflexivity.
Qed.

(** ** Writing and then replaying *)

Lemma of_database_Forall (P : SavedBuffer -> Prop) d l :
  Forall P l -> Forall P (of_database d l).
Proof.
  induction 1 as [| e l He Hl IH]; cbn; [constructor |].
  destruct (database e =? d); constructor; auto.
Qed.

Lemma after_database_Forall (P : SavedBuffer -> Prop) d l :
  Forall P l -> Forall P (after_database d l).
Proof.
  induction 1 as [| e l He Hl IH]; cbn; [constructor |].
  destruct (database e =? d); [exact IH | now constructor].
Qed.

Lemma after_database_length d l : (length (after_database d l) <= length l)%nat.
Proof.
  induction l as [| e l IH]; cbn; [lia |].
  destruct (database e =? d); cbn; lia.
Qed.

Lemma of_after_database d l : of_database d l ++ after_database d l = l.
Proof.
  induction l as [| e l IH]; cbn; [reflexivity |].
  destruct (database e =? d); cbn; [now rewrite IH | reflexivity].
Qed.

Lemma by_database_Forall (P : SavedBuffer -> Prop) l :
  Forall P l -> Forall (Forall P) (by_database l).
Proof.
  remember (length l) as n eqn:Hn.
  revert l Hn. induction n as [n IH] using lt_wf_ind. intros l Hn Hl.
  destruct l as [| e l]; [constructor |].
  rewrite by_database_span. inversion Hl as [| ? ? He Hl']; subst.
  constructor.
  - constructor; [exact He | now apply of_database_Forall].
  - eapply IH; [| reflexivity | now apply after_database_Forall].
    pose proof (after_database_length (database e) l). cbn. lia.
Qed.

Lemma replay_files_of world name gs :
  (forall n, Reader.got_sigterm world n = false) ->
  Forall (Forall valid_page) gs ->
  forall n,
    replay_all world (files_of name n gs) = replays_of world name n gs.
Proof.
  intros Hsig. induction 1 as [| g gs Hg Hgs IH]; intros n; [reflexivity |].
  cbn [files_of replays_of replay_all map fst snd].
  rewrite replay_of_group by assumption.
  fold (replay_all world (files_of name (S n) gs)). rewrite IH.
  destruct (n =? 1)%nat; reflexivity.
Qed.

(** The save-files of a scan, replayed: file by file, the block readers fetch
    the live pages of the databases of the scan, those of the first database
    under the connection to the default database. *)
Theorem replay_of_saved_files world name scanned :
  (forall n, Reader.got_sigterm world n = false) ->
  Forall valid_page scanned ->
  replay_all world (Saver.save_files name scanned)
  = replays_of world name 1 (by_database (pg_qsort SavedBufferCmp scanned)).
Proof.
  intros Hsig Hv.
  rewrite SaveBuffers_files
    by (eapply Forall_impl; [| exact Hv]; intros b Hb; apply Hb).
  apply replay_files_of; [exact Hsig |].
  apply by_database_Forall.
  eapply Permutation_Forall; [apply pg_qsort_perm | exact Hv].
Qed.

(** ** C10 and C1: the first database goes into file 1 *)

Section FirstDatabase.
Import Saver.

Variable get_database_name : Oid -> string.

Lemma violated_fileWrite bytes st : violated (fileWrite bytes st) = violated st.
Proof. unfold fileWrite. destruct (file st) as [[path f] |]; reflexivity. Qed.

Lemma violated_mark_relation_and_fork buf st :
  violated (mark_relation_and_fork buf st) = violated st.
Proof.
  unfold mark_relation_and_fork.
  assert (Hr : violated (if negb (filenode buf =? prev_filenode st)
                         then next_filenode buf st else st) = violated st).
  { destruct (negb (filenode buf =? prev_filenode st)); [| reflexivity].
    unfold next_filenode. cbn [set_trackers violated].
    now rewrite !violated_fileWrite. }
  destruct (negb (forknum buf =? _)); [| exact Hr].
  unfold next_forknum. cbn [set_trackers violated].
  now rewrite !violated_fileWrite.
Qed.

Lemma violated_write_entry buf rest st :
  violated (write_entry buf rest st) = violated st.
Proof.
  unfold write_entry.
  match goal with
  | |- violated (if ?c then write_range ?s else ?s) = _ =>
      assert (Hs : violated s = violated st);
      [| destruct c; [unfold write_range; now rewrite !violated_fileWrite
                     | exact Hs]]
  end.
  cbn [set_trackers violated]. unfold write_block.
  cbn [set_trackers violated].
  now rewrite !violated_fileWrite, violated_mark_relation_and_fork.
Qed.

Lemma violated_loop_body i buf rest st :
  i <> O ->
  violated (loop_body get_database_name i buf rest st) = violated st.
Proof.
  intros Hi. unfold loop_body. rewrite violated_write_entry.
  unfold open_save_file. apply Nat.eqb_neq in Hi. rewrite Hi.
  destruct (negb (database buf =? prev_database st)); [| reflexivity].
  unfold next_database, fileClose, fileOpen, set_database_counter, set_trackers.
  cbn. destruct (file st); reflexivity.
Qed.

Lemma violated_save_fold bufs :
  forall i covered st,
    i <> O ->
    violated (save_fold get_database_name i covered bufs st) = violated st.
Proof.
  induction bufs as [| buf rest IH]; intros i covered st Hi; [reflexivity |].
  destruct covered as [| c]; cbn [save_fold].
  - rewrite IH by lia. now apply violated_loop_body.
  - now apply IH.
Qed.

(** The assertion on the first buffer is violated as soon as the first entry
    of the sorted array is not a page of the global namespace. *)
Lemma first_buffer_assertion scanned first rest :
  pg_qsort SavedBufferCmp scanned = first :: rest ->
  database first <> InvalidOid ->
  In first_buffer_is_global (violated (SaveBuffers get_database_name scanned)).
Proof.
  intros Hsorted Hdb. unfold SaveBuffers. rewrite Hsorted.
  rewrite save_loop_fold by lia. cbn [save_fold].
  set (st1 := loop_body get_database_name 0 first rest initial).
  assert (Hv1 : violated st1 = [first_buffer_is_global]).
  { unfold st1, loop_body. rewrite violated_write_entry, open_save_file_first.
    cbn. apply Z.eqb_neq in Hdb. now rewrite Hdb. }
  set (st2 := save_fold get_database_name 1 _ rest st1).
  assert (Hv2 : violated st2 = [first_buffer_is_global]).
  { unfold st2. rewrite violated_save_fold by lia. exact Hv1. }
  unfold fileClose, Assert.
  clearbody st2.
  destruct (file st2) as [f |] eqn:Ef; cbn; rewrite ?Ef; cbn; rewrite Hv2;
    cbn; auto.
Qed.

End FirstDatabase.

(** In a sorted array the pages of the first database stand at the head. *)
Lemma of_database_filter e l :
  StronglySorted cmp_le (e :: l) ->
  of_database (database e) l = filter (fun b => database b =? database e) l.
Proof.
  induction l as [| x l IH]; intros Hs; [reflexivity |].
  inversion Hs as [| ? ? Hs' Hall]; subst.
  inversion Hs' as [| ? ? Hs'' Hallx]; subst.
  inversion Hall as [| ? ? Hex Hall']; subst.
  cbn [of_database filter].
  destruct (Z.eqb_spec (database x) (database e)) as [E | E].
  - f_equal. apply IH. now constructor.
  - symmetry. apply List.filter_nil.
    intros y Hy.
    rewrite Forall_forall in Hallx. specialize (Hallx y Hy).
    apply Z.eqb_neq.
    unfold cmp_le in Hex, Hallx. cmp_cases; lia.
Qed.

Section GlobalFile.
Import Saver Reader.

(** C10.  When the scan is not empty and holds no page of the global
    namespace, the assertion on the first buffer is violated, and the pages of
    the first database of the sorted array (all the pages of the scan with
    that database) are listed in file 1, under the empty name: a block reader
    given file 1 connects to the default database and fetches them there. *)
Theorem C10_first_database_goes_into_file_1 :
  forall (name : Oid -> string) (scanned : list SavedBuffer),
    scanned <> [] ->
    Forall page_in_range scanned ->
    Forall (fun b => database b <> InvalidOid) scanned ->
    exists first rest others,
      pg_qsort SavedBufferCmp scanned = first :: rest
      /\ database first <> InvalidOid
      /\ In first_buffer_is_global (Saver.violated (SaveBuffers name scanned))
      /\ let pages := filter (fun b => database b =? database first)
                        (pg_qsort SavedBufferCmp scanned) in
         save_files name scanned
         = (1%nat, mkSaveFile EmptyString (encode (records_of pages))) :: others
         /\ (forall world,
                (forall n, got_sigterm world n = false) ->
                Forall valid_page scanned ->
                ReadBlocks world 1 (mkSaveFile EmptyString (encode (records_of pages)))
                = mkResult
                    (if remove_succeeds world then Completed
                     else Failed remove_failed)
                    (guc_default_database world)
                    (expected_fetches world (guc_default_database world) pages)
                    (remove_succeeds world)).
Proof.
  intros name scanned Hne Hrange Hdb.
  pose proof (pg_qsort_perm scanned) as Hperm.
  pose proof (pg_qsort_sorted scanned) as Hsorted.
  destruct (pg_qsort SavedBufferCmp scanned) as [| first rest] eqn:Es.
  { apply Permutation_sym, Permutation_nil in Hperm. contradiction. }
  assert (Hfirst : database first <> InvalidOid).
  { rewrite Forall_forall in Hdb. apply Hdb.
    eapply Permutation_in; [symmetry; exact Hperm | now left]. }
  assert (Hpages : filter (fun b => database b =? database first) (first :: rest)
                   = first :: of_database (database first) rest).
  { cbn [filter]. rewrite Z.eqb_refl. f_equal. symmetry.
    now apply of_database_filter. }
  exists first, rest,
    (files_of name 2 (by_database (after_database (database first) rest))).
  split; [reflexivity |]. split; [exact Hfirst |].
  split; [eapply first_buffer_assertion; eauto |].
  cbv zeta. rewrite Hpages. split.
  - rewrite SaveBuffers_files, Es by exact Hrange.
    rewrite by_database_span. reflexivity.
  - intros world Hsig Hvalid.
    apply (replay_of_group world 1 EmptyString); [exact Hsig |].
    assert (Hv : Forall valid_page (first :: rest))
      by (eapply Permutation_Forall; [exact Hperm | exact Hvalid]).
    inversion Hv as [| ? ? Hv1 Hv2]; subst.
    constructor; [exact Hv1 | now apply of_database_Forall].
Qed.

Lemma C10_first_database_goes_into_file_1_witness :
  exists others,
    save_files (fun _ => "db1"%string) [mkSavedBuffer 5 42 0 10; mkSavedBuffer 7 3 0 1]
    = (1%nat, mkSaveFile EmptyString
                (encode (records_of [mkSavedBuffer 5 42 0 10]))) :: others.
Proof.
  destruct (C10_first_database_goes_into_file_1 (fun _ => "db1"%string)
              [mkSavedBuffer 5 42 0 10; mkSavedBuffer 7 3 0 1])
    as (first & rest & others & Hsorted & _ & _ & Hfile & _).
  - discriminate.
  - repeat constructor; cbn; lia.
  - repeat constructor; cbn; discriminate.
  - exists others. inversion Hsorted; subst. exact Hfile.
Defined.

(** C1 fails on scans without a page of the global namespace.  The only
    cached page belongs to database 5, "db1", where filenode 42 is relation
    1042.  The writer lists it in file 1; the block reader of file 1 connects
    to "postgres", where filenode 42 is relation 9042, and fetches block 10 of
    that relation. *)
Theorem C1_round_trip_fails_without_global_pages :
  let name := fun _ : Oid => "db1"%string in
  let world :=
    mkWorld "postgres"
      (fun conn f => if String.eqb conn "db1" then [Some (f + 1000)]
                     else [Some (f + 9000)])
      (fun _ _ _ => true) (fun _ _ _ => 100) (fun _ => false) true 0 0 0 in
  let page := mkSavedBuffer 5 42 0 10 in
  replay_all world (save_files name [page])
  = [mkResult Completed "postgres" [mkFetch (Some 9042) 0 10] true]
  /\ live world (name (database page)) page = true
  /\ fetch_of world (name (database page)) page = mkFetch (Some 1042) 0 10
  /\ Saver.violated (SaveBuffers name [page]) = [first_buffer_is_global].
Proof. repeat split; vm_compute; reflexivity. Qed.

End GlobalFile.

(** ** C2: runs of blocks *)

Section Runs.
Import Saver.

Lemma next_page_irrefl x : next_page x x = false.
Proof.
  unfold next_page. replace (blocknum x =? blocknum x + 1) with false
    by (symmetry; apply Z.eqb_neq; lia).
  now rewrite andb_false_r.
Qed.

Lemma next_page_fields a b :
  next_page a b = true ->
  b = mkSavedBuffer (database a) (filenode a) (forknum a) (blocknum a + 1).
Proof.
  unfold next_page. intros H.
  apply andb_prop in H. destruct H as [H Hb].
  apply andb_prop in H. destruct H as [H Hk].
  apply andb_prop in H. destruct H as [Hd Hf].
  apply Z.eqb_eq in Hd, Hf, Hk, Hb. destruct b; cbn in *. congruence.
Qed.

Lemma run_after_cons cur m :
  run_after cur (S m)
  = run_end cur 1 :: run_after (run_end cur 1) m.
Proof.
  unfold run_after, run_end. rewrite zseq_cons by lia. cbn [map].
  cbn [database filenode forknum blocknum].
  replace (Z.of_nat (S m) - 1) with (Z.of_nat m) by lia.
  reflexivity.
Qed.

Lemma run_after_length cur m : length (run_after cur m) = m.
Proof. unfold run_after. rewrite length_map, zseq_length. lia. Qed.

Lemma next_page_run_end cur : next_page cur (run_end cur 1) = true.
Proof. unfold next_page, run_end. cbn. now rewrite !Z.eqb_refl. Qed.

(** A run that nothing continues is counted in full. *)
Lemma run_length_run_after m :
  forall cur post,
    (forall e, hd_error post = Some e -> next_page (run_end cur m) e = false) ->
    run_length cur (run_after cur m ++ post) = m.
Proof.
  induction m as [| m IH]; intros cur post Hmax.
  - cbn [run_after app]. unfold run_after. rewrite zseq_nil by lia. cbn [map app].
    destruct post as [| e post]; [reflexivity |].
    cbn [run_length]. specialize (Hmax e eq_refl).
    unfold run_end in Hmax. unfold next_page in *. cbn in Hmax.
    rewrite Z.add_0_r in Hmax. now rewrite Hmax.
  - rewrite run_after_cons. cbn [app run_length].
    rewrite next_page_run_end. f_equal. apply IH.
    intros e He. specialize (Hmax e He).
    unfold run_end in *. cbn [database filenode forknum blocknum] in *.
    replace (blocknum cur + Z.of_nat 1 + Z.of_nat m)
      with (blocknum cur + Z.of_nat (S m)) by lia.
    exact Hmax.
Qed.

(** A run that stops before [x] is counted the same with or without what
    follows. *)
Lemma run_length_stops r1 :
  forall buf x l2,
    next_page (last (buf :: r1) x) x = false ->
    run_length buf (r1 ++ x :: l2) = run_length buf r1.
Proof.
  induction r1 as [| t r1 IH]; intros buf x l2 Hstop.
  - cbn in *. now rewrite Hstop.
  - cbn [app run_length]. destruct (next_page buf t); [| reflexivity].
    f_equal. apply IH. exact Hstop.
Qed.

Lemma records_from_covered l :
  forall pf pk c,
    records_from pf pk c l = records_from pf pk 0 (skipn c l).
Proof.
  induction l as [| buf rest IH]; intros pf pk c.
  - now rewrite skipn_nil.
  - destruct c as [| c]; [reflexivity |]. cbn [records_from skipn]. apply IH.
Qed.

(** The records of the entries before a pass do not depend on what follows. *)
Lemma records_from_split l1 :
  forall pf pk c x l2,
    (c <= length l1)%nat ->
    next_page (last l1 x) x = false ->
    exists pf' pk',
      records_from pf pk c (l1 ++ x :: l2)
      = records_from pf pk c l1 ++ records_from pf' pk' 0 (x :: l2).
Proof.
  induction l1 as [| buf r1 IH]; intros pf pk c x l2 Hc Hstop.
  - cbn in Hc. replace c with O by lia. now exists pf, pk.
  - assert (Hstop' : next_page (last r1 x) x = false).
    { destruct r1; [apply next_page_irrefl | exact Hstop]. }
    destruct c as [| c].
    + cbn [app records_from].
      rewrite run_length_stops by exact Hstop.
      destruct (IH (filenode buf) (forknum buf) (run_length buf r1) x l2
                  (run_length_bound buf r1) Hstop')
        as (pf' & pk' & E).
      exists pf', pk'. rewrite E. now rewrite app_assoc.
    + cbn [app records_from]. apply IH; [cbn in Hc; lia | exact Hstop'].
Qed.

Lemma files_of_In name g gs :
  In g gs ->
  forall k, exists n nm,
      In (n, mkSaveFile nm (encode (records_of g))) (files_of name k gs).
Proof.
  induction gs as [| g' gs IH]; intros Hin k; [destruct Hin |].
  destruct Hin as [-> | Hin].
  - eexists _, _. left. reflexivity.
  - destruct (IH Hin (S k)) as (n & nm & H). exists n, nm. now right.
Qed.

(** C2.  Take the sorted array of a scan and, among the pages of one
    database, a run: an entry [first] and the [m >= 1] entries that follow it
    block by block in the same fork of the same relation, with no entry just
    before that the run would continue and no entry just after that would
    continue it.  The file of that database holds, for the run, one block
    record for [first] followed by one range record of length [m] (that is
    k - 1 for the k = m + 1 entries), after at most a relation and a fork
    record; the records before are those of the entries before the run, the
    records after those of the entries after it.  A pass of the loop counts in
    its range only entries of the database, relation and fork of its entry;
    and the look-ahead counts nothing when the next entry differs from the
    trackers in database, relation or fork, whatever its block number. *)
Theorem C2_run_length_compression :
  (forall name scanned g gpre first m gpost,
      Forall page_in_range scanned ->
      In g (by_database (pg_qsort SavedBufferCmp scanned)) ->
      g = gpre ++ first :: run_after first m ++ gpost ->
      (1 <= m)%nat ->
      next_page (last gpre first) first = false ->
      (forall e, hd_error gpost = Some e -> next_page (run_end first m) e = false) ->
      exists n nm marks,
        In (n, mkSaveFile nm
                 (encode (records_of gpre
                          ++ marks
                          ++ [BlockRec (blocknum first); RangeRec (Z.of_nat m)]
                          ++ records_from (filenode first) (forknum first) 0 gpost)))
           (save_files name scanned)
        /\ Forall (fun r => r = RelRec (filenode first)
                            \/ r = ForkRec (forknum first)) marks)
  /\ (forall buf rest st id nm D,
         file st = Some (id, mkSaveFile nm D) ->
         Forall (fun b => is_uint32 (blocknum b)) (buf :: rest) ->
         StronglySorted cmp_le (buf :: rest) ->
         prev_database st = database buf ->
         let covered := Z.to_nat (range_counter (write_entry buf rest st)) in
         Forall (fun e => database e = database buf
                          /\ filenode e = filenode buf
                          /\ forknum e = forknum buf)
                (firstn covered rest))
  /\ (forall st tmp rest,
         database tmp <> prev_database st
         \/ filenode tmp <> prev_filenode st
         \/ forknum tmp <> prev_forknum st ->
         look_ahead st 0 (tmp :: rest) = 0).
Proof.
  split; [| split].
  - intros name scanned g gpre first m gpost Hrange Hin Hg Hm Hleft Hright.
    destruct (files_of_In name g _ Hin 1) as (n & nm & Hfile).
    rewrite <- SaveBuffers_files in Hfile by exact Hrange.
    unfold records_of in Hfile. rewrite Hg in Hfile.
    destruct (records_from_split gpre InvalidOid InvalidForkNumber 0 first
                (run_after first m ++ gpost) (Nat.le_0_l _) Hleft)
      as (pf' & pk' & Esplit).
    rewrite Esplit in Hfile. cbn [records_from] in Hfile.
    rewrite run_length_run_after in Hfile by exact Hright.
    rewrite (records_from_covered (run_after first m ++ gpost)) in Hfile.
    rewrite skipn_app, run_after_length, Nat.sub_diag in Hfile.
    rewrite <- (run_after_length first m) in Hfile at 2.
    rewrite skipn_all in Hfile. cbn [skipn app] in Hfile.
    unfold entry_records in Hfile.
    destruct m as [| m']; [lia |].
    exists n, nm,
      ((if filenode first =? pf' then [] else [RelRec (filenode first)])
       ++ (if forknum first
              =? (if filenode first =? pf' then pk' else InvalidForkNumber)
           then [] else [ForkRec (forknum first)])).
    split.
    + unfold records_of.
      match type of Hfile with
      | context [encode ?l1] =>
          match goal with
          | |- context [encode ?l2] => replace l2 with l1; [exact Hfile |]
          end
      end.
      repeat rewrite <- app_assoc. reflexivity.
    + clear Hfile. apply Forall_app. split.
      * destruct (filenode first =? pf');
          [constructor | constructor; [auto | constructor]].
      * destruct (forknum first =? _);
          [constructor | constructor; [auto | constructor]].
  - intros buf rest st id nm D Hfile Hr Hs Hd covered. subst covered.
    rewrite (write_entry_spec buf rest st id nm D Hfile Hr Hs Hd).
    cbn [range_counter]. rewrite Nat2Z.id.
    rewrite run_length_firstn. unfold run_after. apply Forall_forall.
    intros e He. apply in_map_iff in He. destruct He as (b & <- & _).
    cbn. auto.
  - intros st tmp rest Hdiff. cbn [look_ahead].
    replace ((database tmp =? prev_database st)
             && (filenode tmp =? prev_filenode st)
             && (forknum tmp =? prev_forknum st)) with false; [reflexivity |].
    symmetry. destruct Hdiff as [H | [H | H]]; apply Z.eqb_neq in H; rewrite H;
      rewrite ?andb_false_r; reflexivity.
Qed.

Lemma C2_run_length_compression_witness :
  (exists n nm marks,
      In (n, mkSaveFile nm
               (encode (records_of [mkSavedBuffer 0 42 0 3]
                        ++ marks
                        ++ [BlockRec 10; RangeRec 2]
                        ++ records_from 42 0 0 [mkSavedBuffer 0 42 1 11])))
         (save_files (fun _ => "db1"%string)
            [mkSavedBuffer 0 42 0 11; mkSavedBuffer 0 42 1 11;
             mkSavedBuffer 0 42 0 10; mkSavedBuffer 0 42 0 3;
             mkSavedBuffer 0 42 0 12]))
  /\ look_ahead (mkState None [] 1 0 42 0 10 0 []) 0 [mkSavedBuffer 0 42 1 11] = 0.
Proof.
  destruct C2_run_length_compression as (Hrun & _ & Hforeign).
  split; [| apply Hforeign; right; right; discriminate].
  destruct (Hrun (fun _ => "db1"%string)
              [mkSavedBuffer 0 42 0 11; mkSavedBuffer 0 42 1 11;
               mkSavedBuffer 0 42 0 10; mkSavedBuffer 0 42 0 3;
               mkSavedBuffer 0 42 0 12]
              [mkSavedBuffer 0 42 0 3; mkSavedBuffer 0 42 0 10;
               mkSavedBuffer 0 42 0 11; mkSavedBuffer 0 42 0 12;
               mkSavedBuffer 0 42 1 11]
              [mkSavedBuffer 0 42 0 3] (mkSavedBuffer 0 42 0 10) 2%nat
              [mkSavedBuffer 0 42 1 11])
    as (n & nm & marks & Hin & _).
  - repeat constructor; cbn; lia.
  - left. reflexivity.
  - reflexivity.
  - lia.
  - reflexivity.
  - intros e He. inversion He; subst. reflexivity.
  - exists n, nm, marks. exact Hin.
Defined.

End Runs.

(** ** The round trip *)

Section RoundTrip.
Import Reader.

Variable world : World.
Variable name : Oid -> string.

Lemma of_database_same d l :
  Forall (fun x => database x = d) (of_database d l).
Proof.
  induction l as [| e l IH]; cbn; [constructor |].
  destruct (Z.eqb_spec (database e) d); constructor; auto.
Qed.

Lemma after_database_sorted d l :
  StronglySorted cmp_le l -> StronglySorted cmp_le (after_database d l).
Proof.
  induction 1 as [| e l Hs IH Hall]; cbn; [constructor |].
  destruct (database e =? d); [exact IH | now constructor].
Qed.

Lemma after_database_other e l :
  StronglySorted cmp_le (e :: l) ->
  Forall (fun x => database x <> database e) (after_database (database e) l).
Proof.
  induction l as [| x l IH]; intros Hs; [constructor |].
  inversion Hs as [| ? ? Hs' Hall]; subst.
  inversion Hs' as [| ? ? Hs'' Hallx]; subst.
  inversion Hall as [| ? ? Hex Hall']; subst.
  cbn [after_database].
  destruct (Z.eqb_spec (database x) (database e)) as [E | E].
  - apply IH. now constructor.
  - constructor; [exact E |].
    rewrite Forall_forall in Hallx |- *. intros y Hy. specialize (Hallx y Hy).
    unfold cmp_le in Hex, Hallx. cmp_cases; lia.
Qed.

Lemma requests_cons r rs :
  requests (r :: rs) = map (pair (connected_to r)) (fetches r) ++ requests rs.
Proof. reflexivity. Qed.

Lemma restored_pages_app l1 l2 :
  restored_pages world name (l1 ++ l2)
  = restored_pages world name l1 ++ restored_pages world name l2.
Proof. unfold restored_pages. now rewrite filter_app, map_app. Qed.

(** The pages of one database are restored in its connection. *)
Lemma restored_pages_group d g :
  Forall (fun x => database x = d) g ->
  restored_pages world name g
  = map (pair (connection_of world name d))
        (expected_fetches world (connection_of world name d) g).
Proof.
  induction 1 as [| e g He Hg IH]; [reflexivity |].
  unfold restored_pages, expected_fetches in *. cbn [filter]. rewrite He.
  destruct (live world (connection_of world name d) e); cbn [map];
    rewrite IH; [rewrite He |]; reflexivity.
Qed.

Lemma requests_replays_of n l :
  (1 <= n)%nat ->
  StronglySorted cmp_le l ->
  (n = 1%nat -> forall e l', l = e :: l' -> database e = InvalidOid) ->
  (n <> 1%nat -> Forall (fun e => database e <> InvalidOid) l) ->
  requests (replays_of world name n (by_database l))
  = restored_pages world name l.
Proof.
  remember (length l) as len eqn:Hlen.
  revert n l Hlen. induction len as [len IH] using lt_wf_ind.
  intros n l Hlen Hn1 Hs Hfirst Hrest.
  destruct l as [| e l]; [reflexivity |].
  rewrite by_database_span. cbn [replays_of hd].
  rewrite requests_cons. cbn [connected_to fetches].
  assert (Hconn : (if (n =? 1)%nat then guc_default_database world
                   else name (database e))
                  = connection_of world name (database e)).
  { unfold connection_of. destruct (Nat.eqb_spec n 1) as [Hn | Hn].
    - rewrite (Hfirst Hn e l eq_refl). reflexivity.
    - specialize (Hrest Hn). inversion Hrest as [| ? ? He _]; subst.
      apply Z.eqb_neq in He. now rewrite He. }
  rewrite Hconn.
  rewrite <- (of_after_database (database e) l) at 3.
  rewrite app_comm_cons, restored_pages_app.
  rewrite (restored_pages_group (database e))
    by (constructor; [reflexivity | apply of_database_same]).
  f_equal.
  inversion Hs as [| ? ? Hs' Hall]; subst.
  eapply IH;
    [| reflexivity | lia | now apply after_database_sorted | intros Hn; lia |].
  - pose proof (after_database_length (database e) l). cbn. lia.
  - intros _. destruct (Nat.eq_dec n 1) as [Hn | Hn].
    + pose proof (after_database_other e l Hs) as Hother.
      rewrite (Hfirst Hn e l eq_refl) in Hother |- *. exact Hother.
    + specialize (Hrest Hn). inversion Hrest; subst.
      now apply after_database_Forall.
Qed.

(** X1.  The round trip, for scans that are empty or hold a page of the
    global namespace, replayed without a shutdown request: the block readers
    of the save-files issue, in the order of the sorted scan, the fetches of
    the pages of the scan that are live at replay time, each in the database
    of its page; as sets, the two agree. *)
Theorem round_trip_with_global_pages scanned :
  (forall n, got_sigterm world n = false) ->
  Forall valid_page scanned ->
  scanned = [] \/ (exists p, In p scanned /\ database p = InvalidOid) ->
  requests (replay_all world (Saver.save_files name scanned))
  = restored_pages world name (pg_qsort SavedBufferCmp scanned)
  /\ (forall request,
         In request (requests (replay_all world (Saver.save_files name scanned)))
         <-> exists p,
             In p scanned
             /\ live world (connection_of world name (database p)) p = true
             /\ request = (connection_of world name (database p),
                           fetch_of world (connection_of world name (database p)) p)).
Proof.
  intros Hsig Hv Hglobal.
  assert (Heq : requests (replay_all world (Saver.save_files name scanned))
                = restored_pages world name (pg_qsort SavedBufferCmp scanned)).
  { rewrite replay_of_saved_files by assumption.
    apply requests_replays_of; [lia | apply pg_qsort_sorted | | congruence].
    intros _ e l' Hsorted.
    pose proof (pg_qsort_perm scanned) as Hperm.
    pose proof (pg_qsort_sorted scanned) as Hs.
    rewrite Hsorted in Hperm, Hs.
    destruct Hglobal as [-> | (p & Hp & Hdb)].
    { apply Permutation_nil in Hperm. discriminate. }
    assert (He : valid_page e).
    { rewrite Forall_forall in Hv. apply Hv.
      eapply Permutation_in; [symmetry; exact Hperm | now left]. }
    destruct He as ((Hd & _) & _). unfold is_uint32 in Hd.
    assert (Hin : In p (e :: l')) by (eapply Permutation_in; eauto).
    destruct Hin as [-> | Hin]; [exact Hdb |].
    inversion Hs as [| ? ? _ Hall]; subst.
    rewrite Forall_forall in Hall. specialize (Hall p Hin).
    unfold cmp_le in Hall. unfold InvalidOid in *. cmp_cases; lia. }
  split; [exact Heq |].
  intros request. rewrite Heq. unfold restored_pages.
  rewrite in_map_iff. split.
  - intros (p & <- & Hp). apply filter_In in Hp. destruct Hp as [Hp Hlive].
    exists p. split; [| split; [exact Hlive | reflexivity]].
    eapply Permutation_in; [symmetry; apply pg_qsort_perm | exact Hp].
  - intros (p & Hp & Hlive & ->). exists p. split; [reflexivity |].
    apply filter_In. split; [| exact Hlive].
    eapply Permutation_in; [apply pg_qsort_perm | exact Hp].
Qed.

End RoundTrip.

Lemma round_trip_with_global_pages_witness :
  let world := Reader.mkWorld "postgres"
                 (fun conn f => if f =? 43 then []
                                else if String.eqb conn "db1" then [Some (f + 1000)]
                                else [Some (f + 9000)])
                 (fun _ _ _ => true) (fun _ _ _ => 11)
                 (fun _ => false) true 0 0 0 in
  let name := fun _ : Oid => "db1"%string in
  let scanned := [mkSavedBuffer 5 42 0 10; mkSavedBuffer 0 1260 0 0;
                  mkSavedBuffer 5 43 0 1; mkSavedBuffer 5 42 0 9;
                  mkSavedBuffer 5 42 0 11] in
  requests (replay_all world (Saver.save_files name scanned))
  = [("postgres"%string, Reader.mkFetch (Some 10260) 0 0);
     ("db1"%string, Reader.mkFetch (Some 1042) 0 9);
     ("db1"%string, Reader.mkFetch (Some 1042) 0 10)].
Proof.
  intros world name scanned.
  destruct (round_trip_with_global_pages world name scanned) as [Heq _].
  - reflexivity.
  - repeat constructor; cbn; try lia; discriminate.
  - right. exists (mkSavedBuffer 0 1260 0 0). cbn. auto.
  - rewrite Heq. vm_compute. reflexivity.
Defined.

(** ** What the replayer keeps true, whatever the file holds *)

Section ReplayInvariant.
Import Reader.

Variable world : World.
Variable conn : string.

Lemma initial_invariant : replay_invariant world conn (initial world).
Proof.
  split; [apply initial_in_range | split; split; cbn].
  - discriminate.
  - now left.
  - constructor.
  - reflexivity.
Qed.

Lemma fetch_block_invariant b st :
  replay_invariant world conn st -> 0 <= b < nblocks st ->
  replay_invariant world conn (fetch_block b st).
Proof.
  intros (Hc & Hm & Hall & Hcnt) Hb.
  split; [exact Hc | split; [exact Hm | split; cbn]].
  - apply Forall_app. split; [exact Hall |].
    constructor; [| constructor].
    destruct Hm as [Hrel [H0 | (r & Hr & Hs & Hn)]]; [lia |].
    exists r. cbn. repeat split; auto; lia.
  - rewrite Hcnt, length_app. cbn [length]. unfold to_uint32.
    rewrite Zplus_mod_idemp_l. f_equal. lia.
Qed.

Lemma range_loop_invariant fuel :
  forall block last st st',
    0 <= block -> replay_invariant world conn st ->
    range_loop fuel block last st = Some st' ->
    replay_invariant world conn st'
    /\ exists more, fetched st' = fetched st ++ more.
Proof.
  induction fuel as [| fuel IH]; intros block last st st' Hb Hinv H;
    [discriminate |].
  cbn [range_loop] in H.
  destruct (block <=? last);
    [| inversion H; subst; split; [exact Hinv | exists []; now rewrite app_nil_r]].
  destruct (Z.geb_spec block (nblocks st)) as [Hge | Hlt];
    [inversion H; subst; split; [exact Hinv | exists []; now rewrite app_nil_r] |].
  apply IH in H.
  - destruct H as [Hinv' [more Hmore]]. split; [exact Hinv' |].
    rewrite Hmore. cbn. rewrite <- app_assoc. eauto.
  - pose proof (to_uint32_range (block + 1)) as Hr. unfold is_uint32 in Hr. lia.
  - apply fetch_block_invariant; [exact Hinv | lia].
Qed.

Ltac same_fetches := split; [| exists []; now rewrite app_nil_r].

(** One record. *)
Lemma record_switch_invariant m st file c :
  replay_invariant world conn st ->
  record_switch world conn m st file = Some c ->
  match c with
  | Continue st' _ =>
      replay_invariant world conn st'
      /\ exists more, fetched st' = fetched st ++ more
  | Raise _ st' =>
      fetched st' = fetched st /\ blocks_restored st' = blocks_restored st
  end.
Proof.
  intros Hinv. pose proof Hinv as ((Hb & Hn) & (Hrel & Hm) & Hcnt).
  unfold record_switch.
  destruct (Byte.eqb m marker_r); [| destruct (Byte.eqb m marker_f);
    [| destruct (Byte.eqb m marker_b); [| destruct (Byte.eqb m marker_N)]]];
    intros H.
  - inversion H; subst; clear H. unfold relation_record, read_object.
    destruct (fileRead sizeof_word file false) as [got rest | |] eqn:E;
      try (split; reflexivity).
    cbn. destruct (Z.eqb_spec (GetRelOid world conn (le_combine got)) InvalidOid)
      as [Hinvalid | Hvalid]; same_fetches.
    + split; [split; cbn; unfold is_uint32, InvalidBlockNumber; lia |].
      split; [split; cbn; [discriminate | now left] | exact Hcnt].
    + split; [split; cbn; unfold is_uint32, InvalidBlockNumber; lia |].
      split; [split; cbn; [congruence | now left] | exact Hcnt].
  - inversion H; subst; clear H. unfold fork_record, read_object.
    destruct (fileRead sizeof_word file false) as [got rest | |] eqn:E;
      try (split; reflexivity).
    cbn. destruct (skip_relation st).
    + same_fetches.
      split; [split; cbn; unfold is_uint32, InvalidBlockNumber; lia |].
      split; [split; cbn; [exact Hrel | now left] | exact Hcnt].
    + destruct (rel st) as [r |] eqn:Er; [| split; reflexivity].
      destruct (smgrexists world conn r (to_int32 (le_combine got))) eqn:Es;
        cbn; same_fetches.
      * split; [split; cbn; [unfold is_uint32, InvalidBlockNumber; lia
                            | apply to_uint32_range] |].
        split; [| exact Hcnt].
        split; cbn; [rewrite Er; exact Hrel |].
        right. exists r. rewrite Er. auto.
      * split; [split; cbn; unfold is_uint32, InvalidBlockNumber; lia |].
        split; [split; cbn; [rewrite Er; exact Hrel | now left] | exact Hcnt].
  - inversion H; subst; clear H. unfold block_record, read_object.
    destruct (record_forknum st =? InvalidForkNumber); [split; reflexivity |].
    destruct (fileRead sizeof_word file false) as [got rest | |] eqn:E;
      try (split; reflexivity).
    apply fileRead_ok in E. destruct E as [Hg Hl].
    pose proof (le_combine_word got Hg) as Hw.
    assert (Hset : replay_invariant world conn (set_blocknum (le_combine got) st)).
    { split; [split; [exact Hw | exact Hn] | split; [split; [exact Hrel | exact Hm]
                                                     | exact Hcnt]]. }
    cbn. destruct (skip_relation st || skip_fork st); [same_fetches; exact Hset |].
    destruct (Z.geb_spec (le_combine got) (nblocks st)) as [Hge | Hlt].
    + same_fetches.
      split; [split; [exact Hw | exact Hn] | split; [split; [exact Hrel | exact Hm]
                                                     | exact Hcnt]].
    + split; [| cbn; eauto].
      apply (fetch_block_invariant (le_combine got)
               (set_skip_block false (set_blocknum (le_combine got) st))).
      * split; [split; [exact Hw | exact Hn]
               | split; [split; [exact Hrel | exact Hm] | exact Hcnt]].
      * unfold is_uint32 in Hw. cbn. lia.
  - unfold range_record in H.
    destruct (record_blocknum st =? InvalidBlockNumber);
      [inversion H; subst; split; reflexivity |].
    destruct (fileRead sizeof_word file false) as [got rest | |] eqn:E;
      try (inversion H; subst; split; reflexivity).
    destruct (skip_relation st || skip_fork st || skip_block st);
      [inversion H; subst; same_fetches; exact Hinv |].
    destruct (range_loop _ _ _ st) as [st' |] eqn:El; [| discriminate].
    inversion H; subst.
    eapply range_loop_invariant; [| exact Hinv | exact El].
    pose proof (to_uint32_range (record_blocknum st + 1)) as Hr.
    unfold is_uint32 in Hr. lia.
  - inversion H; subst. split; reflexivity.
Qed.

(** The whole loop, from a state that satisfies the invariant. *)
Lemma read_loop_invariant fuel :
  forall n st file st',
    replay_invariant world conn st ->
    state_at_end (read_loop world conn fuel n st file) = Some st' ->
    fetches_counted world conn st'
    /\ exists more, fetched st' = fetched st ++ more.
Proof.
  induction fuel as [| fuel IH]; intros n st file st' Hinv H; [discriminate |].
  assert (Hsame : fetches_counted world conn st
                  /\ exists more, fetched st = fetched st ++ more).
  { split; [apply Hinv | exists []; now rewrite app_nil_r]. }
  destruct file as [| m file];
    [cbn in H; inversion H; subst; exact Hsame |].
  rewrite read_loop_unfold in H.
  destruct (got_sigterm world n); [cbn in H; inversion H; subst; exact Hsame |].
  destruct (record_switch world conn m st file) as [c |] eqn:Ec; [| discriminate].
  pose proof (record_switch_invariant m st file c Hinv Ec) as Hc.
  destruct c as [st1 file1 | e st1].
  - destruct Hc as [Hinv1 [more1 Hmore1]].
    destruct (IH _ _ _ _ Hinv1 H) as [Hcnt' [more Hmore]].
    split; [exact Hcnt' |]. rewrite Hmore, Hmore1, <- app_assoc. eauto.
  - cbn in H. inversion H; subst. destruct Hc as [Hf Hb].
    destruct Hsame as [[Hall Hcnt] _].
    split; [split |]; [now rewrite Hf | now rewrite Hf, Hb |].
    exists []. now rewrite app_nil_r.
Qed.

(** More fuel than the file has bytes changes nothing. *)
Lemma read_loop_fuel fuel1 :
  forall fuel2 n st file,
    cursors_in_range st ->
    (length file < fuel1)%nat -> (length file < fuel2)%nat ->
    read_loop world conn fuel1 n st file = read_loop world conn fuel2 n st file.
Proof.
  induction fuel1 as [| fuel1 IH]; intros fuel2 n st file Hst H1 H2; [lia |].
  destruct fuel2 as [| fuel2]; [lia |].
  destruct file as [| m file]; [reflexivity |].
  rewrite !read_loop_unfold.
  destruct (got_sigterm world n); [reflexivity |].
  destruct (record_switch_progress world conn m st file Hst) as (c & -> & Hc).
  destruct c as [st' file' | e st']; [| reflexivity].
  destruct Hc as [Hst' Hlen]. simpl in H1, H2. apply IH; [exact Hst' | lia | lia].
Qed.

End ReplayInvariant.

(** X3. Every page the replayer asks for exists. Whatever bytes the save-file
    holds, and whatever the uninitialised cursors hold at the start, each
    fetch of [ReadBlocks] is made on a relation that was resolved and opened,
    for a fork that exists, and for a block below the size of that fork. *)
Theorem ReadBlocks_fetches_in_bounds :
  forall (world : Reader.World) (filenum : nat) (f : SaveFile),
    let r := Reader.ReadBlocks world filenum f in
    Forall (fetch_in_bounds world (Reader.connected_to r)) (Reader.fetches r).
Proof.
  intros world filenum f. cbv zeta. unfold Reader.ReadBlocks.
  set (conn := if (filenum =? 1)%nat then Reader.guc_default_database world
               else sf_dbname f).
  pose proof (read_loop_invariant world conn (S (length (sf_data f))) 0
                (Reader.initial world) (sf_data f)) as Hinv.
  destruct (Reader.read_loop world conn (S (length (sf_data f))) 0
              (Reader.initial world) (sf_data f)) as [st | st | e st |];
    try (destruct (Hinv st (initial_invariant world conn) eq_refl) as [[Hall _] _]);
    unfold Reader.after_loop; try destruct (Reader.remove_succeeds world);
    cbn; auto.
Qed.

(** The fetches [ReadBlocks] reports are those of the state its loop was left
    with. *)
Lemma ReadBlocks_fetches world filenum f :
  Reader.fetches (Reader.ReadBlocks world filenum f)
  = match state_at_end
            (Reader.read_loop world
               (if (filenum =? 1)%nat then Reader.guc_default_database world
                else sf_dbname f)
               (S (length (sf_data f))) 0 (Reader.initial world) (sf_data f)) with
    | Some st => Reader.fetched st
    | None => []
    end.
Proof.
  unfold Reader.ReadBlocks.
  destruct (Reader.read_loop _ _ _ _ _ _); unfold Reader.after_loop;
    try destruct (Reader.remove_succeeds world); reflexivity.
Qed.

(** X9. The number the replayer logs is the number of its fetches. In the
    state the loop is left with, by the end of the file, by a shutdown request
    or by an error, [blocks_restored] is the number of pages fetched, as an
    [uint32]. *)
Theorem blocks_restored_counts_the_fetches :
  forall (world : Reader.World) (conn : string) (fuel : nat)
         (file : list byte) (st : Reader.State),
    state_at_end (Reader.read_loop world conn fuel 0 (Reader.initial world) file)
    = Some st ->
    Reader.blocks_restored st
    = to_uint32 (Z.of_nat (length (Reader.fetched st))).
Proof.
  intros world conn fuel file st H.
  apply (read_loop_invariant world conn fuel 0 (Reader.initial world) file st
           (initial_invariant world conn) H).
Qed.

Lemma blocks_restored_counts_the_fetches_witness :
  let world := Reader.mkWorld "postgres" (fun _ f => [Some (f + 1000)])
                 (fun _ _ _ => true) (fun _ _ _ => 12)
                 (fun _ => false) true 0 0 0 in
  let file := encode [RelRec 42; ForkRec 0; BlockRec 10; RangeRec 5; BlockRec 30] in
  exists st,
    state_at_end (Reader.read_loop world "db1" 26 0 (Reader.initial world) file)
    = Some st
    /\ Reader.blocks_restored st
       = to_uint32 (Z.of_nat (length (Reader.fetched st)))
    /\ Reader.blocks_restored st = 2.
Proof.
  intros world file. eexists. split; [vm_compute; reflexivity |].
  split; [| reflexivity].
  apply (blocks_restored_counts_the_fetches world "db1" 26 file).
  vm_compute. reflexivity.
Defined.

(** ** A shutdown request only cuts the replay short *)

Section Shutdown.
Import Reader.

Variable world : World.
Variable conn : string.

Lemma record_switch_without_shutdown m st file :
  record_switch (without_shutdown world) conn m st file
  = record_switch world conn m st file.
Proof. reflexivity. Qed.

Lemma read_loop_prefix fuel :
  forall n st file st1,
    replay_invariant world conn st -> (length file < fuel)%nat ->
    state_at_end (read_loop world conn fuel n st file) = Some st1 ->
    exists st2 more,
      state_at_end (read_loop (without_shutdown world) conn fuel n st file)
      = Some st2
      /\ fetched st2 = fetched st1 ++ more.
Proof.
  induction fuel as [| fuel IH]; intros n st file st1 Hinv Hlen H; [lia |].
  destruct file as [| m file].
  - cbn in H |- *. inversion H; subst. exists st1, []. now rewrite app_nil_r.
  - rewrite read_loop_unfold in H.
    destruct (got_sigterm world n) eqn:Es.
    + cbn in H. inversion H; subst.
      pose proof (read_loop_total (without_shutdown world) conn (S fuel) n st1
                    (m :: file) (proj1 Hinv) Hlen) as Htot.
      destruct (state_at_end
                  (read_loop (without_shutdown world) conn (S fuel) n st1 (m :: file)))
        as [st2 |] eqn:E2.
      * destruct (read_loop_invariant (without_shutdown world) conn (S fuel) n st1
                    (m :: file) st2 Hinv E2) as [_ [more Hmore]].
        exists st2, more. auto.
      * destruct (read_loop (without_shutdown world) conn (S fuel) n st1 (m :: file));
          try discriminate. contradiction.
    + rewrite read_loop_unfold. cbn [without_shutdown got_sigterm].
      rewrite record_switch_without_shutdown.
      destruct (record_switch_progress world conn m st file (proj1 Hinv))
        as (c & Ec & Hc).
      rewrite Ec in H |- *.
      pose proof (record_switch_invariant world conn m st file c Hinv Ec) as Hc'.
      destruct c as [st' file' | e st'].
      * apply IH; [apply Hc' | simpl in Hlen; lia | exact H].
      * cbn in H |- *. inversion H; subst. exists st1, []. now rewrite app_nil_r.
Qed.

End Shutdown.

(** X5. A shutdown request only cuts the replay short. The fetches of a block
    reader that sees the flag are the first fetches of the same reader on the
    same file when the flag is never set: it skips nothing, reorders nothing
    and fetches nothing else. *)
Theorem shutdown_cuts_the_replay_short :
  forall (world : Reader.World) (filenum : nat) (f : SaveFile),
    exists more,
      Reader.fetches (Reader.ReadBlocks (without_shutdown world) filenum f)
      = Reader.fetches (Reader.ReadBlocks world filenum f) ++ more.
Proof.
  intros world filenum f. rewrite !ReadBlocks_fetches.
  cbn [without_shutdown Reader.guc_default_database].
  set (conn := if (filenum =? 1)%nat then Reader.guc_default_database world
               else sf_dbname f).
  change (Reader.initial (without_shutdown world)) with (Reader.initial world).
  pose proof (read_loop_total world conn (S (length (sf_data f))) 0
                (Reader.initial world) (sf_data f) (initial_in_range world)
                (Nat.lt_succ_diag_r _)) as Htot.
  destruct (state_at_end
              (Reader.read_loop world conn (S (length (sf_data f))) 0
                 (Reader.initial world) (sf_data f))) as [st1 |] eqn:E1.
  - destruct (read_loop_prefix world conn _ _ _ _ st1
                (initial_invariant world conn) (Nat.lt_succ_diag_r _) E1)
      as (st2 & more & -> & Hmore).
    exists more. exact Hmore.
  - destruct (Reader.read_loop world conn (S (length (sf_data f))) 0
                (Reader.initial world) (sf_data f)); try discriminate.
    contradiction.
Qed.

(** X4. The replayer comes to an end on every file. No sequence of bytes keeps
    [ReadBlocks] in its loops, the loop of a range record included: the worker
    returns or raises an error, and the passes over the file never outnumber
    its bytes. *)
Theorem ReadBlocks_comes_to_an_end :
  forall (world : Reader.World) (filenum : nat) (f : SaveFile),
    let conn := if (filenum =? 1)%nat then Reader.guc_default_database world
                else sf_dbname f in
    (Reader.exit (Reader.ReadBlocks world filenum f) = Reader.Completed
     \/ exists e, Reader.exit (Reader.ReadBlocks world filenum f) = Reader.Failed e)
    /\ (forall fuel,
           (length (sf_data f) < fuel)%nat ->
           Reader.read_loop world conn fuel 0 (Reader.initial world) (sf_data f)
           <> Reader.OutOfFuel
           /\ Reader.read_loop world conn fuel 0 (Reader.initial world) (sf_data f)
              = Reader.read_loop world conn (S (length (sf_data f))) 0
                  (Reader.initial world) (sf_data f)).
Proof.
  intros world filenum f conn. split.
  - pose proof (ReadBlocks_total world filenum f) as Htot.
    destruct (Reader.exit (Reader.ReadBlocks world filenum f)); eauto.
    contradiction.
  - intros fuel Hfuel. split.
    + apply read_loop_total; [apply initial_in_range | exact Hfuel].
    + apply read_loop_fuel; [apply initial_in_range | exact Hfuel | lia].
Qed.

(** ** Records that are passed over *)

Section PassedOver.
Import Reader.

Variable world : World.
Variable conn : string.

Lemma record_switch_fork st file :
  record_switch world conn marker_f st file = Some (fork_record world conn st file).
Proof. reflexivity. Qed.

Lemma record_switch_block st file :
  record_switch world conn marker_b st file = Some (block_record st file).
Proof. reflexivity. Qed.

Lemma record_switch_range st file :
  record_switch world conn marker_N st file = range_record st file.
Proof. reflexivity. Qed.

(** While [skip_relation] is set, fork, block and range records change no
    fetch: the loop goes on behind them, or ends within them. *)
Lemma skipped_records recs :
  forall fuel n st file,
    skip_relation st = true ->
    forallb within_relation recs = true ->
    exists st2,
      fetched st2 = fetched st
      /\ (read_loop world conn (length recs + fuel) n st (encode recs ++ file)
          = read_loop world conn fuel (n + length recs) st2 file
          \/ state_at_end
               (read_loop world conn (length recs + fuel) n st
                  (encode recs ++ file)) = Some st2).
Proof.
  induction recs as [| r recs IH]; intros fuel n st file Hskip Hrecs.
  - exists st. cbn. rewrite Nat.add_0_r. auto.
  - cbn [forallb] in Hrecs. apply andb_prop in Hrecs. destruct Hrecs as [Hr Hrecs].
    rewrite encode_cons, <- app_assoc. cbn [length Nat.add].
    replace (n + S (length recs))%nat with (S n + length recs)%nat by lia.
    destruct r as [v | v | v | v]; [discriminate | | |];
      cbn [encode_record]; rewrite <- app_comm_cons, read_loop_unfold;
      (destruct (got_sigterm world n); [exists st; cbn [state_at_end]; now auto |]);
      rewrite ?record_switch_fork, ?record_switch_block, ?record_switch_range.
    + unfold fork_record, read_object. rewrite fileRead_object.
      cbn [skip_relation set_forknum set_nblocks set_blocknum]. rewrite Hskip.
      cbv beta iota.
      match goal with
      | |- context [read_loop world conn _ (S n) ?st1 _] =>
          destruct (IH fuel (S n) st1 file Hskip Hrecs) as (st2 & Hf & Hloop)
      end.
      exists st2. split; [exact Hf | exact Hloop].
    + unfold block_record, read_object.
      destruct (record_forknum st =? InvalidForkNumber);
        [exists st; cbn [state_at_end]; now auto |].
      rewrite fileRead_object.
      cbn [skip_relation skip_fork set_blocknum]. rewrite Hskip. cbn [orb].
      cbv beta iota.
      match goal with
      | |- context [read_loop world conn _ (S n) ?st1 _] =>
          destruct (IH fuel (S n) st1 file Hskip Hrecs) as (st2 & Hf & Hloop)
      end.
      exists st2. split; [exact Hf | exact Hloop].
    + unfold range_record.
      destruct (record_blocknum st =? InvalidBlockNumber);
        [exists st; cbn [state_at_end]; now auto |].
      rewrite fileRead_object, Hskip. cbn [orb].
      destruct (IH fuel (S n) st file Hskip Hrecs) as (st2 & Hf & Hloop).
      exists st2. split; [exact Hf | exact Hloop].
Qed.

(** The same for block and range records while [skip_fork] is set. *)
Lemma skipped_blocks recs :
  forall fuel n st file,
    skip_fork st = true ->
    forallb within_fork recs = true ->
    exists st2,
      fetched st2 = fetched st
      /\ (read_loop world conn (length recs + fuel) n st (encode recs ++ file)
          = read_loop world conn fuel (n + length recs) st2 file
          \/ state_at_end
               (read_loop world conn (length recs + fuel) n st
                  (encode recs ++ file)) = Some st2).
Proof.
  induction recs as [| r recs IH]; intros fuel n st file Hskip Hrecs.
  - exists st. cbn. rewrite Nat.add_0_r. auto.
  - cbn [forallb] in Hrecs. apply andb_prop in Hrecs. destruct Hrecs as [Hr Hrecs].
    rewrite encode_cons, <- app_assoc. cbn [length Nat.add].
    replace (n + S (length recs))%nat with (S n + length recs)%nat by lia.
    destruct r as [v | v | v | v]; [discriminate | discriminate | |];
      cbn [encode_record]; rewrite <- app_comm_cons, read_loop_unfold;
      (destruct (got_sigterm world n); [exists st; cbn [state_at_end]; now auto |]);
      rewrite ?record_switch_fork, ?record_switch_block, ?record_switch_range.
    + unfold block_record, read_object.
      destruct (record_forknum st =? InvalidForkNumber);
        [exists st; cbn [state_at_end]; now auto |].
      rewrite fileRead_object.
      cbn [skip_relation skip_fork set_blocknum]. rewrite Hskip, orb_true_r.
      cbv beta iota.
      match goal with
      | |- context [read_loop world conn _ (S n) ?st1 _] =>
          destruct (IH fuel (S n) st1 file Hskip Hrecs) as (st2 & Hf & Hloop)
      end.
      exists st2. split; [exact Hf | exact Hloop].
    + unfold range_record.
      destruct (record_blocknum st =? InvalidBlockNumber);
        [exists st; cbn [state_at_end]; now auto |].
      rewrite fileRead_object, Hskip, orb_true_r. cbn [orb].
      destruct (IH fuel (S n) st file Hskip Hrecs) as (st2 & Hf & Hloop).
      exists st2. split; [exact Hf | exact Hloop].
Qed.

End PassedOver.

(** X6. A relation that does not resolve is passed over. When the filenode of
    a relation record resolves to no relation in the database connected to,
    the fork, block and range records behind it cause no fetch: the loop goes
    on behind them with the fetches it had before the relation record, or it
    has ended within them with these fetches. *)
Theorem unresolved_relation_is_skipped :
  forall (world : Reader.World) (conn : string) (fuel n : nat)
         (st : Reader.State) (v : Oid) (recs : list SaveRecord)
         (file : list byte),
    is_uint32 v ->
    Reader.GetRelOid world conn v = InvalidOid ->
    forallb within_relation recs = true ->
    exists st2,
      Reader.fetched st2 = Reader.fetched st
      /\ (Reader.read_loop world conn (S (length recs) + fuel) n st
            (encode (RelRec v :: recs) ++ file)
          = Reader.read_loop world conn fuel (n + S (length recs)) st2 file
          \/ state_at_end
               (Reader.read_loop world conn (S (length recs) + fuel) n st
                  (encode (RelRec v :: recs) ++ file)) = Some st2).
Proof.
  intros world conn fuel n st v recs file Hv Hrel Hrecs.
  rewrite encode_cons, <- app_assoc. cbn [encode_record Nat.add].
  rewrite <- app_comm_cons, read_loop_unfold.
  destruct (Reader.got_sigterm world n); [exists st; cbn [state_at_end]; now auto |].
  destruct (relation_record_spec world conn st v (encode recs ++ file) Hv)
    as (st1 & E1 & _ & _ & _ & _ & _ & _ & Hf & _ & Hs).
  rewrite E1. rewrite Hrel in Hs. cbn in Hs. destruct Hs as [Hs _].
  destruct (skipped_records world conn recs fuel (S n) st1 file Hs Hrecs)
    as (st2 & Hf2 & Hloop).
  exists st2. split; [congruence |].
  replace (n + S (length recs))%nat with (S n + length recs)%nat by lia.
  exact Hloop.
Qed.

Lemma unresolved_relation_is_skipped_witness :
  let world := Reader.mkWorld "postgres"
                 (fun _ f => if f =? 42 then [] else [Some (f + 1000)])
                 (fun _ _ _ => true) (fun _ _ _ => 100)
                 (fun _ => false) true 0 0 0 in
  let recs := [ForkRec 0; BlockRec 10; RangeRec 2; ForkRec 1; BlockRec 0] in
  let file := encode [RelRec 43; ForkRec 0; BlockRec 7] in
  Reader.fetches
    (Reader.ReadBlocks world 2
       (mkSaveFile "db1" (encode (RelRec 42 :: recs) ++ file)))
  = [Reader.mkFetch (Some 1043) 0 7]
  /\ exists st2,
       Reader.fetched st2 = []
       /\ (Reader.read_loop world "db1" (6 + 16) 0 (Reader.initial world)
             (encode (RelRec 42 :: recs) ++ file)
           = Reader.read_loop world "db1" 16 (0 + 6) st2 file
           \/ state_at_end
                (Reader.read_loop world "db1" (6 + 16) 0 (Reader.initial world)
                   (encode (RelRec 42 :: recs) ++ file)) = Some st2).
Proof.
  intros world recs file. split; [vm_compute; reflexivity |].
  apply (unresolved_relation_is_skipped world "db1" 16 0 (Reader.initial world)
           42 recs file).
  - unfold is_uint32. lia.
  - reflexivity.
  - reflexivity.
Defined.

(** X7. A fork that does not exist is passed over. When the relation is open
    and [smgrexists] denies the fork of a fork record, the block and range
    records behind it cause no fetch. *)
Theorem missing_fork_is_skipped :
  forall (world : Reader.World) (conn : string) (fuel n : nat)
         (st : Reader.State) (relid : Oid) (k : ForkNumber)
         (recs : list SaveRecord) (file : list byte),
    Reader.skip_relation st = false ->
    Reader.rel st = Some relid ->
    is_int32 k ->
    Reader.smgrexists world conn relid k = false ->
    forallb within_fork recs = true ->
    exists st2,
      Reader.fetched st2 = Reader.fetched st
      /\ (Reader.read_loop world conn (S (length recs) + fuel) n st
            (encode (ForkRec k :: recs) ++ file)
          = Reader.read_loop world conn fuel (n + S (length recs)) st2 file
          \/ state_at_end
               (Reader.read_loop world conn (S (length recs) + fuel) n st
                  (encode (ForkRec k :: recs) ++ file)) = Some st2).
Proof.
  intros world conn fuel n st relid k recs file Hskip Hrel Hk Hfork Hrecs.
  rewrite encode_cons, <- app_assoc. cbn [encode_record Nat.add].
  rewrite <- app_comm_cons, read_loop_unfold.
  destruct (Reader.got_sigterm world n); [exists st; cbn [state_at_end]; now auto |].
  destruct (fork_record_spec world conn st k (encode recs ++ file) Hk)
    as (st1 & E1 & _ & _ & _ & _ & _ & _ & Hf & _ & _ & Hs);
    [intros _; congruence |].
  rewrite E1. specialize (Hs relid Hskip Hrel). rewrite Hfork in Hs.
  destruct (skipped_blocks world conn recs fuel (S n) st1 file Hs Hrecs)
    as (st2 & Hf2 & Hloop).
  exists st2. split; [congruence |].
  replace (n + S (length recs))%nat with (S n + length recs)%nat by lia.
  exact Hloop.
Qed.

Lemma missing_fork_is_skipped_witness :
  let world := Reader.mkWorld "postgres" (fun _ f => [Some (f + 1000)])
                 (fun _ _ k => k =? 0) (fun _ _ _ => 100)
                 (fun _ => false) true 0 0 0 in
  let st := Reader.mkState 42 (-1) 0xFFFFFFFF (Some 1042) false false false 0 0 [] in
  let file := encode [ForkRec 0; BlockRec 7] in
  Reader.fetches
    (Reader.ReadBlocks world 2
       (mkSaveFile "db1"
          (encode [RelRec 42; ForkRec 1; BlockRec 10; RangeRec 2] ++ file)))
  = [Reader.mkFetch (Some 1042) 0 7]
  /\ exists st2,
       Reader.fetched st2 = []
       /\ (Reader.read_loop world "db1" (3 + 11) 1 st
             (encode [ForkRec 1; BlockRec 10; RangeRec 2] ++ file)
           = Reader.read_loop world "db1" 11 (1 + 3) st2 file
           \/ state_at_end
                (Reader.read_loop world "db1" (3 + 11) 1 st
                   (encode [ForkRec 1; BlockRec 10; RangeRec 2] ++ file))
              = Some st2).
Proof.
  intros world st file. split; [vm_compute; reflexivity |].
  apply (missing_fork_is_skipped world "db1" 11 1 st 1042 1
           [BlockRec 10; RangeRec 2] file).
  - reflexivity.
  - reflexivity.
  - unfold is_int32. lia.
  - reflexivity.
  - reflexivity.
Defined.

(** X8. A block past the end of its fork is passed over with its range. When
    the block of a block record is not below the size of the fork, the block
    is not fetched, and neither is any block of the range record behind it. *)
Theorem block_past_the_end_is_skipped :
  forall (world : Reader.World) (conn : string) (fuel n : nat)
         (st : Reader.State) (b len : BlockNumber) (file : list byte),
    is_uint32 b ->
    Reader.nblocks st <= b ->
    exists st2,
      Reader.fetched st2 = Reader.fetched st
      /\ (Reader.read_loop world conn (2 + fuel) n st
            (encode [BlockRec b; RangeRec len] ++ file)
          = Reader.read_loop world conn fuel (n + 2) st2 file
          \/ state_at_end
               (Reader.read_loop world conn (2 + fuel) n st
                  (encode [BlockRec b; RangeRec len] ++ file)) = Some st2).
Proof.
  intros world conn fuel n st b len file Hb Hn.
  cbn [encode flat_map encode_record Nat.add]. rewrite app_nil_r.
  rewrite <- app_assoc, <- !app_comm_cons, read_loop_unfold.
  destruct (Reader.got_sigterm world n); [exists st; cbn [state_at_end]; now auto |].
  rewrite record_switch_block.
  unfold Reader.block_record, Reader.read_object.
  destruct (Reader.record_forknum st =? InvalidForkNumber);
    [exists st; cbn [state_at_end]; now auto |].
  rewrite fileRead_object, le_combine_object_bytes, to_uint32_small by exact Hb.
  cbn [Reader.skip_relation Reader.skip_fork Reader.set_blocknum
       Reader.record_blocknum Reader.nblocks].
  replace (n + 2)%nat with (S (S n)) by lia.
  assert (Hnext : forall st1,
             Reader.fetched st1 = Reader.fetched st ->
             Reader.skip_relation st1 || Reader.skip_fork st1
             || Reader.skip_block st1 = true ->
             exists st2,
               Reader.fetched st2 = Reader.fetched st
               /\ (Reader.read_loop world conn (S fuel) (S n) st1
                     (marker_N :: object_bytes len ++ file)
                   = Reader.read_loop world conn fuel (S (S n)) st2 file
                   \/ state_at_end
                        (Reader.read_loop world conn (S fuel) (S n) st1
                           (marker_N :: object_bytes len ++ file)) = Some st2)).
  { intros st1 Hf1 Hs1. rewrite read_loop_unfold.
    destruct (Reader.got_sigterm world (S n)); [exists st1; cbn [state_at_end]; now auto |].
    rewrite record_switch_range.
    unfold Reader.range_record.
    destruct (Reader.record_blocknum st1 =? InvalidBlockNumber);
      [exists st1; cbn [state_at_end]; now auto |].
    rewrite fileRead_object, Hs1. exists st1. auto. }
  destruct (Reader.skip_relation st || Reader.skip_fork st) eqn:Eskip.
  - apply Hnext; [reflexivity |]. cbn. now rewrite Eskip.
  - replace (b >=? Reader.nblocks st) with true
      by (symmetry; rewrite Z.geb_leb; apply Z.leb_le; exact Hn).
    apply Hnext; [reflexivity |]. cbn. apply orb_true_r.
Qed.

Lemma block_past_the_end_is_skipped_witness :
  let world := Reader.mkWorld "postgres" (fun _ f => [Some (f + 1000)])
                 (fun _ _ _ => true) (fun _ _ _ => 10)
                 (fun _ => false) true 0 0 0 in
  let st := Reader.mkState 42 0 0xFFFFFFFF (Some 1042) false false false 10 0 [] in
  let file := encode [BlockRec 3] in
  Reader.fetches
    (Reader.ReadBlocks world 2
       (mkSaveFile "db1"
          (encode [RelRec 42; ForkRec 0; BlockRec 10; RangeRec 2] ++ file)))
  = [Reader.mkFetch (Some 1042) 0 3]
  /\ exists st2,
       Reader.fetched st2 = []
       /\ (Reader.read_loop world "db1" (2 + 6) 2 st
             (encode [BlockRec 10; RangeRec 2] ++ file)
           = Reader.read_loop world "db1" 6 (2 + 2) st2 file
           \/ state_at_end
                (Reader.read_loop world "db1" (2 + 6) 2 st
                   (encode [BlockRec 10; RangeRec 2] ++ file)) = Some st2).
Proof.
  intros world st file. split; [vm_compute; reflexivity |].
  apply (block_past_the_end_is_skipped world "db1" 6 2 st 10 2 file).
  - unfold is_uint32. lia.
  - cbn. lia.
Defined.

(** ** What the writer writes, the replayer accepts *)

Section Accepted.
Import Reader.

Variable world : World.
Variable conn : string.

Lemma record_switch_raises m st file e st' :
  record_switch world conn m st file = Some (Raise e st') -> e <> remove_failed.
Proof.
  unfold record_switch.
  destruct (Byte.eqb m marker_r); [| destruct (Byte.eqb m marker_f);
    [| destruct (Byte.eqb m marker_b); [| destruct (Byte.eqb m marker_N)]]].
  - unfold relation_record, read_object.
    destruct (fileRead sizeof_word file false); cbn;
      try destruct (GetRelOid world conn _ =? InvalidOid);
      intros H; inversion H; discriminate.
  - unfold fork_record, read_object.
    destruct (fileRead sizeof_word file false); cbn;
      try destruct (skip_relation st); try destruct (rel st);
      try destruct (smgrexists world conn _ _);
      intros H; inversion H; discriminate.
  - unfold block_record, read_object.
    destruct (record_forknum st =? InvalidForkNumber);
      [intros H; inversion H; discriminate |].
    destruct (fileRead sizeof_word file false); cbn;
      try destruct (skip_relation st || skip_fork st);
      try destruct (_ >=? nblocks st);
      intros H; inversion H; discriminate.
  - unfold range_record.
    destruct (record_blocknum st =? InvalidBlockNumber);
      [intros H; inversion H; discriminate |].
    destruct (fileRead sizeof_word file false);
      try destruct (skip_relation st || skip_fork st || skip_block st);
      try destruct (range_loop _ _ _ st);
      intros H; inversion H; discriminate.
  - intros H; inversion H; discriminate.
Qed.

Lemma read_loop_raises fuel :
  forall n st file e st',
    read_loop world conn fuel n st file = Error_ e st' -> e <> remove_failed.
Proof.
  induction fuel as [| fuel IH]; intros n st file e st' H; [discriminate |].
  destruct file as [| m file]; [discriminate |].
  rewrite read_loop_unfold in H.
  destruct (got_sigterm world n); [discriminate |].
  destruct (record_switch world conn m st file) as [[st1 file1 | e1 st1] |] eqn:Ec;
    try discriminate.
  - now apply IH in H.
  - inversion H; subst. now apply record_switch_raises in Ec.
Qed.

(** A file read to its end when no shutdown is requested is read to its end
    or left on the request otherwise. *)
Lemma read_loop_with_shutdown fuel :
  forall n st file st2,
    read_loop (without_shutdown world) conn fuel n st file = EndOfFile st2 ->
    exists st1,
      read_loop world conn fuel n st file = EndOfFile st1
      \/ read_loop world conn fuel n st file = Terminated st1.
Proof.
  induction fuel as [| fuel IH]; intros n st file st2 H; [discriminate |].
  destruct file as [| m file]; [exists st; now left |].
  rewrite read_loop_unfold in H |- *.
  cbn [without_shutdown got_sigterm] in H.
  rewrite record_switch_without_shutdown in H.
  destruct (got_sigterm world n); [exists st; now right |].
  destruct (record_switch world conn m st file) as [[st1 file1 | e1 st1] |];
    try discriminate.
  now apply IH in H.
Qed.

End Accepted.

Lemma ReadBlocks_with_shutdown world filenum f :
  Reader.exit (Reader.ReadBlocks (without_shutdown world) filenum f)
  = (if Reader.remove_succeeds world then Reader.Completed
     else Reader.Failed Reader.remove_failed) ->
  Reader.exit (Reader.ReadBlocks world filenum f)
  = (if Reader.remove_succeeds world then Reader.Completed
     else Reader.Failed Reader.remove_failed).
Proof.
  unfold Reader.ReadBlocks.
  cbn [without_shutdown Reader.guc_default_database].
  set (conn := if (filenum =? 1)%nat then Reader.guc_default_database world
               else sf_dbname f).
  change (Reader.initial (without_shutdown world)) with (Reader.initial world).
  destruct (Reader.read_loop (without_shutdown world) conn _ _ _ _)
    as [st2 | st2 | e st2 |] eqn:E2.
  - intros _. apply read_loop_with_shutdown in E2.
    destruct E2 as [st1 [-> | ->]]; unfold Reader.after_loop;
      destruct (Reader.remove_succeeds world); reflexivity.
  - apply read_loop_terminated in E2. destruct E2 as (k & _ & Hk). discriminate.
  - apply read_loop_raises in E2. cbn.
    destruct (Reader.remove_succeeds world); intros H; inversion H; congruence.
  - cbn. destruct (Reader.remove_succeeds world); discriminate.
Qed.

Lemma replays_of_exit world name gs :
  forall n r,
    In r (replays_of world name n gs) ->
    Reader.exit r = if Reader.remove_succeeds world then Reader.Completed
                    else Reader.Failed Reader.remove_failed.
Proof.
  induction gs as [| g gs IH]; intros n r H; [destruct H |].
  cbn [replays_of] in H. destruct H as [<- | H]; [reflexivity | eauto].
Qed.

(** X2. What the writer writes, the replayer accepts. On every save-file of a
    run of [SaveBuffers] over valid buffers, [ReadBlocks] raises none of its
    errors about the file: whatever the relations have become, whatever its
    uninitialised cursors hold and whenever a shutdown is requested, it goes
    through to [remove], and fails only if [remove] does. *)
Theorem writer_output_is_accepted :
  forall (world : Reader.World) (name : Oid -> string)
         (scanned : list SavedBuffer) (filenum : nat) (f : SaveFile),
    Forall valid_page scanned ->
    In (filenum, f) (Saver.save_files name scanned) ->
    Reader.exit (Reader.ReadBlocks world filenum f)
    = if Reader.remove_succeeds world then Reader.Completed
      else Reader.Failed Reader.remove_failed.
Proof.
  intros world name scanned filenum f Hv Hin.
  apply ReadBlocks_with_shutdown.
  assert (Hr : In (Reader.ReadBlocks (without_shutdown world) filenum f)
                  (replay_all (without_shutdown world)
                     (Saver.save_files name scanned))).
  { unfold replay_all. apply in_map_iff. exists (filenum, f). auto. }
  rewrite replay_of_saved_files in Hr; [| reflexivity | exact Hv].
  apply replays_of_exit in Hr. exact Hr.
Qed.

Lemma writer_output_is_accepted_witness :
  let world := Reader.mkWorld "postgres"
                 (fun _ f => if f =? 42 then [] else [Some (f + 1000)])
                 (fun _ _ k => k =? 0) (fun _ _ _ => 11)
                 (fun n => (2 <=? n)%nat) true 7 7 7 in
  let name := fun _ : Oid => "db1"%string in
  let scanned := [mkSavedBuffer 5 42 0 10; mkSavedBuffer 0 1260 0 0;
                  mkSavedBuffer 5 43 1 3; mkSavedBuffer 5 43 0 10;
                  mkSavedBuffer 5 43 0 11] in
  Forall (fun nf => Reader.exit (Reader.ReadBlocks world (fst nf) (snd nf))
                    = Reader.Completed)
         (Saver.save_files name scanned).
Proof.
  intros world name scanned. apply Forall_forall. intros [filenum f] Hin.
  apply (writer_output_is_accepted world name scanned filenum f); [| exact Hin].
  repeat constructor; cbn; try lia; discriminate.
Defined.

(** ** No page is lost *)

Lemma by_database_concat l : concat (by_database l) = l.
Proof.
  remember (length l) as k eqn:Hk. revert l Hk.
  induction k as [k IH] using lt_wf_ind; intros l Hk.
  destruct l as [| e l]; [reflexivity |].
  rewrite by_database_span. cbn [concat].
  pose proof (after_database_length (database e) l) as Hlen.
  rewrite (IH (length (after_database (database e) l))
              ltac:(subst k; cbn; lia) _ eq_refl).
  cbn [app]. now rewrite of_after_database.
Qed.

Lemma requests_of_live_groups world name gs :
  Forall (Forall (fun p => forall conn, live world conn p = true)) gs ->
  (forall c c' f, Reader.GetRelOid world c f = Reader.GetRelOid world c' f) ->
  forall n,
    map snd (requests (replays_of world name n gs))
    = map (fetch_of world (Reader.guc_default_database world)) (concat gs).
Proof.
  intros Hlive Hsame. induction Hlive as [| g gs Hg Hgs IH]; intros n;
    [reflexivity |].
  cbn [replays_of requests flat_map concat Reader.connected_to Reader.fetches].
  rewrite !map_app, map_map. cbn [snd]. rewrite map_id.
  fold (requests (replays_of world name (S n) gs)). rewrite IH. f_equal.
  unfold expected_fetches.
  rewrite forallb_filter_id
    by (apply forallb_forall; intros p Hp; rewrite Forall_forall in Hg; now apply Hg).
  apply map_ext. intros p. unfold fetch_of.
  now rewrite (Hsame _ (Reader.guc_default_database world)).
Qed.

(** X21. No page is lost and none is listed twice. In a server where every
    scanned page is still there, and where a filenode resolves to the same
    relation in every database, the block readers of the save-files of a scan
    fetch every scanned page exactly once: the fetches are those of the
    scanned pages, up to their order. *)
Theorem every_scanned_page_is_fetched_once :
  forall (world : Reader.World) (name : Oid -> string)
         (scanned : list SavedBuffer),
    (forall n, Reader.got_sigterm world n = false) ->
    Forall valid_page scanned ->
    (forall conn p, In p scanned -> live world conn p = true) ->
    (forall c c' f, Reader.GetRelOid world c f = Reader.GetRelOid world c' f) ->
    Permutation
      (map snd (requests (replay_all world (Saver.save_files name scanned))))
      (map (fetch_of world (Reader.guc_default_database world)) scanned).
Proof.
  intros world name scanned Hsig Hv Hlive Hsame.
  rewrite replay_of_saved_files by assumption.
  rewrite requests_of_live_groups; [| | exact Hsame].
  - rewrite by_database_concat. apply Permutation_map, Permutation_sym, pg_qsort_perm.
  - apply by_database_Forall. apply Forall_forall. intros p Hp conn.
    apply Hlive. eapply Permutation_in; [symmetry; apply pg_qsort_perm | exact Hp].
Qed.

Lemma every_scanned_page_is_fetched_once_witness :
  let world := Reader.mkWorld "postgres" (fun _ f => [Some (f + 1000)])
                 (fun _ _ _ => true) (fun _ _ _ => 100)
                 (fun _ => false) true 0 0 0 in
  let name := fun _ : Oid => "db1"%string in
  let scanned := [mkSavedBuffer 5 42 0 10; mkSavedBuffer 7 3 1 0;
                  mkSavedBuffer 5 42 0 12; mkSavedBuffer 5 42 0 11] in
  length (requests (replay_all world (Saver.save_files name scanned))) = 4%nat.
Proof.
  intros world name scanned.
  rewrite <- (length_map snd).
  rewrite (Permutation_length
             (every_scanned_page_is_fetched_once world name scanned
                ltac:(reflexivity)
                ltac:(repeat constructor; cbn; try lia; discriminate)
                ltac:(intros conn p Hp; cbn in Hp;
                      repeat (destruct Hp as [<- | Hp]; [reflexivity |]);
                      destruct Hp)
                ltac:(reflexivity))).
  reflexivity.
Defined.

(** ** The comparator and the scan, once more *)

(** X13. The comparator orders the entries. [SavedBufferCmp] answers -1, 0 or
    1; exchanging its arguments changes the sign of the answer; its order is
    transitive; and it is the order of the keys (database, filenode, forknum,
    blocknum), compared field by field. *)
Theorem SavedBufferCmp_orders_the_entries :
  forall a b c : SavedBuffer,
    (SavedBufferCmp a b = -1 \/ SavedBufferCmp a b = 0 \/ SavedBufferCmp a b = 1)
    /\ SavedBufferCmp b a = - SavedBufferCmp a b
    /\ (SavedBufferCmp a b <= 0 -> SavedBufferCmp b c <= 0 ->
        SavedBufferCmp a c <= 0)
    /\ (SavedBufferCmp a b < 0 <-> key_lt a b).
Proof.
  intros a b c. split; [apply SavedBufferCmp_values |].
  split; [apply SavedBufferCmp_antisym |].
  split; [apply cmp_le_trans | apply SavedBufferCmp_lt_iff].
Qed.



(** ** The assertions of the writer *)

Section WriterAssertions.
Import Saver.

Variable get_database_name : Oid -> string.

Lemma file_fileWrite bytes st : file st <> None -> file (fileWrite bytes st) <> None.
Proof.
  unfold fileWrite. destruct (file st) as [[path f] |] eqn:E; cbn; congruence.
Qed.

Lemma file_write_entry buf rest st :
  file st <> None -> file (write_entry buf rest st) <> None.
Proof.
  intros H. unfold write_entry.
  assert (Hm : file (mark_relation_and_fork buf st) <> None).
  { unfold mark_relation_and_fork.
    assert (Hr : file (if negb (filenode buf =? prev_filenode st)
                       then next_filenode buf st else st) <> None).
    { destruct (negb (filenode buf =? prev_filenode st)); [| exact H].
      unfold next_filenode. cbn [set_trackers file]. now do 2 apply file_fileWrite. }
    destruct (negb (forknum buf =? _)); [| exact Hr].
    unfold next_forknum. cbn [set_trackers file]. now do 2 apply file_fileWrite. }
  match goal with
  | |- file (if ?c then write_range ?s else ?s) <> None =>
      assert (Hs : file s <> None);
      [| destruct c; [unfold write_range; now do 2 apply file_fileWrite | exact Hs]]
  end.
  cbn [set_trackers file]. unfold write_block. cbn [set_trackers file].
  now do 2 apply file_fileWrite.
Qed.

Lemma file_loop_body i buf rest st :
  (i = O \/ file st <> None) ->
  file (loop_body get_database_name i buf rest st) <> None.
Proof.
  intros H. unfold loop_body. apply file_write_entry. unfold open_save_file.
  assert (Hf : file (if (i =? 0)%nat then first_buffer buf st else st) <> None).
  { destruct (Nat.eqb_spec i 0) as [Hi | Hi]; [cbn; discriminate |].
    destruct H; [contradiction | assumption]. }
  destruct (negb (database buf =? prev_database _)); [cbn; discriminate | exact Hf].
Qed.

Lemma file_save_fold bufs :
  forall i covered st,
    file st <> None ->
    file (save_fold get_database_name i covered bufs st) <> None.
Proof.
  induction bufs as [| buf rest IH]; intros i covered st H; [exact H |].
  destruct covered as [| c]; cbn [save_fold]; apply IH; [| exact H].
  apply file_loop_body. now right.
Qed.

(** Which of the two assertions a run violates. *)
Lemma violated_SaveBuffers scanned :
  violated (SaveBuffers get_database_name scanned)
  = match pg_qsort SavedBufferCmp scanned with
    | [] => [file_not_null]
    | first :: _ =>
        if database first =? InvalidOid then [] else [first_buffer_is_global]
    end.
Proof.
  unfold SaveBuffers.
  destruct (pg_qsort SavedBufferCmp scanned) as [| first rest]; [reflexivity |].
  rewrite save_loop_fold by lia. cbn [save_fold].
  set (st1 := loop_body get_database_name 0 first rest initial).
  assert (Hv1 : violated st1
                = if database first =? InvalidOid then []
                  else [first_buffer_is_global]).
  { unfold st1, loop_body. rewrite violated_write_entry, open_save_file_first.
    reflexivity. }
  assert (Hf1 : file st1 <> None) by (apply file_loop_body; now left).
  set (st2 := save_fold get_database_name 1 _ rest st1).
  assert (Hv2 : violated st2 = violated st1)
    by (apply violated_save_fold; discriminate).
  assert (Hf2 : file st2 <> None) by now apply file_save_fold.
  clearbody st2. unfold fileClose, Assert.
  destruct (file st2) as [f |] eqn:Ef; [| contradiction].
  cbn. rewrite Ef. cbn. now rewrite Hv2, Hv1.
Qed.

End WriterAssertions.

(** X11. When the assertions of the writer hold. [SaveBuffers] runs through
    without violating [Assert(buf->database == InvalidOid)] or
    [Assert(file != NULL)] exactly when the scan holds a page of the global
    namespace. *)
Theorem writer_assertions_need_a_global_page :
  forall (name : Oid -> string) (scanned : list SavedBuffer),
    Forall (fun p => 0 <= database p) scanned ->
    (Saver.violated (Saver.SaveBuffers name scanned) = []
     <-> exists p, In p scanned /\ database p = InvalidOid).
Proof.
  intros name scanned Hdb. rewrite violated_SaveBuffers.
  pose proof (pg_qsort_perm scanned) as Hperm.
  pose proof (pg_qsort_sorted scanned) as Hs.
  destruct (pg_qsort SavedBufferCmp scanned) as [| first rest].
  - apply Permutation_sym, Permutation_nil in Hperm. subst.
    split; [discriminate | intros (p & [] & _)].
  - destruct (Z.eqb_spec (database first) InvalidOid) as [E | E].
    + split; [intros _ | reflexivity]. exists first. split; [| exact E].
      eapply Permutation_in; [symmetry; exact Hperm | now left].
    + split; [discriminate |]. intros (p & Hp & Hp0). exfalso. apply E.
      assert (Hf : 0 <= database first).
      { rewrite Forall_forall in Hdb. apply Hdb.
        eapply Permutation_in; [symmetry; exact Hperm | now left]. }
      assert (Hin : In p (first :: rest)) by (eapply Permutation_in; eauto).
      destruct Hin as [-> | Hin]; [exact Hp0 |].
      inversion Hs as [| ? ? _ Hall]; subst.
      rewrite Forall_forall in Hall. specialize (Hall p Hin).
      unfold cmp_le in Hall. unfold InvalidOid in *. cmp_cases; lia.
Qed.

Lemma writer_assertions_need_a_global_page_witness :
  Saver.violated
    (Saver.SaveBuffers (fun _ => "db1"%string)
       [mkSavedBuffer 5 42 0 10; mkSavedBuffer 0 1260 0 0]) = []
  /\ Saver.violated
       (Saver.SaveBuffers (fun _ => "db1"%string) [mkSavedBuffer 5 42 0 10])
     <> [].
Proof.
  split.
  - apply (writer_assertions_need_a_global_page (fun _ => "db1"%string)
             [mkSavedBuffer 5 42 0 10; mkSavedBuffer 0 1260 0 0]).
    + repeat constructor; cbn; lia.
    + exists (mkSavedBuffer 0 1260 0 0). cbn. auto.
  - intros H.
    apply (writer_assertions_need_a_global_page (fun _ => "db1"%string)
             [mkSavedBuffer 5 42 0 10]) in H.
    + destruct H as (p & [<- | []] & Hp). discriminate.
    + repeat constructor; cbn; lia.
Defined.

(** ** One save-file for each database *)

Lemma files_of_numbers name gs :
  forall n, map fst (files_of name n gs) = seq n (length gs).
Proof.
  induction gs as [| g gs IH]; intros n; [reflexivity |].
  cbn [files_of map fst length seq]. now rewrite IH.
Qed.

Lemma files_of_length name gs : forall n, length (files_of name n gs) = length gs.
Proof.
  induction gs as [| g gs IH]; intros n; [reflexivity |].
  cbn [files_of length]. now rewrite IH.
Qed.

Lemma files_of_names name gs :
  forall n k f,
    In (k, f) (files_of name n gs) ->
    (n <= k)%nat
    /\ exists g, In g gs
                 /\ sf_dbname f
                    = if (k =? 1)%nat then EmptyString
                      else name (database (hd (mkSavedBuffer 0 0 0 0) g)).
Proof.
  induction gs as [| g gs IH]; intros n k f H; [destruct H |].
  cbn [files_of] in H. destruct H as [H | H].
  - inversion H; subst. split; [lia |]. exists g. split; [now left | reflexivity].
  - apply IH in H. destruct H as [Hk (g' & Hg' & Hn)].
    split; [lia |]. exists g'. split; [now right | exact Hn].
Qed.

Lemma by_database_groups l :
  forall g, In g (by_database l) -> exists e, hd_error g = Some e /\ In e l.
Proof.
  remember (length l) as k eqn:Hk. revert l Hk.
  induction k as [k IH] using lt_wf_ind; intros l Hk g Hg.
  destruct l as [| e l]; [destruct Hg |].
  rewrite by_database_span in Hg. destruct Hg as [<- | Hg].
  - exists e. split; [reflexivity | now left].
  - pose proof (after_database_length (database e) l) as Hlen.
    destruct (IH (length (after_database (database e) l))
                 ltac:(subst k; cbn; lia) _ eq_refl g Hg) as (e' & He' & Hin).
    exists e'. split; [exact He' |]. right.
    clear - Hin. induction l as [| x l IHl]; [destruct Hin |].
    cbn [after_database] in Hin.
    destruct (database x =? database e); [right; now apply IHl | exact Hin].
Qed.

Lemma by_database_count l :
  StronglySorted cmp_le l ->
  length (by_database l) = length (nodup Z.eq_dec (map database l)).
Proof.
  induction l as [| e l IH]; intros Hs; [reflexivity |].
  inversion Hs as [| ? ? Hs' Hall]; subst.
  specialize (IH Hs').
  destruct l as [| e' l]; [reflexivity |].
  change (by_database (e :: e' :: l))
    with (match by_database (e' :: l) with
          | (e'' :: g) :: gs =>
              if database e =? database e'' then (e :: e'' :: g) :: gs
              else [e] :: (e'' :: g) :: gs
          | _ => [[e]]
          end).
  rewrite by_database_span in IH |- *.
  cbn [map nodup] in IH |- *. cbn [map] in IH.
  destruct (Z.eqb_spec (database e) (database e')) as [E | E].
  - destruct (in_dec Z.eq_dec (database e) (database e' :: map database l))
      as [Hin | Hnin]; [exact IH | exfalso; apply Hnin; now left].
  - destruct (in_dec Z.eq_dec (database e) (database e' :: map database l))
      as [Hin | Hnin]; [| cbn [length]; now rewrite <- IH].
    exfalso.
    assert (Hlt : forall y, In y (e' :: l) -> database e < database y).
    { intros y Hy.
      assert (He' : database e < database e').
      { inversion Hall as [| ? ? Hle _]; subst.
        unfold cmp_le in Hle. cmp_cases; lia. }
      destruct Hy as [<- | Hy]; [exact He' |].
      inversion Hs' as [| ? ? _ Hall']; subst.
      rewrite Forall_forall in Hall'. specialize (Hall' y Hy).
      unfold cmp_le in Hall'. cmp_cases; lia. }
    change (In (database e) (map database (e' :: l))) in Hin.
    apply in_map_iff in Hin. destruct Hin as (y & Hy & Hin).
    specialize (Hlt y Hin). lia.
Qed.

Lemma nodup_length_perm (l l' : list Z) :
  Permutation l l' ->
  length (nodup Z.eq_dec l) = length (nodup Z.eq_dec l').
Proof.
  intros H. apply Permutation_length.
  apply NoDup_Permutation; try apply NoDup_nodup.
  intros x. rewrite !nodup_In. split; apply Permutation_in; [| symmetry]; exact H.
Qed.

(** X12. One save-file for each database. The save-files of a run are numbered
    1, 2, ... without a gap, there are as many as the scan holds different
    databases, file 1 has the empty name in its header and every other file
    the name of the database of a scanned page. *)
Theorem one_save_file_for_each_database :
  forall (name : Oid -> string) (scanned : list SavedBuffer),
    Forall page_in_range scanned ->
    let files := Saver.save_files name scanned in
    map fst files = seq 1 (length files)
    /\ length files = length (nodup Z.eq_dec (map database scanned))
    /\ (forall f, In (1%nat, f) files -> sf_dbname f = EmptyString)
    /\ (forall n f, In (n, f) files -> n <> 1%nat ->
          exists p, In p scanned /\ sf_dbname f = name (database p)).
Proof.
  intros name scanned Hrange. cbv zeta.
  rewrite SaveBuffers_files by exact Hrange.
  rewrite files_of_numbers, files_of_length.
  split; [reflexivity |]. split; [| split].
  - rewrite by_database_count by apply pg_qsort_sorted.
    apply nodup_length_perm, Permutation_map, Permutation_sym, pg_qsort_perm.
  - intros f Hf. apply files_of_names in Hf. destruct Hf as [_ (g & _ & Hn)].
    exact Hn.
  - intros n f Hf Hn1. apply files_of_names in Hf. destruct Hf as [_ (g & Hg & Hn)].
    apply Nat.eqb_neq in Hn1. rewrite Hn1 in Hn.
    apply by_database_groups in Hg. destruct Hg as (e & He & Hin).
    exists e. split.
    + eapply Permutation_in; [symmetry; apply pg_qsort_perm | exact Hin].
    + destruct g; inversion He; subst. exact Hn.
Qed.

Lemma one_save_file_for_each_database_witness :
  map fst (Saver.save_files (fun d => if d =? 5 then "db1"%string else "db2"%string)
             [mkSavedBuffer 7 3 0 1; mkSavedBuffer 5 42 0 10;
              mkSavedBuffer 0 1260 0 0; mkSavedBuffer 5 42 0 11])
  = [1; 2; 3]%nat.
Proof.
  destruct (one_save_file_for_each_database
              (fun d => if d =? 5 then "db1"%string else "db2"%string)
              [mkSavedBuffer 7 3 0 1; mkSavedBuffer 5 42 0 10;
               mkSavedBuffer 0 1260 0 0; mkSavedBuffer 5 42 0 11])
    as (Hnum & Hlen & _).
  - repeat constructor; cbn; lia.
  - rewrite Hnum, Hlen. reflexivity.
Defined.

(** ** The workers from start to shutdown *)

Section LifecycleProperties.
Import Scheduler Lifecycle.

Variable parseSavefileName : string -> option Z.

Lemma RegisterWorker_worker pm id slot :
  match RegisterWorker pm id slot with
  | (true, _, w) => w = Some (worker_of id)
  | (false, _, w) => w = None
  end.
Proof.
  unfold RegisterWorker, worker_of. destruct (id =? 0); [reflexivity |].
  destruct (RegisterDynamicBackgroundWorker pm id); reflexivity.
Qed.

Lemma register_first_queue pm failed st :
  let run := register_first pm failed st in
  (dispatched (snd run) = None /\ pendingWorkers (fst run) = pendingWorkers st)
  \/ exists id,
       pendingWorkers st = id :: pendingWorkers (fst run)
       /\ dispatched (snd run) = Some (worker_of id).
Proof.
  unfold register_first. destruct (pendingWorkers st) as [| id rest] eqn:Eq.
  - left. cbn. auto.
  - pose proof (RegisterWorker_worker pm id (last_worker st)) as Hw.
    destruct (RegisterWorker pm id (last_worker st)) as [[[|] h] w]; cbn; subst w.
    + right. exists id. auto.
    + left. auto.
Qed.

(** One tick takes at most the first id from the queue, and only for the
    worker it registers. *)
Lemma tick_queue parallel pm st :
  let run := processOnePendingWorker parallel pm st in
  (dispatched (snd run) = None /\ pendingWorkers (fst run) = pendingWorkers st)
  \/ exists id,
       pendingWorkers st = id :: pendingWorkers (fst run)
       /\ dispatched (snd run) = Some (worker_of id).
Proof.
  unfold processOnePendingWorker.
  destruct (length (pendingWorkers st) =? 0)%nat; [left; cbn; auto |].
  destruct (last_worker st) as [h |]; [| apply register_first_queue].
  destruct (GetBackgroundWorkerPid pm h);
    try destruct (negb parallel); try (left; cbn; now auto);
    first [apply register_first_queue
          | apply (register_first_queue pm _ (mkState (pendingWorkers st) None))].
Qed.

Lemma main_loop_queue passes :
  forall gucs st sigterm,
    let run := main_loop gucs st sigterm passes in
    exists k,
      workers_of (loop_ticks run) = map worker_of (firstn k (pendingWorkers st))
      /\ pendingWorkers (loop_state run) = skipn k (pendingWorkers st).
Proof.
  induction passes as [| p rest IH]; intros gucs st sigterm; cbn [main_loop].
  - destruct sigterm; exists O; auto.
  - destruct sigterm; [exists O; auto |].
    pose proof (tick_queue (guc_parallel_enabled gucs) (pass_postmaster p) st)
      as Htick.
    destruct (processOnePendingWorker (guc_parallel_enabled gucs)
                (pass_postmaster p) st) as [st1 tick].
    cbn [fst snd] in Htick.
    destruct (pass_postmaster_death p).
    + cbn [loop_ticks loop_state workers_of flat_map].
      destruct Htick as [[Hd Hq] | (id & Hq & Hd)]; rewrite Hd.
      * exists O. cbn. auto.
      * exists 1%nat. rewrite Hq. cbn. auto.
    + cbn [loop_ticks loop_state workers_of flat_map].
      match goal with
      | |- context [main_loop ?g st1 ?s rest] =>
          destruct (IH g st1 s) as (k & Hw & Hs)
      end.
      fold (workers_of (loop_ticks
              (main_loop match pass_sighup p with
                         | Some reloaded => reloaded
                         | None => gucs
                         end st1 (pass_sigterm p) rest))).
      rewrite Hw, Hs.
      destruct Htick as [[Hd Hq] | (id & Hq & Hd)]; rewrite Hd.
      * exists k. rewrite Hq. auto.
      * exists (S k). rewrite Hq. cbn. auto.
Qed.

Lemma add_save_files names :
  forall st,
    pendingWorkers (fold_left (add_save_file parseSavefileName) names st)
    = pendingWorkers st ++ save_file_numbers parseSavefileName names
    /\ last_worker (fold_left (add_save_file parseSavefileName) names st)
       = last_worker st.
Proof.
  induction names as [| d_name names IH]; intros st; cbn [fold_left].
  - cbn. now rewrite app_nil_r.
  - destruct (IH (add_save_file parseSavefileName st d_name)) as [-> ->].
    unfold add_save_file, save_file_numbers. cbn [flat_map].
    destruct (parseSavefileName d_name); cbn; [| auto].
    now rewrite <- app_assoc.
Qed.

End LifecycleProperties.

(** X15. The block readers are registered in the order of the directory.
    Whatever the postmaster answers and whenever the signals arrive, the
    workers the buffer saver registers in its main loop are, in this order,
    the workers of the first save-files that [readdir] listed at its start:
    none is skipped, none is registered twice, none overtakes another; and the
    ids still pending are the rest of that list. *)
Theorem readers_are_registered_in_directory_order :
  forall (parseSavefileName : string -> option Z) (name : Oid -> string)
         (BM_VALID BM_TAG_VALID : Z) (gucs : Lifecycle.GUCs)
         (dir : Lifecycle.Listing) (got_sigterm : bool)
         (passes : list Lifecycle.Pass) (pool : list Saver.BufferDesc),
    let run := Lifecycle.BufferSaverMain parseSavefileName name BM_VALID
                 BM_TAG_VALID gucs dir got_sigterm passes pool in
    let found := save_file_numbers parseSavefileName (Lifecycle.d_names dir) in
    exists k,
      workers_of (Lifecycle.saver_ticks run) = map worker_of (firstn k found)
      /\ ((forall e, Lifecycle.saver_exit run <> Lifecycle.SaverError e) ->
          Lifecycle.guc_enabled gucs = true ->
          Scheduler.pendingWorkers (Lifecycle.saver_state run) = skipn k found).
Proof.
  intros parse name v t gucs dir sigterm passes pool. cbv zeta.
  unfold Lifecycle.BufferSaverMain, Lifecycle.RegisterBlockReaders.
  destruct (Lifecycle.guc_enabled gucs); cbn [negb].
  - destruct (Lifecycle.opendir_ok dir); cbn [negb];
      [| exists O; split; [reflexivity | intros H; exfalso; eapply H; reflexivity]].
    destruct (Lifecycle.readdir_failed dir);
      [exists O; split; [reflexivity | intros H; exfalso; eapply H; reflexivity] |].
    cbn [Lifecycle.saver_ticks Lifecycle.saver_state].
    match goal with
    | |- context [Lifecycle.main_loop ?g ?st ?s passes] =>
        destruct (main_loop_queue passes g st s) as (k & Hw & Hs);
        destruct (add_save_files parse (Lifecycle.d_names dir)
                    (Scheduler.mkState [] None)) as [Hq _]
    end.
    cbn [Scheduler.pendingWorkers app] in Hq. rewrite Hq in Hw, Hs.
    exists k. split; [exact Hw | intros _ _; exact Hs].
  - cbn [Lifecycle.saver_ticks Lifecycle.saver_state].
    destruct (main_loop_queue passes gucs (Scheduler.mkState [] None) sigterm)
      as (k & Hw & _).
    cbn [Scheduler.pendingWorkers] in Hw. rewrite firstn_nil in Hw.
    exists O. split; [exact Hw | discriminate].
Qed.

Section MainLoop.
Import Scheduler Lifecycle.

Lemma main_loop_shutdown passes :
  forall gucs st last,
    Forall quiet passes ->
    pass_postmaster_death last = false -> pass_sigterm last = true ->
    loop_exit (main_loop gucs st false (passes ++ [last])) = Shutdown
    /\ loop_gucs (main_loop gucs st false (passes ++ [last]))
       = reloaded gucs (passes ++ [last]).
Proof.
  induction passes as [| p rest IH]; intros gucs st last Hq Hd Ht;
    cbn [app main_loop].
  - destruct (processOnePendingWorker _ _ st) as [st1 tick].
    rewrite Hd, Ht. cbn. auto.
  - inversion Hq as [| ? ? [Hpd Hpt] Hq']; subst.
    destruct (processOnePendingWorker _ _ st) as [st1 tick].
    rewrite Hpd, Hpt. cbn [loop_exit loop_gucs].
    unfold reloaded. cbn [fold_left]. now apply IH.
Qed.

Lemma main_loop_left passes :
  forall gucs st sigterm,
    loop_exit (main_loop gucs st sigterm passes) = Shutdown ->
    sigterm = true
    \/ exists before p after,
         passes = before ++ p :: after
         /\ pass_sigterm p = true
         /\ Forall (fun q => pass_postmaster_death q = false) (before ++ [p]).
Proof.
  induction passes as [| p rest IH]; intros gucs st sigterm H;
    cbn [main_loop] in H.
  - destruct sigterm; [now left | discriminate].
  - destruct sigterm; [now left |]. right.
    destruct (processOnePendingWorker _ _ st) as [st1 tick].
    destruct (pass_postmaster_death p) eqn:Hd; [discriminate |].
    cbn [loop_exit] in H. apply IH in H.
    destruct H as [Ht | (before & q & after & -> & Ht & Hall)].
    + exists [], p, rest. cbn. repeat split; auto.
    + exists (p :: before), q, after. cbn. repeat split; auto.
Qed.

Lemma tick_registers parallel pm st id rest :
  pendingWorkers st = id :: rest ->
  accepting pm ->
  (parallel = true \/ forall h, GetBackgroundWorkerPid pm h = BGWH_STOPPED) ->
  pendingWorkers (fst (processOnePendingWorker parallel pm st)) = rest
  /\ dispatched (snd (processOnePendingWorker parallel pm st))
     = Some (worker_of id).
Proof.
  intros Hq Hacc Hrun.
  assert (Hreg : forall failed slot,
             pendingWorkers (fst (register_first pm failed (mkState (id :: rest) slot)))
             = rest
             /\ dispatched (snd (register_first pm failed (mkState (id :: rest) slot)))
                = Some (worker_of id)).
  { intros failed slot. unfold register_first, RegisterWorker, worker_of.
    cbn [pendingWorkers last_worker].
    destruct (id =? 0); [cbn; auto |].
    specialize (Hacc id).
    destruct (RegisterDynamicBackgroundWorker pm id); [cbn; auto | contradiction]. }
  unfold processOnePendingWorker. rewrite Hq. cbn [length Nat.eqb].
  destruct st as [q slot]. cbn [pendingWorkers last_worker] in *. subst q.
  destruct slot as [h |]; [| apply Hreg].
  destruct Hrun as [-> | Hstop].
  - cbn [negb]. destruct (GetBackgroundWorkerPid pm h); apply Hreg.
  - rewrite Hstop. apply Hreg.
Qed.

Lemma main_loop_drains passes :
  forall gucs st,
    Forall (fun p => quiet p /\ pass_sighup p = None
                     /\ accepting (pass_postmaster p)) passes ->
    (guc_parallel_enabled gucs = true
     \/ Forall (fun p => forall h,
                  GetBackgroundWorkerPid (pass_postmaster p) h = BGWH_STOPPED)
               passes) ->
    workers_of (loop_ticks (main_loop gucs st false passes))
    = map worker_of (firstn (length passes) (pendingWorkers st)).
Proof.
  induction passes as [| p rest IH]; intros gucs st Hall Hrun; [reflexivity |].
  inversion Hall as [| ? ? ([Hd Ht] & Hup & Hacc) Hall']; subst.
  assert (Hrun' : guc_parallel_enabled gucs = true
                  \/ Forall (fun p => forall h,
                               GetBackgroundWorkerPid (pass_postmaster p) h
                               = BGWH_STOPPED) rest).
  { destruct Hrun as [Hp | Hs]; [now left | right; now inversion Hs]. }
  cbn [main_loop length].
  destruct (pendingWorkers st) as [| id q] eqn:Eq.
  - unfold processOnePendingWorker. rewrite Eq. cbn [length Nat.eqb].
    rewrite Hd, Hup, Ht. cbn [loop_ticks workers_of flat_map dispatched app].
    fold (workers_of (loop_ticks (main_loop gucs st false rest))).
    rewrite IH by assumption. rewrite Eq, !firstn_nil. reflexivity.
  - assert (Hstep : guc_parallel_enabled gucs = true
                    \/ forall h, GetBackgroundWorkerPid (pass_postmaster p) h
                                 = BGWH_STOPPED).
    { destruct Hrun as [Hp | Hs]; [now left | right; now inversion Hs]. }
    destruct (tick_registers (guc_parallel_enabled gucs) (pass_postmaster p)
                st id q Eq Hacc Hstep) as [Hq Hw].
    destruct (processOnePendingWorker _ _ st) as [st1 tick].
    cbn [fst snd] in Hq, Hw.
    rewrite Hd, Hup, Ht. cbn [loop_ticks workers_of flat_map].
    fold (workers_of (loop_ticks (main_loop gucs st1 false rest))).
    rewrite Hw, IH, Hq by assumption. reflexivity.
Qed.

End MainLoop.

(** X17. The setting in force at shutdown decides. When the main loop is left
    by the shutdown request, the buffers are saved if and only if
    [pg_hibernator.enabled] is on after the last reload, whatever it was at
    the start; and a saver started with the setting off registers no block
    reader, even when a reload turns it on. *)
Theorem shutdown_saves_by_the_reloaded_setting :
  forall (parseSavefileName : string -> option Z) (name : Oid -> string)
         (BM_VALID BM_TAG_VALID : Z) (gucs : Lifecycle.GUCs)
         (dir : Lifecycle.Listing) (passes : list Lifecycle.Pass)
         (last : Lifecycle.Pass) (pool : list Saver.BufferDesc),
    (Lifecycle.guc_enabled gucs = true ->
     Lifecycle.opendir_ok dir = true /\ Lifecycle.readdir_failed dir = false) ->
    Forall quiet passes ->
    Lifecycle.pass_postmaster_death last = false ->
    Lifecycle.pass_sigterm last = true ->
    let run := Lifecycle.BufferSaverMain parseSavefileName name BM_VALID
                 BM_TAG_VALID gucs dir false (passes ++ [last]) pool in
    Lifecycle.saver_exit run
    = Lifecycle.Returned
        (if Lifecycle.guc_enabled (reloaded gucs (passes ++ [last]))
         then Some (Saver.SaveBuffers name
                      (Saver.scan_buffers BM_VALID BM_TAG_VALID pool))
         else None)
    /\ (Lifecycle.guc_enabled gucs = false ->
        workers_of (Lifecycle.saver_ticks run) = []).
Proof.
  intros parse name v t gucs dir passes last pool Hdir Hq Hd Ht. cbv zeta.
  unfold Lifecycle.BufferSaverMain, Lifecycle.RegisterBlockReaders.
  destruct (Lifecycle.guc_enabled gucs) eqn:Een; cbn [negb].
  - destruct (Hdir eq_refl) as [-> ->]. cbn [negb Lifecycle.saver_exit].
    match goal with
    | |- context [Lifecycle.main_loop gucs ?st false _] =>
        destruct (main_loop_shutdown passes gucs st last Hq Hd Ht) as [-> ->]
    end.
    split; [reflexivity | discriminate].
  - cbn [Lifecycle.saver_exit Lifecycle.saver_ticks].
    destruct (main_loop_shutdown passes gucs (Scheduler.mkState [] None) last
                Hq Hd Ht) as [-> ->].
    split; [reflexivity | intros _].
    destruct (main_loop_queue (passes ++ [last]) gucs (Scheduler.mkState [] None)
                false) as (k & Hw & _).
    cbn [Scheduler.pendingWorkers] in Hw. now rewrite firstn_nil in Hw.
Qed.

Lemma shutdown_saves_by_the_reloaded_setting_witness :
  let pm := Scheduler.mkPostmaster (fun _ => Scheduler.BGWH_STOPPED)
              (fun _ => Some 1%nat) in
  let run :=
    Lifecycle.BufferSaverMain (fun _ => Some 2) (fun _ => "db1"%string) 1 2
      (Lifecycle.mkGUCs false false)
      (Lifecycle.mkListing true ["2.save"%string] false) false
      ([Lifecycle.mkPass pm false None false]
       ++ [Lifecycle.mkPass pm false (Some (Lifecycle.mkGUCs true false)) true])
      [Saver.mkBufferDesc 3 0 1260 0 0] in
  Lifecycle.saver_exit run
  = Lifecycle.Returned
      (Some (Saver.SaveBuffers (fun _ => "db1"%string) [mkSavedBuffer 0 1260 0 0]))
  /\ workers_of (Lifecycle.saver_ticks run) = [].
Proof.
  intros pm run.
  destruct (shutdown_saves_by_the_reloaded_setting
              (fun _ => Some 2) (fun _ => "db1"%string) 1 2
              (Lifecycle.mkGUCs false false)
              (Lifecycle.mkListing true ["2.save"%string] false)
              [Lifecycle.mkPass pm false None false]
              (Lifecycle.mkPass pm false (Some (Lifecycle.mkGUCs true false)) true)
              [Saver.mkBufferDesc 3 0 1260 0 0]) as [Hexit Hnone].
  - discriminate.
  - repeat constructor.
  - reflexivity.
  - reflexivity.
  - split; [exact Hexit | apply Hnone; reflexivity].
Defined.

(** X18. The buffers are saved only at shutdown. [SaveBuffers] runs only after
    the shutdown request was seen, with [pg_hibernator.enabled] on at that
    time, on the buffer pool as it is then; no pass up to the one the request
    arrived in reported the death of the postmaster. *)
Theorem buffers_are_saved_only_at_shutdown :
  forall (parseSavefileName : string -> option Z) (name : Oid -> string)
         (BM_VALID BM_TAG_VALID : Z) (gucs : Lifecycle.GUCs)
         (dir : Lifecycle.Listing) (got_sigterm : bool)
         (passes : list Lifecycle.Pass) (pool : list Saver.BufferDesc)
         (saved : Saver.State),
    let run := Lifecycle.BufferSaverMain parseSavefileName name BM_VALID
                 BM_TAG_VALID gucs dir got_sigterm passes pool in
    Lifecycle.saver_exit run = Lifecycle.Returned (Some saved) ->
    saved = Saver.SaveBuffers name (Saver.scan_buffers BM_VALID BM_TAG_VALID pool)
    /\ Lifecycle.guc_enabled (Lifecycle.saver_gucs run) = true
    /\ (got_sigterm = true
        \/ exists before p after,
             passes = before ++ p :: after
             /\ Lifecycle.pass_sigterm p = true
             /\ Forall (fun q => Lifecycle.pass_postmaster_death q = false)
                       (before ++ [p])).
Proof.
  intros parse name v t gucs dir sigterm passes pool saved. cbv zeta.
  unfold Lifecycle.BufferSaverMain.
  destruct (Lifecycle.RegisterBlockReaders parse gucs dir _) as [[e |] st];
    [discriminate |].
  cbn [Lifecycle.saver_exit Lifecycle.saver_gucs].
  pose proof (main_loop_left passes gucs st sigterm) as Hleft.
  destruct (Lifecycle.loop_exit (Lifecycle.main_loop gucs st sigterm passes));
    try discriminate.
  destruct (Lifecycle.guc_enabled _); [| discriminate].
  intros H. inversion H; subst. auto.
Qed.

Lemma buffers_are_saved_only_at_shutdown_witness :
  let pm := Scheduler.mkPostmaster (fun _ => Scheduler.BGWH_STOPPED)
              (fun _ => Some 1%nat) in
  let passes := [Lifecycle.mkPass pm false None true;
                 Lifecycle.mkPass pm true None false] in
  exists before p after,
    passes = before ++ p :: after /\ Lifecycle.pass_sigterm p = true.
Proof.
  intros pm passes.
  destruct (buffers_are_saved_only_at_shutdown
              (fun _ => Some 2) (fun _ => "db1"%string) 1 2
              (Lifecycle.mkGUCs true false)
              (Lifecycle.mkListing true ["2.save"%string] false) false
              passes [Saver.mkBufferDesc 3 0 1260 0 0]
              (Saver.SaveBuffers (fun _ => "db1"%string) [mkSavedBuffer 0 1260 0 0])
              eq_refl)
    as (_ & _ & [H | (before & p & after & Hp & Ht & _)]); [discriminate |].
  exists before, p, after. auto.
Defined.

(** X16. The pending block readers are all registered, one in each pass. With
    a postmaster that accepts every registration, no reload and no signal,
    when restoring in parallel is enabled or every worker has stopped by the
    next pass, the first [n] passes of the main loop register the workers of
    the first [n] save-files of the directory. *)
Theorem pending_readers_are_registered_one_in_each_pass :
  forall (parseSavefileName : string -> option Z) (name : Oid -> string)
         (BM_VALID BM_TAG_VALID : Z) (gucs : Lifecycle.GUCs)
         (dir : Lifecycle.Listing) (passes : list Lifecycle.Pass)
         (pool : list Saver.BufferDesc),
    Lifecycle.guc_enabled gucs = true ->
    Lifecycle.opendir_ok dir = true ->
    Lifecycle.readdir_failed dir = false ->
    Forall (fun p => quiet p /\ Lifecycle.pass_sighup p = None
                     /\ accepting (Lifecycle.pass_postmaster p)) passes ->
    (Lifecycle.guc_parallel_enabled gucs = true
     \/ Forall (fun p => forall h,
                  Scheduler.GetBackgroundWorkerPid (Lifecycle.pass_postmaster p) h
                  = Scheduler.BGWH_STOPPED) passes) ->
    workers_of
      (Lifecycle.saver_ticks
         (Lifecycle.BufferSaverMain parseSavefileName name BM_VALID BM_TAG_VALID
            gucs dir false passes pool))
    = map worker_of
        (firstn (length passes)
           (save_file_numbers parseSavefileName (Lifecycle.d_names dir))).
Proof.
  intros parse name v t gucs dir passes pool Hen Hopen Hread Hall Hrun.
  unfold Lifecycle.BufferSaverMain, Lifecycle.RegisterBlockReaders.
  rewrite Hen, Hopen, Hread. cbn [negb Lifecycle.saver_ticks].
  rewrite main_loop_drains by assumption.
  destruct (add_save_files parse (Lifecycle.d_names dir)
              (Scheduler.mkState [] None)) as [-> _].
  reflexivity.
Qed.

Lemma pending_readers_are_registered_one_in_each_pass_witness :
  let pm := Scheduler.mkPostmaster (fun _ => Scheduler.BGWH_STARTED)
              (fun id => Some (Z.to_nat id)) in
  let parse := fun d_name : string =>
                 if String.eqb d_name "2.save" then Some 2
                 else if String.eqb d_name "3.save" then Some 3
                 else if String.eqb d_name "1.save" then Some 1
                 else None in
  workers_of
    (Lifecycle.saver_ticks
       (Lifecycle.BufferSaverMain parse (fun _ => "db1"%string) 1 2
          (Lifecycle.mkGUCs true true)
          (Lifecycle.mkListing true
             ["."; "2.save"; ".."; "3.save"; "1.save"]%string false)
          false
          [Lifecycle.mkPass pm false None false;
           Lifecycle.mkPass pm false None false] []))
  = [Scheduler.BlockReader 2; Scheduler.BlockReader 3].
Proof.
  intros pm parse.
  rewrite (pending_readers_are_registered_one_in_each_pass parse
             (fun _ => "db1"%string) 1 2 (Lifecycle.mkGUCs true true)).
  - reflexivity.
  - reflexivity.
  - reflexivity.
  - reflexivity.
  - repeat constructor; intros id; discriminate.
  - now left.
Defined.

(** ** A block reader and its save-file *)

Section AssignedFile.
Import Lifecycle.

Variable parseSavefileName : string -> option Z.

Lemma find_save_file_found id names filenum :
  find_save_file parseSavefileName id names = Some filenum ->
  filenum = id
  /\ exists d_name, In d_name names /\ parseSavefileName d_name = Some id.
Proof.
  induction names as [| d_name rest IH]; cbn [find_save_file]; [discriminate |].
  destruct (parseSavefileName d_name) as [n |] eqn:Ep.
  - destruct (Z.eqb_spec n id) as [-> | Hne].
    + intros H. inversion H; subst. split; [reflexivity |].
      exists d_name. split; [now left | exact Ep].
    + intros H. destruct (IH H) as [-> (d & Hd & Hp)].
      split; [reflexivity |]. exists d. split; [now right | exact Hp].
  - intros H. destruct (IH H) as [-> (d & Hd & Hp)].
    split; [reflexivity |]. exists d. split; [now right | exact Hp].
Qed.

Lemma find_save_file_missing id names :
  find_save_file parseSavefileName id names = None ->
  forall d_name, In d_name names -> parseSavefileName d_name <> Some id.
Proof.
  induction names as [| d_name rest IH]; cbn [find_save_file]; intros H d Hd;
    [destruct Hd |].
  destruct (parseSavefileName d_name) as [n |] eqn:Ep.
  - destruct (Z.eqb_spec n id) as [-> | Hne]; [discriminate |].
    destruct Hd as [<- | Hd]; [congruence | now apply IH].
  - destruct Hd as [<- | Hd]; [congruence | now apply IH].
Qed.

End AssignedFile.

(** X19. A block reader replays its own save-file or none. [BlockReaderMain]
    calls [ReadBlocks] exactly when the directory can be opened and lists a
    name that carries the id of the worker, and then with that id; when no
    name carries it, the worker raises an error and replays nothing. *)
Theorem block_reader_replays_its_own_file :
  forall (parseSavefileName : string -> option Z) (world : Reader.World)
         (savefile : Z -> SaveFile) (dir : Lifecycle.Listing) (id : Z),
    let run := Lifecycle.BlockReaderMain parseSavefileName world savefile dir id in
    let listed := exists d_name, In d_name (Lifecycle.d_names dir)
                                 /\ parseSavefileName d_name = Some id in
    (Lifecycle.opendir_ok dir = true /\ listed
     <-> run = Lifecycle.Replayed id
               (Reader.ReadBlocks world (Z.to_nat id) (savefile id)))
    /\ (forall filenum r, run = Lifecycle.Replayed filenum r -> filenum = id)
    /\ (~ listed -> exists e, run = Lifecycle.ReaderError e).
Proof.
  intros parse world savefile dir id. cbv zeta.
  unfold Lifecycle.BlockReaderMain.
  destruct (Lifecycle.opendir_ok dir); cbn [negb].
  - destruct (Lifecycle.find_save_file parse id (Lifecycle.d_names dir))
      as [filenum |] eqn:Ef.
    + apply find_save_file_found in Ef. destruct Ef as [-> Hlisted].
      split; [split; [reflexivity | auto] |].
      split; [intros ? ? H; now inversion H | intros H; contradiction].
    + pose proof (find_save_file_missing parse id _ Ef) as Hmiss.
      split; [split |].
      * intros [_ (d & Hd & Hp)]. now destruct (Hmiss d Hd).
      * destruct (Lifecycle.readdir_failed dir); discriminate.
      * split; [destruct (Lifecycle.readdir_failed dir); discriminate |].
        intros _. destruct (Lifecycle.readdir_failed dir); eauto.
  - split; [split; [intros [H _]; discriminate | discriminate] |].
    split; [discriminate | eauto].
Qed.

(** ** Loading the library *)

(** X20. Loading the library registers the buffer saver and nothing else.
    [_PG_init] registers the buffer saver exactly when the save location is a
    directory or could be made; it calls [mkdir] only when [stat] reports that
    the location does not exist; and it registers no block reader. *)
Theorem PG_init_registers_the_buffer_saver :
  forall (loc : Lifecycle.SaveLocation) (pm : Scheduler.Postmaster),
    let loaded := Lifecycle._PG_init loc pm in
    (Lifecycle.registered loaded = Some Scheduler.BufferSaver
     <-> Lifecycle.stat loc = Lifecycle.StatOk true
         \/ (Lifecycle.stat loc = Lifecycle.StatFails Lifecycle.ENOENT
             /\ 0 <= Lifecycle.mkdir loc))
    /\ (Lifecycle.registered loaded = None
        <-> Lifecycle.init_error loaded <> None)
    /\ (Lifecycle.made_directory loaded = true
        <-> Lifecycle.stat loc = Lifecycle.StatFails Lifecycle.ENOENT)
    /\ (forall id, Lifecycle.registered loaded <> Some (Scheduler.BlockReader id)).
Proof.
  intros loc pm. cbv zeta.
  unfold Lifecycle._PG_init, Lifecycle.CreateDirectory.
  destruct (Lifecycle.stat loc) as [[|] | errno]; cbn.
  - intuition (try discriminate; try congruence).
  - intuition (try discriminate; try congruence).
  - destruct (Z.eqb_spec errno Lifecycle.ENOENT) as [-> | Hne].
    + destruct (Z.ltb_spec (Lifecycle.mkdir loc) 0); cbn;
        intuition (try discriminate; try congruence; try lia).
    + cbn. intuition (try discriminate; try congruence).
Qed.
